(** * Postpilot: the publish queue (models/Collection.js) and the
    publishing service (services/socialMediaService.js)

  A shallow embedding of the two server-side modules that carry the
  scheduling and publishing logic, and of the collection controller
  that calls the queue's methods, with the properties of the
  specification that concern them and further properties of the code.

  Conventions of the embedding:
  - a JavaScript [Date] is its time value, a [Z] of milliseconds since
    the epoch; [new Date()] reads a clock that the model passes in;
  - a field that may be [undefined] is an [option];
  - a Mongoose ObjectId is the string its [toString()] prints, 24 hex
    digits in lower case; a string that is stored on an ObjectId path
    is cast ([objectId]), and where the code compares [toString()]s the
    model compares strings;
  - a method that mutates [this] and returns [this.save()] is a function
    from the document before the call to the document after it. *)

From Stdlib Require Import ZArith Lia Bool Ascii.
From stdpp Require Import base decidable option list list_numbers strings pretty.

Local Open Scope Z_scope.

(* ===================================================================== *)
(** * Part I: the Collection model *)
(* ===================================================================== *)

Module Collection.

(** ** Schema *)

Record Position := mkPosition { row : Z; col : Z }.

Record Item := mkItem {
  contentId : string;
  position  : Position;
  order     : Z;               (* "For posting sequence" *)
  posted    : bool;
  postedAt  : option Z;
  postId    : option string;
  postUrl   : option string
}.

Inductive Interval := daily | every_other_day | weekly | custom.

Record PostingTime := mkPostingTime {
  hour : Z; minute : Z; timezone : string
}.

Record Scheduling := mkScheduling {
  enabled             : bool;
  startDate           : option Z;
  endDate             : option Z;
  interval            : Interval;
  customIntervalHours : option Z;
  postingTimes        : list PostingTime;
  autoPost            : bool;
  postSequentially    : bool
}.

Record Stats := mkStats {
  totalItems   : nat;
  postedItems  : nat;
  failedItems  : nat;
  lastPostedAt : option Z;
  nextPostAt   : option Z
}.

Record ErrorEntry := mkErrorEntry {
  timestamp : Z; itemIndex : Z; errorMessage : string; errorCode : string
}.

Record Settings := mkSettings {
  isActive : bool; allowReordering : bool
}.

Record t := mkCollection {
  items      : list Item;
  scheduling : Scheduling;
  stats      : Stats;
  settings   : Settings;
  errors     : list ErrorEntry;
  updatedAt  : Z
}.

(** What a publish hands to [markAsPosted]. *)
Record PostData := mkPostData {
  pd_postId : option string; pd_postUrl : option string
}.

(** ** Field updates (assignments to one field of a document) *)

Definition set_items (l : list Item) (c : t) : t :=
  mkCollection l (scheduling c) (stats c) (settings c) (errors c) (updatedAt c).

Definition set_stats (s : Stats) (c : t) : t :=
  mkCollection (items c) (scheduling c) s (settings c) (errors c) (updatedAt c).

Definition set_updatedAt (u : Z) (c : t) : t :=
  mkCollection (items c) (scheduling c) (stats c) (settings c) (errors c) u.

Definition set_order (o : Z) (it : Item) : Item :=
  mkItem (contentId it) (position it) o (posted it)
         (postedAt it) (postId it) (postUrl it).

Definition set_position (p : Position) (it : Item) : Item :=
  mkItem (contentId it) p (order it) (posted it)
         (postedAt it) (postId it) (postUrl it).

Definition set_lastPostedAt (d : option Z) (s : Stats) : Stats :=
  mkStats (totalItems s) (postedItems s) (failedItems s) d (nextPostAt s).

(** A document as [new Collection({...})] leaves it, with the schema's
    defaults. *)
Definition empty : t :=
  mkCollection []
    (mkScheduling false None None daily None [] false true)
    (mkStats 0 0 0 None None)
    (mkSettings true true)
    [] 0.

(** ** The cast to ObjectId, read back with [toString()]

    A content id is a string of 24 hex digits, as the client sent it or
    as an ObjectId prints it.  Stored on the path [items.contentId] it
    is cast to an ObjectId, whose [toString()] prints the digits in
    lower case.  (A string that is no ObjectId fails the cast and
    [save()] rejects the document; the model takes ids to be ObjectId
    strings.) *)

Definition lowerHex (ch : ascii) : ascii :=
  let n := nat_of_ascii ch in
  if ((65 <=? n) && (n <=? 70))%nat then ascii_of_nat (n + 32) else ch.

Fixpoint objectId (id : string) : string :=
  match id with
  | EmptyString => EmptyString
  | String ch rest => String (lowerHex ch) (objectId rest)
  end.

(** An id in the form [toString()] prints. *)
Definition canonical (id : string) : Prop := objectId id = id.

(** ** The pre-save hook and [save] *)

Definition save (now : Z) (c : t) : t :=
  let c := set_updatedAt now c in
  set_stats
    (mkStats (length (items c))
             (length (filter (λ item, posted item = true) (items c)))
             (length (errors c))
             (lastPostedAt (stats c)) (nextPostAt (stats c)))
    c.

(** ** Instance methods *)

(** [this.items.push({ contentId, ... })] casts [contentId] to the
    ObjectId the entry stores. *)
Definition addContent (cid : string) (pos : Position) (now : Z) (c : t) : t :=
  let order := Z.of_nat (length (items c)) in
  let c := set_items (items c ++ [mkItem (objectId cid) pos order
                                         false None None None]) c in
  save now c.

Definition removeContent (cid : string) (now : Z) (c : t) : t :=
  let c := set_items (filter (λ item, contentId item ≠ cid) (items c)) c in
  (* Reorder remaining items *)
  let c := set_items (imap (λ index item, set_order (Z.of_nat index) item) (items c)) c in
  save now c.

(** [reorderContent] returns [undefined] without saving when no entry
    carries the content id: the document is left as it was. *)
Definition reorderContent (cid : string) (newPosition : Position)
    (now : Z) (c : t) : t :=
  match list_find (λ item, contentId item = cid) (items c) with
  | None => c
  | Some (itemIndex, item) =>
      save now (set_items (<[itemIndex := set_position newPosition item]> (items c)) c)
  end.

Definition markAsPosted (cid : string) (postData : PostData)
    (now : Z) (c : t) : t :=
  let c :=
    match list_find (λ item, contentId item = cid) (items c) with
    | Some (i, item) =>
        let item' := mkItem (contentId item) (position item) (order item)
                            true (Some now)
                            (pd_postId postData) (pd_postUrl postData) in
        set_stats (set_lastPostedAt (Some now) (stats c))
                  (set_items (<[i := item']> (items c)) c)
    | None => c
    end in
  save now c.

Definition getNextItemToPost (c : t) : option Item :=
  snd <$> list_find (λ item, posted item = false) (items c).

(** ** Local time

    [setDate] and [setHours] work on the local calendar.  The server's
    zone is a fixed offset [tz] (milliseconds east of UTC); daylight
    saving changes are outside the model. *)

Definition msPerDay    : Z := 86400000.
Definition msPerHour   : Z := 3600000.
Definition msPerMinute : Z := 60000.

(** Local midnight of the day [t] falls on. *)
Definition startOfDay (tz t : Z) : Z := t - (t + tz) mod msPerDay.

(** [d.setDate(d.getDate() + n)] *)
Definition addDays (n t : Z) : Z := t + n * msPerDay.

(** [d.setHours(d.getHours() + n)] *)
Definition addHours (n t : Z) : Z := t + n * msPerHour.

(** [d.setHours(h, m, 0, 0)] *)
Definition setHours (tz h m t : Z) : Z :=
  startOfDay tz t + h * msPerHour + m * msPerMinute.

(** ** [calculateNextPostTime] *)

Definition calculateNextPostTime (tz now : Z) (c : t) : option Z :=
  let sch := scheduling c in
  match enabled sch, startDate sch with
  | true, Some start =>
      let nextTime := start in
      (* If start date is in the past, calculate from last posted or now *)
      let nextTime :=
        if nextTime <? now
        then match lastPostedAt (stats c) with
             | Some last => last
             | None => now
             end
        else nextTime in
      (* Add interval *)
      let nextTime :=
        match interval sch with
        | daily => addDays 1 nextTime
        | every_other_day => addDays 2 nextTime
        | weekly => addDays 7 nextTime
        | custom =>
            match customIntervalHours sch with
            | Some n => if n =? 0 then nextTime else addHours n nextTime
            | None => nextTime
            end
        end in
      (* Set to specific posting time if configured *)
      let nextTime :=
        match postingTimes sch with
        | postingTime :: _ => setHours tz (hour postingTime) (minute postingTime) nextTime
        | [] => nextTime
        end in
      (* Check if past end date *)
      match endDate sch with
      | Some e => if e <? nextTime then None else Some nextTime
      | None => Some nextTime
      end
  | _, _ => None
  end.

(** ** The drag-and-drop endpoint of the collection controller

    [exports.reorderContent] writes the [position] and the [order] a
    client sends onto the entries, and saves. *)

Record Update := mkUpdate {
  u_contentId : string; u_position : option Position; u_order : option Z
}.

Definition applyUpdate (c : t) (update : Update) : t :=
  match list_find (λ item, contentId item = u_contentId update) (items c) with
  | Some (i, item) =>
      let item := match u_position update with
                  | Some p => set_position p item
                  | None => item
                  end in
      let item := match u_order update with
                  | Some o => set_order o item
                  | None => item
                  end in
      set_items (<[i := item]> (items c)) c
  | None => c
  end.

Definition controllerReorder (updates : list Update) (now : Z) (c : t) : t :=
  if allowReordering (settings c)
  then save now (foldl applyUpdate c updates)
  else c.

(** ** Queue operations as data *)

Inductive Op :=
| OpAddContent (cid : string) (pos : Position)
| OpRemoveContent (cid : string)
| OpReorderContent (cid : string) (newPosition : Position)
| OpMarkAsPosted (cid : string) (postData : PostData)
| OpSave.

Definition exec (now : Z) (op : Op) (c : t) : t :=
  match op with
  | OpAddContent cid pos => addContent cid pos now c
  | OpRemoveContent cid => removeContent cid now c
  | OpReorderContent cid p => reorderContent cid p now c
  | OpMarkAsPosted cid pd => markAsPosted cid pd now c
  | OpSave => save now c
  end.

(** A history: each operation with the clock reading at its call. *)
Definition run (ops : list (Z * Op)) (c : t) : t :=
  foldl (λ c '(now, op), exec now op c) c ops.

Definition is_add_or_remove (op : Op) : bool :=
  match op with
  | OpAddContent _ _ | OpRemoveContent _ => true
  | _ => false
  end.

(** ** Predicates of the specification *)

Definition stats_consistent (c : t) : Prop :=
  postedItems (stats c) = length (filter (λ item, posted item = true) (items c))
  ∧ totalItems (stats c) = length (items c).

(** The [order] values, read in storage order, are 0, 1, ..., n-1. *)
Definition contiguous (c : t) : Prop :=
  order <$> items c = Z.of_nat <$> seq 0 (length (items c)).

(** The entries an operation leaves in the queue, in the places they
    end up in: a removal deletes the entries that carry the content id
    and closes the gaps, every other operation keeps each entry where
    it is. *)
Definition survivors (op : Op) (c : t) : list Item :=
  match op with
  | OpRemoveContent cid => filter (λ item, contentId item ≠ cid) (items c)
  | _ => items c
  end.

(** The posting time on the local day of [now], and a day later. *)
Definition todayAt (tz now : Z) (pt : PostingTime) : Z :=
  startOfDay tz now + hour pt * msPerHour + minute pt * msPerMinute.

Definition tomorrowAt (tz now : Z) (pt : PostingTime) : Z :=
  todayAt tz now pt + msPerDay.

Definition not_after_end (c : t) (time : Z) : Prop :=
  match endDate (scheduling c) with
  | Some e => time ≤ e
  | None => True
  end.

(** A queue with scheduling on, a start date, a daily interval, nothing
    posted yet and one posting time. *)
Definition dailyQueue (start : Z) (pt : PostingTime) (c : t) : Prop :=
  enabled (scheduling c) = true
  ∧ startDate (scheduling c) = Some start
  ∧ interval (scheduling c) = daily
  ∧ lastPostedAt (stats c) = None
  ∧ postingTimes (scheduling c) = [pt].

(** The ids of two content documents, A and B. *)
Definition idA : string := "64d0000000000000000000aa".
Definition idB : string := "64d0000000000000000000bb".

(** Two entries added in turn, then dragged into the opposite order
    through the controller's reorder endpoint. *)
Definition swappedQueue : t :=
  controllerReorder
    [mkUpdate idA None (Some 1); mkUpdate idB None (Some 0)] 3
    (run [(1, OpAddContent idA (mkPosition 0 0));
          (2, OpAddContent idB (mkPosition 0 1))] empty).

(** A daily queue that posts at noon, started ten days ago, looked at
    at 08:00 UTC of day 10. *)
Definition noonQueue : t :=
  mkCollection []
    (mkScheduling true (Some 0) None daily None
                  [mkPostingTime 12 0 "UTC"] true true)
    (mkStats 0 0 0 None None) (mkSettings true true) [] 0.

Definition eightOnDay10 : Z := 10 * msPerDay + 8 * msPerHour.

(** The same queue, set to end with day 10. *)
Definition endingQueue : t :=
  mkCollection []
    (mkScheduling true (Some 0) (Some (11 * msPerDay)) daily None
                  [mkPostingTime 12 0 "UTC"] true true)
    (mkStats 0 0 0 None None) (mkSettings true true) [] 0.

(** ** Virtuals and statics *)

(** The virtual [remainingItems]. *)
Definition remainingItems (c : t) : Z :=
  Z.of_nat (totalItems (stats c)) - Z.of_nat (postedItems (stats c)).

Definition unposted (l : list Item) : list Item :=
  filter (λ item, posted item = false) l.

(** ** The stored document

    The fields of a stored collection that the methods above do not
    read: its id, its owner, its status and its grid configuration,
    around the fields in [t]. *)

Inductive Status := draft | scheduled | posting | completed | paused | failed.

Record GridConfig := mkGridConfig { columns : nat; rows : nat }.

Record Document := mkDocument {
  _id        : string;
  userId     : string;
  status     : Status;
  gridConfig : GridConfig;
  doc        : t
}.

Definition set_doc (c : t) (d : Document) : Document :=
  mkDocument (_id d) (userId d) (status d) (gridConfig d) c.

Definition set_status (s : Status) (d : Document) : Document :=
  mkDocument (_id d) (userId d) s (gridConfig d) (doc d).

Definition set_gridConfig (g : GridConfig) (d : Document) : Document :=
  mkDocument (_id d) (userId d) (status d) g (doc d).

Definition set_scheduling (s : Scheduling) (c : t) : t :=
  mkCollection (items c) s (stats c) (settings c) (errors c) (updatedAt c).

Definition set_settings (s : Settings) (c : t) : t :=
  mkCollection (items c) (scheduling c) (stats c) s (errors c) (updatedAt c).

Definition set_nextPostAt (d : option Z) (s : Stats) : Stats :=
  mkStats (totalItems s) (postedItems s) (failedItems s) (lastPostedAt s) d.

(** The query of [findReadyToPost]:
    [{ 'scheduling.enabled': true, 'scheduling.autoPost': true,
       status: { $in: ['scheduled', 'posting'] },
       'stats.nextPostAt': { $lte: now }, 'settings.isActive': true }].
    A document without [nextPostAt] does not match [$lte]. *)
Definition readyToPost (now : Z) (d : Document) : bool :=
  enabled (scheduling (doc d))
  && autoPost (scheduling (doc d))
  && match status d with scheduled | posting => true | _ => false end
  && match nextPostAt (stats (doc d)) with
     | Some due => due <=? now
     | None => false
     end
  && isActive (settings (doc d)).

Definition findReadyToPost (now : Z) (db : list Document) : list Document :=
  filter (λ d, readyToPost now d = true) db.

(** ** The anchor of the next due time

    The moment [calculateNextPostTime] counts the interval from: the
    start date while it has not passed, else the last post when there is
    one, else the current time. *)
Definition anchor (now start : Z) (c : t) : Z :=
  if start <? now
  then default now (lastPostedAt (stats c))
  else start.

(** The days the day-based intervals add. *)
Definition intervalDays (i : Interval) : option Z :=
  match i with
  | daily => Some 1
  | every_other_day => Some 2
  | weekly => Some 7
  | custom => None
  end.

(** A weekly queue that posts at 18:15, started long ago, whose last
    post went out on day 3 at 20:00. *)
Definition weeklyQueue : t :=
  mkCollection []
    (mkScheduling true (Some 0) None weekly None
                  [mkPostingTime 18 15 "UTC"] true true)
    (mkStats 0 0 0 (Some (3 * msPerDay + 20 * msPerHour)) None)
    (mkSettings true true) [] 0.

(** The weekly queue with one entry. *)
Definition weeklyQueueOfOne : t :=
  addContent "a" (mkPosition 0 0) 1 weeklyQueue.

(** A queue on a custom interval for which no hours were given. *)
Definition customQueue : t :=
  mkCollection []
    (mkScheduling true (Some 0) None custom None [] true true)
    (mkStats 0 0 0 None None) (mkSettings true true) [] 0.

End Collection.

(* ===================================================================== *)
(** * Part I-b: the collection controller

    The request handlers that call the model's methods.  A handler is a
    function from the store (the documents, in storage order) to the
    reply and the store after it; [Collection.findOne({ _id, userId })]
    is the first document with that id and owner.

    Ids are stored as ObjectIds and shown here by their [toString()],
    which prints the hex digits in lower case; a request carries an id
    as the string the client sent.  [objectId] is the cast Mongoose
    applies where such a string meets an ObjectId path (a query on
    [_id] here, the entry pushed on [items] in the model's
    [addContent]); where the code compares [toString()] with the
    request's string, the model compares the strings.

    The model carries the fields the queue methods and these handlers
    compute on; [name], [description], [platform] and [tags] are stored
    as sent and are left out.  [validates] stands for the schema's
    validation in [save()]: when it rejects the document, [save()]
    throws, the handler's [catch] answers 500 and nothing is stored.
    [populate] on the way to a [WithCollection] reply changes how the
    entries are shown, not the stored document, and is left out. *)
(* ===================================================================== *)

Module Controller.

Import Collection.

(** ** Replies *)

Record Cell := mkCell {
  cellPosition : Position;
  cellContent  : option string;     (* the populated [item.contentId] or [null] *)
  cellPosted   : bool
}.

Inductive Body :=
| Failure (error : string)                         (* [{ error }] *)
| Done (message : string)                          (* [{ message }] *)
| WithCollection (message : string) (d : Document) (* [{ message, collection }] *)
| Preview (d : Document) (grid : list (list Cell)).

Record Reply := mkReply { code : nat; body : Body }.

(** ** [validateObjectId]: [/^[0-9a-fA-F]{24}$/] *)

Definition isHexDigit (ch : ascii) : bool :=
  let n := nat_of_ascii ch in
  ((48 <=? n) && (n <=? 57) || (65 <=? n) && (n <=? 70)
   || (97 <=? n) && (n <=? 102))%nat.

Definition validateObjectId (id : string) : bool :=
  (String.length id =? 24)%nat
  && forallb isHexDigit (String.list_ascii_of_string id).

(** ** Looking a collection up *)

Definition findOne (id user : string) (db : list Document)
    : option (nat * Document) :=
  list_find (λ d, _id d = objectId id ∧ userId d = user) db.

(** ** [exports.addContent]

    [contentOwner] is the content store: the owner of the content with
    a given id, if there is one. *)

Definition addContent (validates : Document → bool)
    (contentOwner : string → option string)
    (user id cid : string) (position : Position) (now : Z)
    (db : list Document) : Reply * list Document :=
  if negb (validateObjectId id) || negb (validateObjectId cid)
  then (mkReply 400 (Failure "Invalid ID"), db)
  else
    match findOne id user db with
    | None => (mkReply 404 (Failure "Collection not found"), db)
    | Some (i, collection) =>
        (* Verify content exists and belongs to user *)
        if negb (bool_decide (contentOwner (objectId cid) = Some user))
        then (mkReply 404 (Failure "Content not found"), db)
        else
          (* Check if content already in collection *)
          if existsb (λ item, String.eqb (contentId item) cid)
                     (items (doc collection))
          then (mkReply 400 (Failure "Content already in collection"), db)
          else
            let collection :=
              set_doc (Collection.addContent cid position now (doc collection))
                      collection in
            if validates collection
            then (mkReply 200 (WithCollection "Content added to collection"
                                              collection),
                  <[i := collection]> db)
            else (mkReply 500 (Failure "Failed to add content"), db)
    end.

(** ** [exports.removeContent] *)

Definition removeContent (validates : Document → bool)
    (user id cid : string) (now : Z)
    (db : list Document) : Reply * list Document :=
  if negb (validateObjectId id) || negb (validateObjectId cid)
  then (mkReply 400 (Failure "Invalid ID"), db)
  else
    match findOne id user db with
    | None => (mkReply 404 (Failure "Collection not found"), db)
    | Some (i, collection) =>
        let collection :=
          set_doc (Collection.removeContent cid now (doc collection)) collection in
        if validates collection
        then (mkReply 200 (WithCollection "Content removed from collection"
                                          collection),
              <[i := collection]> db)
        else (mkReply 500 (Failure "Failed to remove content"), db)
    end.

(** ** [exports.reorderContent] *)

Definition reorderContent (validates : Document → bool)
    (user id : string) (updates : list Update) (now : Z)
    (db : list Document) : Reply * list Document :=
  if negb (validateObjectId id)
  then (mkReply 400 (Failure "Invalid collection ID"), db)
  else
    match findOne id user db with
    | None => (mkReply 404 (Failure "Collection not found"), db)
    | Some (i, collection) =>
        if negb (allowReordering (settings (doc collection)))
        then (mkReply 403 (Failure "Reordering not allowed for this collection"), db)
        else
          (* Update positions and order *)
          let collection :=
            set_doc (save now (foldl applyUpdate (doc collection) updates))
                    collection in
          if validates collection
          then (mkReply 200 (WithCollection "Collection reordered successfully"
                                            collection),
                <[i := collection]> db)
          else (mkReply 500 (Failure "Failed to reorder content"), db)
    end.

(** ** [exports.updateCollection]

    Of the allowed fields the model carries [gridConfig], [scheduling],
    [status] and [settings]; a field absent from the body is left as it
    is, a field in the body is taken whole. *)

Record Updates := mkUpdates {
  new_gridConfig : option GridConfig;
  new_scheduling : option Scheduling;
  new_status     : option Status;
  new_settings   : option Settings
}.

Definition assign {A B} (field : option A) (set : A → B → B) (x : B) : B :=
  match field with
  | Some v => set v x
  | None => x
  end.

Definition applyUpdates (updates : Updates) (d : Document) : Document :=
  let d := assign (new_gridConfig updates) set_gridConfig d in
  let d := assign (new_scheduling updates)
                  (λ s d, set_doc (set_scheduling s (doc d)) d) d in
  let d := assign (new_status updates) set_status d in
  assign (new_settings updates) (λ s d, set_doc (set_settings s (doc d)) d) d.

Definition updateCollection (validates : Document → bool)
    (tz : Z) (user id : string) (updates : Updates)
    (now : Z) (db : list Document) : Reply * list Document :=
  if negb (validateObjectId id)
  then (mkReply 400 (Failure "Invalid collection ID"), db)
  else
    match findOne id user db with
    | None => (mkReply 404 (Failure "Collection not found"), db)
    | Some (i, collection) =>
        let collection := applyUpdates updates collection in
        (* Calculate next post time if scheduling is enabled *)
        let collection :=
          if enabled (scheduling (doc collection))
          then
            let nextPostTime := calculateNextPostTime tz now (doc collection) in
            let collection :=
              set_doc (set_stats (set_nextPostAt nextPostTime
                                    (stats (doc collection)))
                                 (doc collection)) collection in
            match status collection with
            | draft => set_status scheduled collection
            | _ => collection
            end
          else collection in
        let collection := set_doc (save now (doc collection)) collection in
        if validates collection
        then (mkReply 200 (WithCollection "Collection updated successfully"
                                          collection),
              <[i := collection]> db)
        else (mkReply 500 (Failure "Failed to update collection"), db)
    end.

(** ** [exports.createCollection]

    [newId] is the id the store gives the new document. *)

Definition defaultScheduling : Scheduling :=
  mkScheduling false None None daily None [] false true.

Definition defaultSettings : Settings := mkSettings true true.

Definition newDocument (newId user : string) (grid : GridConfig)
    (sched : Scheduling) (entries : list Item) (now : Z) : Document :=
  mkDocument newId user draft grid
    (save now (mkCollection entries sched (mkStats 0 0 0 None None)
                            defaultSettings [] now)).

Definition createCollection (validates : Document → bool)
    (user newId : string)
    (grid : option GridConfig) (sched : option Scheduling) (now : Z)
    (db : list Document) : Reply * list Document :=
  let collection :=
    newDocument newId user (default (mkGridConfig 3 3) grid)
                (default defaultScheduling sched) [] now in
  if validates collection
  then (mkReply 201 (WithCollection "Collection created successfully" collection),
        db ++ [collection])
  else (mkReply 500 (Failure "Failed to create collection"), db).

(** ** [exports.duplicateCollection] *)

Definition copyItem (item : Item) : Item :=
  mkItem (contentId item) (position item) (order item) false None None None.

Definition duplicateCollection (validates : Document → bool)
    (user id newId : string) (now : Z)
    (db : list Document) : Reply * list Document :=
  if negb (validateObjectId id)
  then (mkReply 400 (Failure "Invalid collection ID"), db)
  else
    match findOne id user db with
    | None => (mkReply 404 (Failure "Collection not found"), db)
    | Some (_, original) =>
        let duplicate :=
          newDocument newId user (gridConfig original) defaultScheduling
                      (copyItem <$> items (doc original)) now in
        if validates duplicate
        then (mkReply 201 (WithCollection "Collection duplicated successfully"
                                          duplicate),
              db ++ [duplicate])
        else (mkReply 500 (Failure "Failed to duplicate collection"), db)
    end.

(** ** [exports.deleteCollection] ([findOneAndDelete]) *)

Definition deleteCollection (user id : string)
    (db : list Document) : Reply * list Document :=
  if negb (validateObjectId id)
  then (mkReply 400 (Failure "Invalid collection ID"), db)
  else
    match findOne id user db with
    | None => (mkReply 404 (Failure "Collection not found"), db)
    | Some (i, _) =>
        (mkReply 200 (Done "Collection deleted successfully"), delete i db)
    end.

(** ** [exports.previewCollection]

    [populate] puts the content document in the place of an entry's
    [contentId], and [null] where the content is gone; the model shows a
    content document by its id. *)

Definition populate (contentOwner : string → option string)
    (item : Item) : option string :=
  match contentOwner (contentId item) with
  | Some _ => Some (contentId item)
  | None => None
  end.

Definition cellAt (contentOwner : string → option string)
    (entries : list Item) (r c : nat) : Cell :=
  let here := mkPosition (Z.of_nat r) (Z.of_nat c) in
  match list_find (λ item, row (position item) = Z.of_nat r
                           ∧ col (position item) = Z.of_nat c) entries with
  | Some (_, item) => mkCell here (populate contentOwner item) (posted item)
  | None => mkCell here None false
  end.

(** The two nested [for] loops. *)
Definition buildGrid (contentOwner : string → option string)
    (grid : GridConfig) (entries : list Item) : list (list Cell) :=
  (λ r, (λ c, cellAt contentOwner entries r c) <$> seq 0 (columns grid))
    <$> seq 0 (rows grid).

Definition previewCollection (contentOwner : string → option string)
    (user id : string) (db : list Document) : Reply * list Document :=
  if negb (validateObjectId id)
  then (mkReply 400 (Failure "Invalid collection ID"), db)
  else
    match findOne id user db with
    | None => (mkReply 404 (Failure "Collection not found"), db)
    | Some (_, collection) =>
        (mkReply 200 (Preview collection
                        (buildGrid contentOwner (gridConfig collection)
                                   (items (doc collection)))), db)
    end.

(** ** Requests as data *)

Inductive Request :=
| ReqCreate (newId : string) (grid : option GridConfig) (sched : option Scheduling)
| ReqUpdate (id : string) (updates : Updates)
| ReqDelete (id : string)
| ReqAddContent (id cid : string) (position : Position)
| ReqRemoveContent (id cid : string)
| ReqReorder (id : string) (updates : list Update)
| ReqDuplicate (id newId : string)
| ReqPreview (id : string).

Definition handle (validates : Document → bool) (tz : Z)
    (contentOwner : string → option string)
    (user : string) (now : Z) (req : Request) (db : list Document)
    : Reply * list Document :=
  match req with
  | ReqCreate newId grid sched =>
      createCollection validates user newId grid sched now db
  | ReqUpdate id updates => updateCollection validates tz user id updates now db
  | ReqDelete id => deleteCollection user id db
  | ReqAddContent id cid position =>
      addContent validates contentOwner user id cid position now db
  | ReqRemoveContent id cid => removeContent validates user id cid now db
  | ReqReorder id updates => reorderContent validates user id updates now db
  | ReqDuplicate id newId => duplicateCollection validates user id newId now db
  | ReqPreview id => previewCollection contentOwner user id db
  end.

(** The id a request names, if it names one. *)
Definition target (req : Request) : option string :=
  match req with
  | ReqCreate _ _ _ => None
  | ReqUpdate id _ | ReqDelete id | ReqAddContent id _ _
  | ReqRemoveContent id _ | ReqReorder id _ | ReqDuplicate id _
  | ReqPreview id => Some id
  end.

(** The content id a request asks to add, if it is one that adds. *)
Definition added (req : Request) : option string :=
  match req with
  | ReqAddContent _ cid _ => Some cid
  | _ => None
  end.

(** ** Predicates on the store *)

Definition othersOf (user : string) (db : list Document) : list Document :=
  filter (λ d, userId d ≠ user) db.

Definition uniqueContent (c : Collection.t) : Prop :=
  NoDup (contentId <$> items c).

Definition wellFormed (d : Document) : Prop :=
  stats_consistent (doc d)
  ∧ Forall (λ item, canonical (contentId item)) (items (doc d)).

(** The content ids of a collection's entries, in storage order. *)
Definition idsOf (d : Document) : list string := contentId <$> items (doc d).

(** What a handler does to the ids in the collection it stores back: it
    keeps them, removes one, or appends the cast of the id it was asked
    to add, which the collection did not hold in the spelling of the
    request. *)
Inductive idsStep (req : Request) (old new : list string) : Prop :=
| ids_kept : new = old → idsStep req old new
| ids_removed cid : new = filter (λ x, x ≠ cid) old → idsStep req old new
| ids_added cid :
    added req = Some cid → cid ∉ old → new = old ++ [objectId cid] →
    idsStep req old new.

(** The requests that write scheduling fields or take a document out of
    the store. *)
Definition rescheduling (req : Request) : bool :=
  match req with
  | ReqUpdate _ _ | ReqDelete _ => true
  | _ => false
  end.

(** An entry after a reorder, against the entry it was: the same
    content with the same posting record. *)
Definition moved (old new : Item) : Prop :=
  contentId new = contentId old ∧ posted new = posted old
  ∧ postedAt new = postedAt old ∧ postId new = postId old
  ∧ postUrl new = postUrl old.

(** A cell of the preview, by its coordinates. *)
Definition cellOf (grid : list (list Cell)) (r c : nat) : option Cell :=
  grid !! r ≫= (λ gridRow, gridRow !! c).

(** ** A small store

    Two users with a collection each; the first user's collection holds
    one photo. *)

Definition alice  : string := "64b0000000000000000000a1".
Definition bob    : string := "64b0000000000000000000b2".
Definition feed   : string := "64c0000000000000000000f1".
Definition reel   : string := "64c0000000000000000000f2".
Definition photo  : string := "64d00000000000000000abcd".
Definition clip   : string := "64d00000000000000000abce".

(** The photo's id as a client may send it. *)
Definition photoUpper : string := "64D00000000000000000ABCD".

Definition contentStore (cid : string) : option string :=
  if String.eqb cid photo then Some alice
  else if String.eqb cid clip then Some alice
  else None.

Definition accepting (d : Document) : bool := true.

Definition aliceFeed : Document :=
  let created := newDocument feed alice (mkGridConfig 3 3) defaultScheduling [] 1 in
  set_doc (Collection.addContent photo (mkPosition 0 0) 3 (doc created)) created.

Definition bobReel : Document :=
  newDocument reel bob (mkGridConfig 3 3) defaultScheduling [] 2.

Definition sampleStore : list Document := [aliceFeed; bobReel].

(** Scheduling as a client switches it on: daily at 09:30, posting on its
    own, from a start date that has passed. *)
Definition dailyAtHalfPastNine : Scheduling :=
  mkScheduling true (Some 0) None daily None
               [mkPostingTime 9 30 "UTC"] true true.

Definition switchOn : Updates :=
  mkUpdates None (Some dailyAtHalfPastNine) None None.

End Controller.

(* ===================================================================== *)
(** * Part II: the publishing service *)
(* ===================================================================== *)

Module Service.

Local Open Scope string_scope.

(** ** JavaScript values that cross the HTTP boundary *)

#[warnings="-register-all"]
Inductive json :=
| JUndefined
| JNull
| JBool (b : bool)
| JNum (n : Z)
| JStr (s : string)
| JObj (fields : list (string * json)).

(** [`${v}`] *)
Definition template (v : json) : string :=
  match v with
  | JUndefined => "undefined"
  | JNull => "null"
  | JBool true => "true"
  | JBool false => "false"
  | JNum n => pretty n
  | JStr s => s
  | JObj _ => "[object Object]"
  end.

Definition truthy (v : json) : bool :=
  match v with
  | JUndefined | JNull => false
  | JBool b => b
  | JNum n => negb (n =? 0)%Z
  | JStr s => negb (String.eqb s "")
  | JObj _ => true
  end.

(** [a || b] *)
Definition js_or (a b : json) : json := if truthy a then a else b.

Definition of_opt (o : option string) : json :=
  match o with Some s => JStr s | None => JUndefined end.

Fixpoint lookup_field (k : string) (fields : list (string * json)) : json :=
  match fields with
  | [] => JUndefined
  | (k', v) :: rest => if String.eqb k k' then v else lookup_field k rest
  end.

Definition is_str (s : string) (v : json) : bool :=
  match v with JStr s' => String.eqb s' s | _ => false end.

(** ** Errors, requests, responses *)

(** An [Error]: its [message] and, for a failed axios call, what
    [error.response?.data?.error?.message] evaluates to. *)
Record Error := mkError { message : string; remoteMessage : option string }.

Definition newError (msg : string) : Error := mkError msg None.

(** [error.response?.data?.error?.message || error.message] *)
Definition describe (error : Error) : string :=
  match remoteMessage error with
  | Some s => if String.eqb s "" then message error else s
  | None => message error
  end.

Inductive Method := GET | POST | PUT.

Record Request := mkRequest {
  method  : Method;
  url     : string;
  body    : json;
  params  : list (string * string);
  headers : list (string * string)
}.

Inductive Response :=
| RespOk (data : json)
| RespErr (e : Error).

Inductive Event :=
| EvHttp (req : Request) (resp : Response)
| EvSleep (ms : Z).

(** ** The world a publish runs in *)

Record World := mkWorld { clock : Z; log : list Event }.

Record SocialAccount := mkAccount {
  connected    : bool;
  accessToken  : option string;
  refreshToken : option string;
  userId       : option string;
  username     : option string;
  expiresAt    : option Z
}.

(** [user.socialAccounts]; [postWithProfile] builds one with a single
    platform key. *)
Record User := mkUser {
  instagram : option SocialAccount;
  tiktok    : option SocialAccount
}.

Record Content := mkContent {
  mediaType  : string;
  mediaUrl   : string;
  c_caption  : option string;
  c_title    : option string;
  fileSize   : option Z;
  c_platform : option string
}.

Record Options := mkOptions {
  o_caption      : option string;
  privacyLevel   : option string;
  disableDuet    : option bool;
  disableComment : option bool;
  disableStitch  : option bool;
  o_platform     : option string
}.

Record ProfileDoc := mkProfile {
  getEffectiveConnection : string → option SocialAccount
}.

(** What the service reaches outside itself: the remote platforms
    (answering a request in view of everything sent so far), the file
    system, the environment and the profile store. *)
Record Env := mkEnv {
  remote       : list Event → Request → Response;
  readFileSync : string → option string;
  FRONTEND_URL : option string;
  findProfile  : string → option ProfileDoc
}.

(** ** Results *)

Record PostResult := mkPostResult {
  success  : bool;
  platform : string;
  r_postId : json;
  r_postUrl : json;
  r_timestamp : Z
}.

Record BothResult := mkBothResult {
  b_instagram : option PostResult;
  b_tiktok    : option PostResult;
  b_errors    : list (string * string)   (* { platform, error } *)
}.

Inductive Outcome (A : Type) :=
| Return (a : A)
| Throw (e : Error).
Arguments Return {A} a.
Arguments Throw {A} e.

(** ** The monad of async methods: reader, state, exceptions *)

Definition M (A : Type) : Type := Env → World → Outcome A * World.

#[global] Instance M_ret : MRet M := λ A a _ w, (Return a, w).

#[global] Instance M_bind : MBind M := λ A B f m env w,
  match m env w with
  | (Return a, w') => f a env w'
  | (Throw e, w') => (Throw e, w')
  end.

#[global] Instance M_fmap : FMap M := λ A B f m env w,
  match m env w with
  | (Return a, w') => (Return (f a), w')
  | (Throw e, w') => (Throw e, w')
  end.

Definition throw {A} (e : Error) : M A := λ _ w, (Throw e, w).

Definition try_catch {A} (m : M A) (handler : Error → M A) : M A :=
  λ env w,
    match m env w with
    | (Return a, w') => (Return a, w')
    | (Throw e, w') => handler e env w'
    end.

Definition ask : M Env := λ env w, (Return env, w).

(** [new Date()] *)
Definition newDate : M Z := λ _ w, (Return (clock w), w).

(** [await new Promise(resolve => setTimeout(resolve, ms))] *)
Definition sleep (ms : Z) : M () := λ _ w,
  (Return (), mkWorld (clock w + ms) (log w ++ [EvSleep ms])).

(** The world after one more exchange with the remote. *)
Definition exchanged (env : Env) (w : World) (req : Request) : World :=
  mkWorld (clock w) (log w ++ [EvHttp req (remote env (log w) req)]).

(** One axios call: the request goes out, the answer is recorded, a
    failure status rejects. *)
Definition axios (req : Request) : M json := λ env w,
  match remote env (log w) req with
  | RespOk data => (Return data, exchanged env w req)
  | RespErr e => (Throw e, exchanged env w req)
  end.

Definition axios_post (url : string) (data : json)
    (headers : list (string * string)) : M json :=
  axios (mkRequest POST url data [] headers).

Definition axios_get (url : string) (params : list (string * string)) : M json :=
  axios (mkRequest GET url JUndefined params []).

Definition axios_put (url : string) (data : json)
    (headers : list (string * string)) : M json :=
  axios (mkRequest PUT url data [] headers).

(** [v.k] where [v] is neither [undefined] nor [null]: a field of an
    object, [undefined] on any other value. *)
Definition field_of (v : json) (k : string) : json :=
  match v with
  | JObj fields => lookup_field k fields
  | _ => JUndefined
  end.

Definition nullish (v : json) : bool :=
  match v with
  | JUndefined | JNull => true
  | _ => false
  end.

(** [v.k]; reading a property of [undefined] or [null] is a TypeError. *)
Definition prop (v : json) (k : string) : M json :=
  if nullish v
  then throw (newError ("Cannot read properties of " ++ template v
                        ++ " (reading '" ++ k ++ "')"))
  else mret (field_of v k).

Definition account (a : option SocialAccount) (platformKey : string)
    : M SocialAccount :=
  match a with
  | Some acct => mret acct
  | None => throw (newError ("Cannot read properties of undefined (reading '"
                             ++ platformKey ++ "')"))
  end.

(** [!token] *)
Definition missing (token : option string) : bool :=
  match token with
  | Some s => String.eqb s ""
  | None => true
  end.

(** ** [getPublicMediaUrl] *)

(** [s.startsWith(p)] *)
Definition startsWith (p s : string) : bool := String.prefix p s.

(** [path.basename] of Node, POSIX flavour: trailing slashes are
    dropped and the text after the last remaining slash is returned
    (the empty string when nothing remains). *)
Fixpoint dropSlashes (l : list Ascii.ascii) : list Ascii.ascii :=
  match l with
  | "/"%char :: rest => dropSlashes rest
  | _ => l
  end.

Fixpoint takeSegment (l : list Ascii.ascii) : list Ascii.ascii :=
  match l with
  | [] => []
  | "/"%char :: _ => []
  | ch :: rest => ch :: takeSegment rest
  end.

Definition basename (p : string) : string :=
  String.string_of_list_ascii
    (rev (takeSegment (dropSlashes (rev (String.list_ascii_of_string p))))).

(** The test for "already a full URL". *)
Definition isFullUrl (s : string) : bool :=
  startsWith "http://" s || startsWith "https://" s.

(** [process.env.FRONTEND_URL || 'http://localhost:3000'] *)
Definition baseUrl (frontend : option string) : string :=
  match frontend with
  | Some s => if String.eqb s "" then "http://localhost:3000" else s
  | None => "http://localhost:3000"
  end.

Definition getPublicMediaUrl (frontend : option string) (mediaPath : string)
    : string :=
  (* If already a full URL, return as is *)
  if startsWith "http://" mediaPath || startsWith "https://" mediaPath
  then mediaPath
  else baseUrl frontend ++ "/uploads/" ++ basename mediaPath.

(** ** Instagram *)

Definition graph : string := "https://graph.instagram.com/v18.0/".

Definition caption_of (options : Options) (content : Content) : json :=
  js_or (of_opt (o_caption options)) (js_or (of_opt (c_caption content)) (JStr "")).

Definition publishAndLink (userId accessToken : json) (creationId : json)
    : M PostResult :=
  publishResponse ← axios_post (graph ++ template userId ++ "/media_publish")
    (JObj [("creation_id", creationId); ("access_token", accessToken)]) [];
  postId ← prop publishResponse "id";
  permalinkResponse ← axios_get (graph ++ template postId)
    [("fields", "permalink"); ("access_token", template accessToken)];
  permalink ← prop permalinkResponse "permalink";
  timestamp ← newDate;
  mret (mkPostResult true "instagram" postId permalink timestamp).

Definition postInstagramImage (userId accessToken : json)
    (content : Content) (options : Options) : M PostResult :=
  try_catch
    (env ← ask;
     (* Step 1: Create media container *)
     containerResponse ← axios_post (graph ++ template userId ++ "/media")
       (JObj [("image_url", JStr (getPublicMediaUrl (FRONTEND_URL env) (mediaUrl content)));
              ("caption", caption_of options content);
              ("access_token", accessToken)]) [];
     creationId ← prop containerResponse "id";
     (* Steps 2 and 3: publish the container, get the permalink *)
     publishAndLink userId accessToken creationId)
    (λ error, throw (newError ("Instagram posting failed: " ++ describe error))).

Definition igMaxAttempts : nat := 20.
Definition igPollDelay : Z := 6000.

(** The polling loop [while (!isReady && attempts < maxAttempts)], by
    recursion on the attempts that remain, [maxAttempts - attempts];
    it yields [isReady]. *)
Fixpoint igPoll (remaining : nat) (creationId accessToken : json) : M bool :=
  match remaining with
  | O => mret false
  | S remaining' =>
      sleep igPollDelay;;
      statusResponse ← axios_get (graph ++ template creationId)
        [("fields", "status_code"); ("access_token", template accessToken)];
      statusCode ← prop statusResponse "status_code";
      if is_str "FINISHED" statusCode then mret true
      else if is_str "ERROR" statusCode
           then throw (newError "Video processing failed")
           else igPoll remaining' creationId accessToken
  end.

Definition postInstagramVideo (userId accessToken : json)
    (content : Content) (options : Options) : M PostResult :=
  try_catch
    (env ← ask;
     (* Step 1: Create video container *)
     containerResponse ← axios_post (graph ++ template userId ++ "/media")
       (JObj [("media_type", JStr "VIDEO");
              ("video_url", JStr (getPublicMediaUrl (FRONTEND_URL env) (mediaUrl content)));
              ("caption", caption_of options content);
              ("access_token", accessToken)]) [];
     creationId ← prop containerResponse "id";
     (* Step 2: Wait for video processing (poll status) *)
     isReady ← igPoll igMaxAttempts creationId accessToken;
     if negb isReady
     then throw (newError "Video processing timeout")
     else
       (* Steps 3 and 4: publish the video, get the permalink *)
       publishAndLink userId accessToken creationId)
    (λ error, throw (newError ("Instagram video posting failed: " ++ describe error))).

Definition postInstagramCarousel (userId accessToken : json)
    (content : Content) (options : Options) : M PostResult :=
  throw (newError "Carousel posting not yet implemented").

(** [expiresAt < new Date()]; an [expiresAt] that is [undefined] compares
    false. *)
Definition expired (expiresAt : option Z) (now : Z) : bool :=
  match expiresAt with
  | Some e => (e <? now)%Z
  | None => false
  end.

Definition postToInstagram (user : User) (content : Content)
    (options : Options) : M PostResult :=
  try_catch
    (ig ← account (instagram user) "connected";
     if negb (connected ig)
     then throw (newError "Instagram account not connected")
     else if missing (accessToken ig)
     then throw (newError "Instagram access token missing")
     else
       (* Check if token is expired *)
       now ← newDate;
       if expired (expiresAt ig) now
       then throw (newError
              "Instagram access token expired. Please reconnect your account.")
       else
         let accessToken := of_opt (accessToken ig) in
         let userId := of_opt (userId ig) in
         (* Determine media type and post accordingly *)
         if String.eqb (mediaType content) "image"
         then postInstagramImage userId accessToken content options
         else if String.eqb (mediaType content) "video"
         then postInstagramVideo userId accessToken content options
         else if String.eqb (mediaType content) "carousel"
         then postInstagramCarousel userId accessToken content options
         else throw (newError ("Unsupported media type: " ++ mediaType content)))
    (λ error, throw error).

(** ** TikTok *)

Definition tiktokApi : string := "https://open.tiktokapis.com/v2/post/publish/".

Definition flag (b : option bool) : json :=
  match b with Some true => JBool true | _ => JBool false end.

Definition bearer (accessToken : json) : list (string * string) :=
  [("Authorization", "Bearer " ++ template accessToken);
   ("Content-Type", "application/json; charset=UTF-8")].

Definition ttMaxAttempts : nat := 30.
Definition ttPollDelay : Z := 5000.

(** [while (!publishComplete && attempts < maxAttempts)], by recursion
    on the attempts that remain; it yields [publishComplete]. *)
Fixpoint ttPoll (remaining : nat) (publishId accessToken : json) : M bool :=
  match remaining with
  | O => mret false
  | S remaining' =>
      sleep ttPollDelay;;
      statusResponse ← axios_post (tiktokApi ++ "status/fetch/")
        (JObj [("publish_id", publishId)]) (bearer accessToken);
      data ← prop statusResponse "data";
      status ← prop data "status";
      if is_str "PUBLISH_COMPLETE" status then mret true
      else if is_str "FAILED" status
           then throw (newError "TikTok publish failed")
           else ttPoll remaining' publishId accessToken
  end.

(** [fs.readFileSync(path)] *)
Definition readFile (path : string) : M string :=
  env ← ask;
  match readFileSync env path with
  | Some buffer => mret buffer
  | None => throw (newError ("ENOENT: no such file or directory, open '"
                             ++ path ++ "'"))
  end.

Definition postToTikTok (user : User) (content : Content)
    (options : Options) : M PostResult :=
  try_catch
    (tt ← account (tiktok user) "connected";
     if negb (connected tt)
     then throw (newError "TikTok account not connected")
     else if missing (accessToken tt)
     then throw (newError "TikTok access token missing")
     else
       let accessToken := of_opt (accessToken tt) in
       (* TikTok only supports video content *)
       if negb (String.eqb (mediaType content) "video")
       then throw (newError "TikTok only supports video content")
       else
         (* Step 1: Initialize video upload *)
         initResponse ← axios_post (tiktokApi ++ "video/init/")
           (JObj [("post_info", JObj
                     [("title", js_or (of_opt (o_caption options))
                                  (js_or (of_opt (c_caption content))
                                         (of_opt (c_title content))));
                      ("privacy_level", js_or (of_opt (privacyLevel options))
                                              (JStr "MUTUAL_FOLLOW_FRIENDS"));
                      ("disable_duet", flag (disableDuet options));
                      ("disable_comment", flag (disableComment options));
                      ("disable_stitch", flag (disableStitch options));
                      ("video_cover_timestamp_ms", JNum 1000)]);
                  ("source_info", JObj
                     [("source", JStr "FILE_UPLOAD");
                      ("video_size", JNum (default 0%Z (fileSize content)));
                      ("chunk_size", JNum 10000000);
                      ("total_chunk_count", JNum 1)])])
           (bearer accessToken);
         data ← prop initResponse "data";
         publishId ← prop data "publish_id";
         data ← prop initResponse "data";
         uploadUrl ← prop data "upload_url";
         (* Step 2: Upload video file *)
         videoBuffer ← readFile (mediaUrl content);
         axios_put (template uploadUrl) (JStr videoBuffer)
           [("Content-Type", "video/mp4");
            ("Content-Length", pretty (String.length videoBuffer))];;
         (* Step 3: Check publish status *)
         publishComplete ← ttPoll ttMaxAttempts publishId accessToken;
         if negb publishComplete
         then throw (newError "TikTok publish timeout")
         else
           timestamp ← newDate;
           mret (mkPostResult true "tiktok" publishId
                   (JStr ("https://www.tiktok.com/@"
                          ++ template (of_opt (username tt))
                          ++ "/video/" ++ template publishId))
                   timestamp))
    (λ error, throw (newError ("TikTok posting failed: " ++ describe error))).

(** ** Both platforms *)

(** What a publish returns: one platform's post, or the aggregate
    [{ instagram, tiktok, errors }] whose platform fields hold what the
    platform's publish returned, or [null]. *)
#[warnings="-register-all"]
Inductive PublishResult :=
| Single (r : PostResult)
| Both (instagram tiktok : option PublishResult)
       (errors : list (string * string)).

Definition res_instagram (r : PublishResult) : option PublishResult :=
  match r with Both i _ _ => i | Single _ => None end.
Definition res_tiktok (r : PublishResult) : option PublishResult :=
  match r with Both _ t _ => t | Single _ => None end.
Definition res_errors (r : PublishResult) : list (string * string) :=
  match r with Both _ _ e => e | Single _ => [] end.

Definition set_instagram (v : PublishResult) (r : PublishResult) : PublishResult :=
  Both (Some v) (res_tiktok r) (res_errors r).
Definition set_tiktok (v : PublishResult) (r : PublishResult) : PublishResult :=
  Both (res_instagram r) (Some v) (res_errors r).
(** [results.errors.push({ platform, error: error.message })] *)
Definition push_error (platformName : string) (error : Error)
    (r : PublishResult) : PublishResult :=
  Both (res_instagram r) (res_tiktok r)
       (res_errors r ++ [(platformName, message error)]).

Definition noResults : PublishResult := Both None None [].

(** The shape shared by [postToBoth] and [postToBothWithProfile]: one
    [try]/[catch] per platform, Instagram first. *)
Definition bothOf (ig tt : M PublishResult) : M PublishResult :=
  let results := noResults in
  (* Post to Instagram *)
  results ← try_catch (v ← ig; mret (set_instagram v results))
                      (λ error, mret (push_error "instagram" error results));
  (* Post to TikTok *)
  results ← try_catch (v ← tt; mret (set_tiktok v results))
                      (λ error, mret (push_error "tiktok" error results));
  mret results.

Definition postToBoth (user : User) (content : Content) (options : Options)
    : M PublishResult :=
  bothOf (Single <$> postToInstagram user content options)
         (Single <$> postToTikTok user content options).

(** ** Publishing with a profile's credentials *)

Definition getCredentialsForProfile (profileId platformName : string)
    : M (option SocialAccount) :=
  env ← ask;
  match findProfile env profileId with
  | None => mret None
  | Some profile => mret (getEffectiveConnection profile platformName)
  end.

(** [options.platform || content.platform || 'instagram'] *)
Definition platformOf (options : Options) (content : Content) : string :=
  template (js_or (of_opt (o_platform options))
                  (js_or (of_opt (c_platform content)) (JStr "instagram"))).

(** [{ ...options, platform }] *)
Definition withPlatform (platformName : string) (options : Options) : Options :=
  mkOptions (o_caption options) (privacyLevel options) (disableDuet options)
            (disableComment options) (disableStitch options) (Some platformName).

(** [postWithProfile], open in the method it calls for 'both'. *)
Definition postWithProfileVia
    (toBoth : string → Content → Options → M PublishResult)
    (profileId : string) (content : Content) (options : Options)
    : M PublishResult :=
  env ← ask;
  match findProfile env profileId with
  | None => throw (newError "Profile not found")
  | Some _ =>
      let platformName := platformOf options content in
      credentials ← getCredentialsForProfile profileId platformName;
      match credentials with
      | Some credentials =>
          if negb (connected credentials)
          then throw (newError (platformName ++ " is not connected for this profile"))
          else
            (* Create a mock user object with the resolved credentials *)
            let userWithCredentials :=
              mkUser (if String.eqb platformName "instagram"
                      then Some credentials else None)
                     (if String.eqb platformName "tiktok"
                      then Some credentials else None) in
            if String.eqb platformName "instagram"
            then Single <$> postToInstagram userWithCredentials content options
            else if String.eqb platformName "tiktok"
            then Single <$> postToTikTok userWithCredentials content options
            else if String.eqb platformName "both"
            then toBoth profileId content options
            else throw (newError ("Unsupported platform: " ++ platformName))
      | None => throw (newError (platformName ++ " is not connected for this profile"))
      end
  end.

(** [postToBothWithProfile] asks for 'instagram' and for 'tiktok', so
    the 'both' branch of the calls it makes is never taken (lemma
    [postToBothWithProfile_closed] below); the recursion between the
    two methods stops there. *)
Definition postToBothWithProfileVia
    (toBoth : string → Content → Options → M PublishResult)
    (profileId : string) (content : Content) (options : Options)
    : M PublishResult :=
  bothOf (postWithProfileVia toBoth profileId content (withPlatform "instagram" options))
         (postWithProfileVia toBoth profileId content (withPlatform "tiktok" options)).

Definition postToBothWithProfile : string → Content → Options → M PublishResult :=
  postToBothWithProfileVia (λ _ _ _, mret noResults).

Definition postWithProfile : string → Content → Options → M PublishResult :=
  postWithProfileVia postToBothWithProfile.

(** ** Observations on a run *)

Definition is_http (ev : Event) : bool :=
  match ev with EvHttp _ _ => true | EvSleep _ => false end.

(** Transport invocations recorded in a log. *)
Definition httpCalls (l : list Event) : nat :=
  length (filter (λ ev, is_http ev = true) l).

Definition has_param (k v : string) (req : Request) : bool :=
  existsb (λ kv, String.eqb k kv.1 && String.eqb v kv.2) (params req).

(** The status checks of the two protocols. *)
Definition igStatusCheck (req : Request) : bool :=
  match method req with
  | GET => has_param "fields" "status_code" req
  | _ => false
  end.

Definition ttStatusCheck (req : Request) : bool :=
  match method req with
  | POST => String.eqb (url req) (tiktokApi ++ "status/fetch/")
  | _ => false
  end.

Definition is_check (isCheck : Request → bool) (ev : Event) : bool :=
  match ev with
  | EvHttp req _ => isCheck req
  | EvSleep _ => false
  end.

Definition checks (isCheck : Request → bool) (l : list Event) : nat :=
  length (filter (λ ev, is_check isCheck ev = true) l).

(** Milliseconds spent in [setTimeout] waits. *)
Definition slept (l : list Event) : Z :=
  foldr (λ ev acc, match ev with EvSleep ms => ms + acc | _ => acc end)%Z 0%Z l.

(** The events a run appended to the log it started with. *)
Definition eventsOf (w w' : World) : list Event :=
  drop (length (log w)) (log w').

(** Transport invocations made by running [m] from [w]. *)
Definition callsDuring {A} (m : M A) (env : Env) (w : World) : nat :=
  httpCalls (eventsOf w (m env w).2).

(** ** What a status check reads from an answer *)

(** [v.k1.k2...], [None] where the read is a TypeError. *)
Fixpoint readPath (v : json) (path : list string) : option json :=
  match path with
  | [] => Some v
  | k :: rest => if nullish v then None else readPath (field_of v k) rest
  end.

Definition statusAt (path : list string) (resp : Response) : option json :=
  match resp with
  | RespOk data => readPath data path
  | RespErr _ => None
  end.

(** A status that ends the polling neither way. *)
Definition processing (done failed : string) (status : json) : bool :=
  negb (is_str done status) && negb (is_str failed status).

(** The polling protocol of one platform: which requests are status
    checks, where the status sits in the answer, the two terminal
    statuses, the budget. *)
Record Protocol := mkProtocol {
  isCheck     : Request → bool;
  statusPath  : list string;
  doneStatus  : string;
  failStatus  : string;
  maxAttempts : nat;
  pollDelay   : Z
}.

Definition statusOf (p : Protocol) : Response → option json :=
  statusAt (statusPath p).

(** [statusResponse.data.status_code] *)
Definition igProtocol : Protocol :=
  mkProtocol igStatusCheck ["status_code"] "FINISHED" "ERROR"
             igMaxAttempts igPollDelay.

(** [statusResponse.data.data.status] *)
Definition ttProtocol : Protocol :=
  mkProtocol ttStatusCheck ["data"; "status"] "PUBLISH_COMPLETE" "FAILED"
             ttMaxAttempts ttPollDelay.

Definition answers (p : Protocol) (ok : json → bool) (resp : Response) : Prop :=
  ∃ status, statusOf p resp = Some status ∧ ok status = true.

(** A remote that reports a processing status on the first [n] status
    checks it sees and the terminal success status on the next one. *)
Definition processingThenDone (p : Protocol) (n : nat)
    (rem : list Event → Request → Response) : Prop :=
  ∀ h req, isCheck p req = true →
    ((checks (isCheck p) h < n)%nat →
       answers p (processing (doneStatus p) (failStatus p)) (rem h req))
    ∧ (checks (isCheck p) h = n → answers p (is_str (doneStatus p)) (rem h req)).

(** A remote that reports a processing status on every status check. *)
Definition processingForever (p : Protocol)
    (rem : list Event → Request → Response) : Prop :=
  ∀ h req, isCheck p req = true →
    answers p (processing (doneStatus p) (failStatus p)) (rem h req).

(** A remote that accepts every request other than a status check, with
    an object for an answer (holding an object under [data], which the
    TikTok calls read). *)
Definition stepsSucceed (p : Protocol)
    (rem : list Event → Request → Response) : Prop :=
  ∀ h req, isCheck p req = false →
    ∃ fields inner, rem h req = RespOk (JObj fields)
                    ∧ lookup_field "data" fields = JObj inner.

(** ** The shape the two polling loops share

    Both loops wait, fetch a status, stop on the success status, throw on
    the failure status and otherwise go round again while attempts
    remain.  [igPoll] and [ttPoll] are instances (lemmas [igPoll_shape]
    and [ttPoll_shape]). *)

Fixpoint pollUntil (p : Protocol) (fetch : M json) (failure : Error)
    (remaining : nat) : M bool :=
  match remaining with
  | O => mret false
  | S remaining' =>
      sleep (pollDelay p);;
      status ← fetch;
      if is_str (doneStatus p) status then mret true
      else if is_str (failStatus p) status then throw failure
      else pollUntil p fetch failure remaining'
  end.

Definition igStatusRequest (creationId accessToken : json) : Request :=
  mkRequest GET (graph ++ template creationId) JUndefined
    [("fields", "status_code"); ("access_token", template accessToken)] [].

Definition ttStatusRequest (publishId accessToken : json) : Request :=
  mkRequest POST (tiktokApi ++ "status/fetch/")
    (JObj [("publish_id", publishId)]) [] (bearer accessToken).

Definition igFetch (creationId accessToken : json) : M json :=
  statusResponse ← axios (igStatusRequest creationId accessToken);
  prop statusResponse "status_code".

Definition ttFetch (publishId accessToken : json) : M json :=
  statusResponse ← axios (ttStatusRequest publishId accessToken);
  data ← prop statusResponse "data";
  prop data "status".

(** [fetch] sends the status check [req] and yields what the protocol
    reads from the answer, or throws where that read fails. *)
Definition fetches (p : Protocol) (req : Request) (fetch : M json) : Prop :=
  isCheck p req = true
  ∧ ∀ env w,
      match statusOf p (remote env (log w) req) with
      | Some status => fetch env w = (Return status, exchanged env w req)
      | None => ∃ e, fetch env w = (Throw e, exchanged env w req)
      end.

(** ** An event that does not end a publish

    A wait, or an accepted request; for a status check, an answer whose
    status can be read and is not the failure status. *)

Definition clean (p : Protocol) (ev : Event) : bool :=
  match ev with
  | EvSleep _ => true
  | EvHttp _ (RespErr _) => false
  | EvHttp req (RespOk data) =>
      negb (isCheck p req
            && match statusOf p (RespOk data) with
               | Some status =>
                   negb (is_str (doneStatus p) status)
                   && is_str (failStatus p) status
               | None => true
               end)
  end.

(** A run from [w] to [w'] only appended events, all of them clean. *)
Definition ranClean (p : Protocol) (w w' : World) : Prop :=
  ∃ evs : list Event,
    log w' = (log w ++ evs)%list ∧ Forall (λ ev, clean p ev = true) evs.

(** ** Inputs that pass the local checks *)

(** Credentials the Instagram path accepts at the time of the call. *)
Definition instagramReady (w : World) (user : User) (ig : SocialAccount) : Prop :=
  instagram user = Some ig ∧ connected ig = true
  ∧ missing (accessToken ig) = false
  ∧ expired (expiresAt ig) (clock w) = false.

(** Credentials the TikTok path accepts. *)
Definition tiktokConnected (user : User) (tt : SocialAccount) : Prop :=
  tiktok user = Some tt ∧ connected tt = true
  ∧ missing (accessToken tt) = false.

(** Credentials, media kind and file that let a TikTok publish reach the
    remote. *)
Definition tiktokReady (env : Env) (user : User) (content : Content)
    (tt : SocialAccount) (buffer : string) : Prop :=
  tiktok user = Some tt ∧ connected tt = true ∧ missing (accessToken tt) = false
  ∧ mediaType content = "video"
  ∧ readFileSync env (mediaUrl content) = Some buffer.

(** ** What the aggregate of two attempts must be

    [first] is the Instagram attempt, [second] the TikTok attempt; the
    second runs from the world the first one left, whatever the first
    one's outcome. *)
Definition aggregates (both first second : M PublishResult) : Prop :=
  ∀ env w,
    let a := first env w in
    let b := second env a.2 in
    (∀ r e, a.1 = Return r → b.1 = Throw e →
       both env w = (Return (Both (Some r) None [("tiktok", message e)]), b.2))
    ∧ (∀ e r, a.1 = Throw e → b.1 = Return r →
       both env w = (Return (Both None (Some r) [("instagram", message e)]), b.2)).

(** ** Reading an outcome into the aggregate *)

(** The platform field: what the attempt returned, or [null]. *)
Definition attempted (out : Outcome PublishResult) : option PublishResult :=
  match out with Return r => Some r | Throw _ => None end.

(** The [errors] entries the attempt contributes. *)
Definition reported (platformName : string) (out : Outcome PublishResult)
    : list (string * string) :=
  match out with Return _ => [] | Throw e => [(platformName, message e)] end.

(** ** Messages of the credential checks *)

Definition credentialErrors : list string :=
  ["Instagram account not connected";
   "Instagram access token missing";
   "Instagram access token expired. Please reconnect your account.";
   "TikTok posting failed: TikTok account not connected";
   "TikTok posting failed: TikTok access token missing"].

(** ** Test doubles *)

Definition mockAnswer (status : string) : Response :=
  RespOk (JObj [("id", JStr "17900");
                ("permalink", JStr "https://www.instagram.com/p/17900/");
                ("status_code", JStr status);
                ("data", JObj [("publish_id", JStr "v_pub_1");
                               ("upload_url", JStr "https://upload.tiktokapis.com/1");
                               ("status", JStr status)])]).

(** Processing on the first [n] status checks, done from then on;
    everything else accepted. *)
Definition mockRemote (p : Protocol) (n : nat) : list Event → Request → Response :=
  λ h req,
    if isCheck p req
    then if (checks (isCheck p) h <? n)%nat
         then mockAnswer "IN_PROGRESS"
         else mockAnswer (doneStatus p)
    else mockAnswer "".

(** Processing on every status check. *)
Definition stuckRemote (p : Protocol) : list Event → Request → Response :=
  λ h req, mockAnswer "IN_PROGRESS".

(** Every request refused. *)
Definition rejectingRemote : list Event → Request → Response :=
  λ h req, RespErr (mkError "Request failed with status code 401"
                            (Some "Invalid OAuth access token")).

Definition mockEnv (rem : list Event → Request → Response) : Env :=
  mkEnv rem (λ path, Some "video-bytes") None (λ _, None).

Definition freshWorld (now : Z) : World := mkWorld now [].

Definition someAccount (isConnected : bool) (expires : option Z) : SocialAccount :=
  mkAccount isConnected (Some "token") None (Some "u1") (Some "alice") expires.

Definition someUser (isConnected : bool) (expires : option Z) : User :=
  mkUser (Some (someAccount isConnected expires))
         (Some (someAccount isConnected expires)).

Definition someContent (kind : string) : Content :=
  mkContent kind "uploads/clip.mp4" (Some "hello") None (Some 1024%Z) None.

Definition noOptions : Options := mkOptions None None None None None None.

(** ** The cost of a run

    [within n t m]: from any world and against any remote, [m] only
    appends to the log, at most [n] requests and waits of at most [t]
    milliseconds in all. *)
Definition within (n : nat) (t : Z) {A} (m : M A) : Prop :=
  ∀ env w, ∃ evs : list Event,
    log (m env w).2 = (log w ++ evs)%list
    ∧ (httpCalls evs ≤ n)%nat
    ∧ (0 ≤ slept evs ≤ t)%Z.

(** ** Polling that ended in success *)

(** A status check whose answer carries the success status. *)
Definition answeredDone (p : Protocol) (ev : Event) : bool :=
  match ev with
  | EvHttp req resp =>
      isCheck p req
      && match statusOf p resp with
         | Some status => is_str (doneStatus p) status
         | None => false
         end
  | EvSleep _ => false
  end.

(** The events of a polling loop that came to [true] within [n] rounds:
    rounds of one wait and one exchange of the status check [req], the
    last exchange answered with the success status and none before it. *)
Definition polled (p : Protocol) (req : Request) (n : nat)
    (evs : list Event) : Prop :=
  ∃ (resps : list Response) (resp : Response),
    evs = ((resps ≫= λ r, [EvSleep (pollDelay p); EvHttp req r])
           ++ [EvSleep (pollDelay p); EvHttp req resp])%list
    ∧ Forall (λ r, answeredDone p (EvHttp req r) = false) resps
    ∧ answeredDone p (EvHttp req resp) = true
    ∧ (length resps < n)%nat.

(** ** [validateCredentials]

    [{ valid, error, needsRefresh }]; a [needsRefresh] that is not set
    reads as [false]. *)

Record Validation := mkValidation {
  valid        : bool;
  v_error      : option string;
  needsRefresh : bool
}.

Definition validateCredentials (user : User) (platformName : string)
    : M Validation :=
  rejected ←
    (if String.eqb platformName "instagram" || String.eqb platformName "both"
     then
       ig ← account (instagram user) "connected";
       if negb (connected ig)
       then mret (Some (mkValidation false (Some "Instagram not connected") false))
       else
         now ← newDate;
         if expired (expiresAt ig) now
         then mret (Some (mkValidation false (Some "Instagram token expired") true))
         else mret None
     else mret None);
  match rejected with
  | Some rejection => mret rejection
  | None =>
      rejected ←
        (if String.eqb platformName "tiktok" || String.eqb platformName "both"
         then
           tt ← account (tiktok user) "connected";
           if negb (connected tt)
           then mret (Some (mkValidation false (Some "TikTok not connected") false))
           else mret None
         else mret None);
      match rejected with
      | Some rejection => mret rejection
      | None => mret (mkValidation true None false)
      end
  end.

(** An environment without the media file. *)
Definition noFileEnv (rem : list Event → Request → Response) : Env :=
  mkEnv rem (λ path, None) None (λ _, None).

(** ** Messages of the failures that precede every request

    The messages [postToInstagram] throws before it calls a posting
    method, and the one of the method that is not implemented. *)
Definition instagramLocalErrors (content : Content) : list string :=
  ["Cannot read properties of undefined (reading 'connected')";
   "Instagram account not connected";
   "Instagram access token missing";
   "Instagram access token expired. Please reconnect your account.";
   "Carousel posting not yet implemented";
   "Unsupported media type: " ++ mediaType content].

(** A file name: not empty, without a slash. *)
Definition isFileName (name : string) : bool :=
  negb (String.eqb name "")
  && forallb (λ ch, negb (Ascii.eqb ch "/")) (String.list_ascii_of_string name).

End Service.

(* ===================================================================== *)
(** * Part III: properties of the Collection model *)
(* ===================================================================== *)

Section CollectionFacts.

Import Collection.

Implicit Types (c : Collection.t) (now : Z) (cid : string) (op : Op).

(** ** Saving *)

Lemma items_save now c : items (save now c) = items c.
Proof. reflexivity. Qed.

Lemma stats_consistent_save now c : stats_consistent (save now c).
Proof. split; reflexivity. Qed.

Lemma reorderContent_cases cid p now c :
  (list_find (λ item, contentId item = cid) (items c) = None
   ∧ reorderContent cid p now c = c)
  ∨ ∃ c', reorderContent cid p now c = save now c'.
Proof.
  unfold reorderContent.
  destruct (list_find _ (items c)) as [[i item]|]; [right | left]; eauto.
Qed.

Lemma exec_saves_or_skips now op c :
  stats_consistent (exec now op c)
  ∨ (exec now op c = c
     ∧ ∃ cid p, op = OpReorderContent cid p
                ∧ list_find (λ item, contentId item = cid) (items c) = None).
Proof.
  destruct op as [cid pos | cid | cid p | cid pd | ]; simpl;
    try (left; apply stats_consistent_save).
  destruct (reorderContent_cases cid p now c) as [[Hnone Heq] | [c' Heq]].
  - right. split; [exact Heq | eauto].
  - left. rewrite Heq. apply stats_consistent_save.
Qed.

(** The counters stay exact along any history that starts from exact
    counters. *)
Lemma stats_consistent_run ops c :
  stats_consistent c → stats_consistent (run ops c).
Proof.
  revert c. induction ops as [| [now op] ops IH]; intros c Hc; [exact Hc |].
  apply IH.
  destruct (exec_saves_or_skips now op c) as [H | [Heq _]];
    [exact H | cbn; rewrite Heq; exact Hc].
Qed.

(** C7. Every queue operation that mutates the document ends in [save],
    whose hook recomputes the counters: afterwards [stats.postedItems]
    is the number of posted entries and [stats.totalItems] the number
    of entries.  The one call that does not save is [reorderContent]
    naming a content id the queue does not hold, and it leaves the
    document exactly as it was. *)
Theorem stats_recomputed_on_mutation now op c :
  stats_consistent (exec now op c)
  ∨ (exec now op c = c
     ∧ ∃ cid p, op = OpReorderContent cid p
                ∧ list_find (λ item, contentId item = cid) (items c) = None).
Proof. apply exec_saves_or_skips. Qed.

(** ** Order values *)

Lemma contiguous_empty : contiguous empty.
Proof. reflexivity. Qed.

Lemma contiguous_addContent cid pos now c :
  contiguous c → contiguous (addContent cid pos now c).
Proof.
  unfold contiguous, addContent. cbn. intros Hc.
  rewrite fmap_app, length_app, Hc. cbn.
  rewrite seq_app, fmap_app. reflexivity.
Qed.

Lemma contiguous_removeContent cid now c :
  contiguous (removeContent cid now c).
Proof.
  unfold contiguous, removeContent. cbn.
  rewrite fmap_imap, length_imap.
  apply (imap_seq_0 _ Z.of_nat).
Qed.

Lemma contiguous_run ops c :
  Forall (λ step, is_add_or_remove step.2 = true) ops →
  contiguous c → contiguous (run ops c).
Proof.
  intros Hops. revert c.
  induction Hops as [| [now op] ops Hop _ IH]; intros c Hc; [exact Hc |].
  apply IH. destruct op; try discriminate Hop; cbn.
  - by apply contiguous_addContent.
  - apply contiguous_removeContent.
Qed.

(** C8. After any sequence of [addContent] and [removeContent] calls on
    an empty collection the [order] values are 0, 1, ..., n-1 (in
    storage order, hence a contiguous permutation of 0..n-1); and a
    removal renumbers whatever collection it is applied to. *)
Theorem order_contiguous_after_add_remove (ops : list (Z * Op)) :
  Forall (λ step, is_add_or_remove step.2 = true) ops →
  contiguous (run ops empty)
  ∧ ∀ cid now c, contiguous (removeContent cid now c).
Proof.
  intros Hops. split.
  - apply contiguous_run; [exact Hops | exact contiguous_empty].
  - intros. apply contiguous_removeContent.
Qed.

Lemma order_contiguous_after_add_remove_witness :
  contiguous (run [(1, OpAddContent "a" (mkPosition 0 0));
                   (2, OpAddContent "b" (mkPosition 0 1));
                   (3, OpAddContent "c" (mkPosition 0 2));
                   (4, OpRemoveContent "a");
                   (5, OpAddContent "d" (mkPosition 1 0))] empty).
Proof.
  refine (proj1 (order_contiguous_after_add_remove _ _)).
  repeat constructor.
Defined.

(** ** The posted flag *)

Lemma exec_keeps_posted now op c :
  (∀ i item, survivors op c !! i = Some item →
     ∃ item', items (exec now op c) !! i = Some item'
       ∧ contentId item' = contentId item
       ∧ (posted item = true → posted item' = true)
       ∧ (posted item = false → posted item' = true →
          ∃ pd, op = OpMarkAsPosted (contentId item) pd
                ∧ postedAt item' = Some now
                ∧ postId item' = pd_postId pd
                ∧ postUrl item' = pd_postUrl pd))
  ∧ (∀ i item', (length (survivors op c) ≤ i)%nat →
       items (exec now op c) !! i = Some item' → posted item' = false).
Proof.
  destruct op as [cid pos | cid | cid p | cid pd | ]; cbn [exec survivors].
  - (* addContent *)
    unfold addContent; cbn. split.
    + intros i item Hi. exists item.
      rewrite lookup_app_l by (by eapply lookup_lt_Some).
      split_and!; [done | done | done | congruence].
    + intros i item' Hle Hi.
      rewrite lookup_app_r in Hi by done.
      destruct (i - length (items c))%nat; [| done].
      by injection Hi as <-.
  - (* removeContent *)
    unfold removeContent; cbn. split.
    + intros i item Hi. rewrite list_lookup_imap, Hi. cbn.
      eexists; split_and!; [done | done | done | cbn; congruence].
    + intros i item' Hle Hi.
      rewrite list_lookup_imap in Hi.
      by rewrite (lookup_ge_None_2 _ _ Hle) in Hi.
  - (* reorderContent *)
    unfold reorderContent.
    destruct (list_find _ (items c)) as [[i0 item0]|] eqn:Hfind.
    + apply list_find_Some in Hfind as (Hi0 & _ & _). cbn. split.
      * intros i item Hi. destruct (decide (i = i0)) as [-> | Hne].
        -- rewrite list_lookup_insert_eq by (by eapply lookup_lt_Some).
           assert (item0 = item) as -> by congruence.
           eexists; split_and!; [done | done | done | cbn; congruence].
        -- rewrite list_lookup_insert_ne by done.
           exists item; split_and!; [done | done | done | congruence].
      * intros i item' Hle Hi.
        apply lookup_lt_Some in Hi. rewrite length_insert in Hi. lia.
    + split.
      * intros i item Hi. exists item.
        split_and!; [done | done | done | congruence].
      * intros i item' Hle Hi. apply lookup_lt_Some in Hi. lia.
  - (* markAsPosted *)
    unfold markAsPosted.
    destruct (list_find _ (items c)) as [[i0 item0]|] eqn:Hfind.
    + apply list_find_Some in Hfind as (Hi0 & Hcid & _). cbn. split.
      * intros i item Hi. destruct (decide (i = i0)) as [-> | Hne].
        -- rewrite list_lookup_insert_eq by (by eapply lookup_lt_Some).
           assert (item0 = item) as -> by congruence.
           eexists; split_and!; [done | done | done |].
           cbn. intros _ _. exists pd. by rewrite Hcid.
        -- rewrite list_lookup_insert_ne by done.
           exists item; split_and!; [done | done | done | congruence].
      * intros i item' Hle Hi.
        apply lookup_lt_Some in Hi. rewrite length_insert in Hi. lia.
    + cbn. split.
      * intros i item Hi. exists item.
        split_and!; [done | done | done | congruence].
      * intros i item' Hle Hi. apply lookup_lt_Some in Hi. lia.
  - (* save *)
    cbn. split.
    + intros i item Hi. exists item.
      split_and!; [done | done | done | congruence].
    + intros i item' Hle Hi. apply lookup_lt_Some in Hi. lia.
Qed.

(** Along a history without removals an entry keeps its place, and once
    posted it is posted at every later point. *)
Lemma run_keeps_posted ops c i item :
  Forall (λ step, survivors step.2 = items) ops →
  items c !! i = Some item → posted item = true →
  ∃ item', items (run ops c) !! i = Some item'
           ∧ contentId item' = contentId item ∧ posted item' = true.
Proof.
  intros Hops. revert c item.
  induction Hops as [| [now op] ops Hop _ IH]; intros c item Hi Hp; [eauto |].
  cbn in Hop.
  destruct (proj1 (exec_keeps_posted now op c) i item) as (item1 & H1 & Hc1 & Hp1 & _);
    [by rewrite Hop |].
  destruct (IH (exec now op c) item1 H1 (Hp1 Hp)) as (item' & H' & Hc' & Hp').
  exists item'. split_and!; [done | congruence | done].
Qed.



(** ** The next entry to post *)

Lemma contiguous_lookup c i item :
  contiguous c → items c !! i = Some item → order item = Z.of_nat i.
Proof.
  unfold contiguous. intros Hc Hi.
  assert (H : (order <$> items c) !! i = Some (order item))
    by (by rewrite list_lookup_fmap, Hi).
  rewrite Hc, list_lookup_fmap in H.
  rewrite (lookup_seq_lt 0 _ i) in H by (by eapply lookup_lt_Some).
  cbn in H. congruence.
Qed.

(** [getNextItemToPost] returns the first unposted entry in storage
    order, and nothing exactly when every entry is posted. *)
Lemma getNextItemToPost_first c item :
  getNextItemToPost c = Some item ↔
  ∃ i, items c !! i = Some item ∧ posted item = false
       ∧ ∀ j other, items c !! j = Some other → (j < i)%nat → posted other = true.
Proof.
  unfold getNextItemToPost. rewrite fmap_Some. split.
  - intros [[i x] [Hfind ->]].
    apply list_find_Some in Hfind as (Hi & Hp & Hbefore).
    exists i. split_and!; [done | done |].
    intros j other Hj Hlt. specialize (Hbefore j other Hj Hlt).
    by destruct (posted other).
  - intros (i & Hi & Hp & Hbefore). exists (i, item). split; [| done].
    apply list_find_Some. split_and!; [done | done |].
    intros j other Hj Hlt. rewrite (Hbefore j other Hj Hlt). done.
Qed.

Lemma getNextItemToPost_none c :
  getNextItemToPost c = None ↔ ∀ item, item ∈ items c → posted item = true.
Proof.
  unfold getNextItemToPost. rewrite fmap_None, list_find_None, Forall_forall.
  split; intros H item Hin; specialize (H item Hin);
    destruct (posted item); congruence.
Qed.

(** While the [order] values follow the storage order (as they do when
    the queue was only built with [addContent] and [removeContent]),
    the first unposted entry is also the unposted entry of least
    [order]. *)
Lemma getNextItemToPost_least_when_contiguous c item :
  contiguous c → getNextItemToPost c = Some item →
  item ∈ items c ∧ posted item = false
  ∧ ∀ other, other ∈ items c → posted other = false → order item ≤ order other.
Proof.
  intros Hc (i & Hi & Hp & Hbefore)%getNextItemToPost_first.
  split_and!; [by eapply list_elem_of_lookup_2 | done |].
  intros other [j Hj]%list_elem_of_lookup Hpo.
  rewrite (contiguous_lookup c i item Hc Hi), (contiguous_lookup c j other Hc Hj).
  destruct (decide (j < i)%nat) as [Hlt | Hge]; [| lia].
  rewrite (Hbefore j other Hj Hlt) in Hpo. discriminate.
Qed.

(** C6, on the queue whose two entries were added as A then B and then
    dragged into the order B, A: both are unposted, B has the smaller
    [order], and [getNextItemToPost] returns A. *)
Theorem getNextItemToPost_ignores_order :
  items swappedQueue
    = [mkItem idA (mkPosition 0 0) 1 false None None None;
       mkItem idB (mkPosition 0 1) 0 false None None None]
  ∧ getNextItemToPost swappedQueue
    = Some (mkItem idA (mkPosition 0 0) 1 false None None None).
Proof. split; vm_compute; reflexivity. Qed.

(** ** The next due time *)

Lemma startOfDay_next_day tz t :
  startOfDay tz (addDays 1 t) = startOfDay tz t + msPerDay.
Proof.
  unfold startOfDay, addDays.
  replace (t + 1 * msPerDay + tz) with (t + tz + 1 * msPerDay) by lia.
  rewrite Z_mod_plus_full. lia.
Qed.

(** C5, as the code has it.  For a queue with scheduling enabled, a
    start date in the past, a daily interval, no prior post and one
    posting time, [calculateNextPostTime] returns tomorrow at the
    posting time, whether the current time is before or after today's
    posting time; and it returns [null] instead when that moment is
    past the end date. *)
Theorem next_post_time_daily_is_tomorrow tz now start pt c :
  dailyQueue start pt c → start < now →
  (not_after_end c (tomorrowAt tz now pt) →
     calculateNextPostTime tz now c = Some (tomorrowAt tz now pt))
  ∧ (∀ e, endDate (scheduling c) = Some e → e < tomorrowAt tz now pt →
     calculateNextPostTime tz now c = None).
Proof.
  intros (Hen & Hstart & Hint & Hlast & Hpt) Hpast.
  unfold calculateNextPostTime, not_after_end in *.
  rewrite Hen, Hstart, Hint, Hlast, Hpt.
  apply Z.ltb_lt in Hpast. rewrite Hpast.
  assert (Heq : setHours tz (hour pt) (minute pt) (addDays 1 now)
                = tomorrowAt tz now pt).
  { unfold setHours, tomorrowAt, todayAt. rewrite startOfDay_next_day. lia. }
  rewrite Heq. split.
  - intros Hend.
    destruct (endDate (scheduling c)) as [e |]; [| done].
    apply Z.ltb_ge in Hend. by rewrite Hend.
  - intros e -> Hlate. apply Z.ltb_lt in Hlate. by rewrite Hlate.
Qed.

Lemma next_post_time_daily_is_tomorrow_witness :
  calculateNextPostTime 0 eightOnDay10 noonQueue
  = Some (tomorrowAt 0 eightOnDay10 (mkPostingTime 12 0 "UTC"))
  ∧ calculateNextPostTime 0 eightOnDay10 endingQueue = None.
Proof.
  split.
  - apply (next_post_time_daily_is_tomorrow 0 eightOnDay10 0).
    + repeat split.
    + reflexivity.
    + exact I.
  - apply (proj2 (next_post_time_daily_is_tomorrow 0 eightOnDay10 0
                    (mkPostingTime 12 0 "UTC") endingQueue
                    ltac:(repeat split) eq_refl) (11 * msPerDay)).
    + reflexivity.
    + reflexivity.
Defined.

(** C5 as claimed fails before the posting time: at 08:00 the noon
    posting time of the same day is still ahead, yet the due time
    computed is noon of the next day. *)
Lemma next_post_time_not_later_today :
  dailyQueue 0 (mkPostingTime 12 0 "UTC") noonQueue
  ∧ 0 < eightOnDay10
  ∧ eightOnDay10 < todayAt 0 eightOnDay10 (mkPostingTime 12 0 "UTC")
  ∧ calculateNextPostTime 0 eightOnDay10 noonQueue
    ≠ Some (todayAt 0 eightOnDay10 (mkPostingTime 12 0 "UTC"))
  ∧ calculateNextPostTime 0 eightOnDay10 noonQueue
    = Some (11 * msPerDay + 12 * msPerHour).
Proof.
  split_and!; [repeat split | reflexivity | reflexivity | | reflexivity].
  vm_compute. discriminate.
Qed.

End CollectionFacts.

(* ===================================================================== *)
(** * Part III-b: the queue, further *)
(* ===================================================================== *)

Section QueueFacts.

Import Collection.

Implicit Types (c : Collection.t) (now : Z) (cid : string) (op : Op).

(** ** Remaining entries *)

Lemma posted_unposted_length (l : list Item) :
  length l = (length (filter (λ item, posted item = true) l)
              + length (unposted l))%nat.
Proof.
  unfold unposted. induction l as [| x l IH]; [done |].
  rewrite !filter_cons. destruct (posted x) eqn:Hx; repeat case_decide;
    try done; cbn; lia.
Qed.

Lemma unposted_nil_iff (l : list Item) :
  unposted l = [] ↔ ∀ item, item ∈ l → posted item = true.
Proof.
  unfold unposted. induction l as [| x l IH].
  - split; [intros _ item Hin; by apply elem_of_nil in Hin | done].
  - rewrite filter_cons. destruct (posted x) eqn:Hx; case_decide; try done.
    + rewrite IH. split.
      * intros Hall item [-> | Hin]%elem_of_cons; auto.
      * intros Hall item Hin. apply Hall. by right.
    + split; [done |]. intros Hall.
      specialize (Hall x (list_elem_of_here _ _)). congruence.
Qed.

(** X1.  On a saved document the virtual [remainingItems] is the number of
    entries not yet posted, and it is zero exactly when there is no next
    item to post. *)
Theorem remainingItems_counts_unposted c :
  stats_consistent c →
  remainingItems c = Z.of_nat (length (unposted (items c)))
  ∧ (remainingItems c = 0 ↔ getNextItemToPost c = None).
Proof.
  intros [Hposted Htotal].
  assert (Hrem : remainingItems c = Z.of_nat (length (unposted (items c)))).
  { unfold remainingItems. rewrite Hposted, Htotal.
    rewrite (posted_unposted_length (items c)) at 1. lia. }
  split; [done |].
  rewrite Hrem, getNextItemToPost_none, <- unposted_nil_iff.
  destruct (unposted (items c)); cbn; split; intros; (done || lia).
Qed.

Lemma remainingItems_counts_unposted_witness :
  remainingItems
    (markAsPosted "a" (mkPostData None None) 3
       (run [(1, OpAddContent "a" (mkPosition 0 0));
             (2, OpAddContent "b" (mkPosition 0 1))] empty))
  = Z.of_nat (length (unposted (items
      (markAsPosted "a" (mkPostData None None) 3
         (run [(1, OpAddContent "a" (mkPosition 0 0));
               (2, OpAddContent "b" (mkPosition 0 1))] empty))))).
Proof.
  refine (proj1 (remainingItems_counts_unposted _ _)).
  apply stats_consistent_save.
Defined.

(** ** Adding and removing *)

Lemma filter_all {A} (P : A → Prop) `{∀ x, Decision (P x)} (l : list A) :
  (∀ x, x ∈ l → P x) → filter P l = l.
Proof.
  induction l as [| x l IH]; intros Hall; [done |].
  rewrite filter_cons_True by (apply Hall; left).
  f_equal. apply IH. intros y Hy. apply Hall. by right.
Qed.

Lemma renumber_contiguous (l : list Item) :
  order <$> l = Z.of_nat <$> seq 0 (length l) →
  imap (λ index item, set_order (Z.of_nat index) item) l = l.
Proof.
  intros Hc.
  transitivity (imap (λ _ item, item) l); [| by rewrite (imap_const id), list_fmap_id].
  apply imap_ext. intros i item Hi.
  assert (H : (order <$> l) !! i = Some (order item))
    by (by rewrite list_lookup_fmap, Hi).
  rewrite Hc, list_lookup_fmap in H.
  rewrite (lookup_seq_lt 0 _ i) in H by (by eapply lookup_lt_Some).
  cbn in H. injection H as H. destruct item; cbn in *. by rewrite H.
Qed.

(** X2.  Adding a content id the queue does not hold, in the spelling
    the store prints, and removing it again leaves the queue as a plain
    [save] would: the same entries with the same [order] values. *)
Theorem add_then_remove_restores cid pos now1 now2 c :
  contiguous c →
  canonical cid →
  (∀ item, item ∈ items c → contentId item ≠ cid) →
  removeContent cid now2 (addContent cid pos now1 c) = save now2 c.
Proof.
  intros Hc Hcid Hfresh.
  assert (Hitems : imap (λ index item, set_order (Z.of_nat index) item)
            (filter (λ item, contentId item ≠ cid)
               (items c ++ [mkItem (objectId cid) pos
                                   (Z.of_nat (length (items c)))
                                   false None None None]))
          = items c).
  { rewrite filter_app, (filter_all _ (items c) Hfresh).
    rewrite filter_cons_False by (cbn; rewrite Hcid; auto).
    rewrite filter_nil, app_nil_r.
    by apply renumber_contiguous. }
  unfold removeContent, addContent, save. cbn. rewrite Hitems. reflexivity.
Qed.

Lemma add_then_remove_restores_witness :
  removeContent idB 3 (addContent idB (mkPosition 0 1) 2
    (run [(1, OpAddContent idA (mkPosition 0 0))] empty))
  = save 3 (run [(1, OpAddContent idA (mkPosition 0 0))] empty).
Proof.
  apply add_then_remove_restores.
  - apply contiguous_run; [repeat constructor | apply contiguous_empty].
  - reflexivity.
  - intros item Hin. cbn in Hin. apply list_elem_of_singleton in Hin as ->.
    discriminate.
Defined.

(** ** Draining the queue *)

Lemma list_find_unique {A B} `{EqDecision B} (f : A → B) (l : list A) i x :
  NoDup (f <$> l) → l !! i = Some x →
  list_find (λ y, f y = f x) l = Some (i, x).
Proof.
  intros Hnd Hi. apply list_find_Some. split_and!; [done | done |].
  intros j y Hj Hlt Heq.
  assert (j = i); [| lia].
  eapply (NoDup_lookup (f <$> l)); [done | |].
  - by rewrite list_lookup_fmap, Hj.
  - by rewrite list_lookup_fmap, Hi, Heq.
Qed.

Lemma unposted_prefix_posted (l : list Item) :
  (∀ item, item ∈ l → posted item = true) → unposted l = [].
Proof. apply unposted_nil_iff. Qed.

(** X3.  In a queue that holds each content id once, marking the next item
    as posted takes exactly that entry out of the entries still to post:
    what remains to post is the rest, in the same order, and the posted
    counter goes up by one. *)
Theorem markAsPosted_advances_queue c item pd now :
  NoDup (contentId <$> items c) →
  getNextItemToPost c = Some item →
  unposted (items (markAsPosted (contentId item) pd now c))
  = tail (unposted (items c))
  ∧ postedItems (stats (markAsPosted (contentId item) pd now c))
    = S (length (filter (λ entry, posted entry = true) (items c))).
Proof.
  intros Hnd (i & Hi & Hp & Hbefore)%getNextItemToPost_first.
  set (item' := mkItem (contentId item) (position item) (order item) true
                       (Some now) (pd_postId pd) (pd_postUrl pd)).
  assert (Hitems : items (markAsPosted (contentId item) pd now c)
                   = <[i := item']> (items c)).
  { unfold markAsPosted.
    by rewrite (list_find_unique contentId (items c) i item Hnd Hi). }
  assert (Hsplit : items c = take i (items c) ++ item :: drop (S i) (items c))
    by (by rewrite take_drop_middle).
  assert (Hpre : ∀ x, x ∈ take i (items c) → posted x = true).
  { intros x [j Hj]%list_elem_of_lookup.
    assert (j < i)%nat.
    { apply lookup_lt_Some in Hj. rewrite length_take in Hj. lia. }
    rewrite lookup_take_lt in Hj by done. eauto. }
  assert (Hunposted : unposted (items c) = item :: unposted (drop (S i) (items c))).
  { rewrite Hsplit at 1. unfold unposted at 1.
    rewrite filter_app. fold (unposted (take i (items c))).
    rewrite (unposted_prefix_posted _ Hpre), app_nil_l.
    by rewrite filter_cons_True. }
  assert (Hunposted' : unposted (<[i := item']> (items c))
                       = unposted (drop (S i) (items c))).
  { rewrite insert_take_drop by (by eapply lookup_lt_Some).
    unfold unposted at 1.
    rewrite filter_app. fold (unposted (take i (items c))).
    rewrite (unposted_prefix_posted _ Hpre), app_nil_l.
    by rewrite filter_cons_False. }
  split.
  - by rewrite Hitems, Hunposted', Hunposted.
  - assert (Hsaved : stats_consistent (markAsPosted (contentId item) pd now c))
      by apply stats_consistent_save.
    destruct Hsaved as [Hposted _]. rewrite Hposted, Hitems.
    pose proof (posted_unposted_length (items c)) as H1.
    pose proof (posted_unposted_length (<[i := item']> (items c))) as H2.
    rewrite length_insert, Hunposted' in H2. rewrite Hunposted in H1.
    cbn in H1. lia.
Qed.

Lemma markAsPosted_advances_queue_witness :
  unposted (items (markAsPosted "a" (mkPostData None None) 3
     (run [(1, OpAddContent "a" (mkPosition 0 0));
           (2, OpAddContent "b" (mkPosition 0 1))] empty)))
  = tail (unposted (items
     (run [(1, OpAddContent "a" (mkPosition 0 0));
           (2, OpAddContent "b" (mkPosition 0 1))] empty))).
Proof.
  refine (proj1 (markAsPosted_advances_queue
                   (run [(1, OpAddContent "a" (mkPosition 0 0));
                         (2, OpAddContent "b" (mkPosition 0 1))] empty)
                   (mkItem "a" (mkPosition 0 0) 0 false None None None)
                   (mkPostData None None) 3 _ _)).
  - cbn. repeat constructor; rewrite ?elem_of_cons, ?elem_of_nil;
      intros H; repeat destruct H as [H | H]; try discriminate; done.
  - reflexivity.
Defined.

(** ** The next due time, in general *)

(** X4.  A due time is computed only for an enabled schedule with a start
    date, and never lies after the end date. *)
Theorem calculateNextPostTime_respects_end tz now c time :
  calculateNextPostTime tz now c = Some time →
  enabled (scheduling c) = true
  ∧ is_Some (startDate (scheduling c))
  ∧ not_after_end c time.
Proof.
  unfold calculateNextPostTime, not_after_end.
  destruct (enabled (scheduling c)); [| done].
  destruct (startDate (scheduling c)) as [start |]; [| done].
  intros H. split_and!; [done | done |].
  destruct (endDate (scheduling c)) as [e |]; [| done].
  destruct (e <? _) eqn:He; [done |].
  injection H as <-. by apply Z.ltb_ge.
Qed.

Lemma calculateNextPostTime_respects_end_witness :
  enabled (scheduling noonQueue) = true
  ∧ is_Some (startDate (scheduling noonQueue))
  ∧ not_after_end noonQueue (11 * msPerDay + 12 * msPerHour).
Proof.
  apply (calculateNextPostTime_respects_end 0 eightOnDay10). reflexivity.
Defined.

Lemma startOfDay_add_days tz k t :
  startOfDay tz (addDays k t) = startOfDay tz t + k * msPerDay.
Proof.
  unfold startOfDay, addDays.
  replace (t + k * msPerDay + tz) with (t + tz + k * msPerDay) by lia.
  rewrite Z_mod_plus_full. lia.
Qed.

Lemma startOfDay_le tz t : startOfDay tz t ≤ t < startOfDay tz t + msPerDay.
Proof.
  unfold startOfDay.
  pose proof (Z.mod_pos_bound (t + tz) msPerDay eq_refl). lia.
Qed.

(** X5.  For the day-based intervals (daily, every other day, weekly) with a
    posting time configured, the due time lies [k] local days after the
    day of the anchor, at the first posting time; with a posting time
    whose hour and minute are not negative it is strictly later than the
    anchor. *)
Theorem next_post_time_day_intervals tz now start k pt rest c :
  enabled (scheduling c) = true →
  startDate (scheduling c) = Some start →
  intervalDays (interval (scheduling c)) = Some k →
  postingTimes (scheduling c) = pt :: rest →
  not_after_end c (startOfDay tz (anchor now start c) + k * msPerDay
                   + hour pt * msPerHour + minute pt * msPerMinute) →
  calculateNextPostTime tz now c
  = Some (startOfDay tz (anchor now start c) + k * msPerDay
          + hour pt * msPerHour + minute pt * msPerMinute)
  ∧ (0 ≤ hour pt → 0 ≤ minute pt →
     anchor now start c
     < startOfDay tz (anchor now start c) + k * msPerDay
       + hour pt * msPerHour + minute pt * msPerMinute).
Proof.
  intros Hen Hstart Hk Hpt Hend. split.
  - unfold calculateNextPostTime, not_after_end, anchor in *.
    rewrite Hen, Hstart, Hpt.
    destruct (start <? now), (lastPostedAt (stats c)) as [last |];
      cbn [default from_option id] in *;
      destruct (interval (scheduling c)); cbn in Hk; try discriminate;
      injection Hk as <-;
      unfold setHours; rewrite startOfDay_add_days;
      (destruct (endDate (scheduling c)) as [e |]; [| done]);
      apply Z.ltb_ge in Hend; by rewrite Hend.
  - intros Hh Hm.
    pose proof (startOfDay_le tz (anchor now start c)).
    assert (1 ≤ k)
      by (destruct (interval (scheduling c)); cbn in Hk;
          try discriminate; injection Hk; lia).
    unfold msPerDay, msPerHour, msPerMinute in *. nia.
Qed.

Lemma next_post_time_day_intervals_witness :
  calculateNextPostTime 0 eightOnDay10 weeklyQueue
  = Some (startOfDay 0 (anchor eightOnDay10 0 weeklyQueue) + 7 * msPerDay
          + hour (mkPostingTime 18 15 "UTC") * msPerHour
          + minute (mkPostingTime 18 15 "UTC") * msPerMinute)
  ∧ (0 ≤ hour (mkPostingTime 18 15 "UTC") →
     0 ≤ minute (mkPostingTime 18 15 "UTC") →
     anchor eightOnDay10 0 weeklyQueue
     < startOfDay 0 (anchor eightOnDay10 0 weeklyQueue) + 7 * msPerDay
       + hour (mkPostingTime 18 15 "UTC") * msPerHour
       + minute (mkPostingTime 18 15 "UTC") * msPerMinute).
Proof.
  apply (next_post_time_day_intervals 0 eightOnDay10 0 7
           (mkPostingTime 18 15 "UTC") [] weeklyQueue); reflexivity.
Defined.

(** X6.  On the custom interval without posting times the due time is the
    anchor plus the configured hours, and the anchor itself when no
    hours (or zero hours) are configured; a queue whose start date has
    passed, with nothing posted yet and no positive number of hours, is
    due at once. *)
Theorem next_post_time_custom_interval tz now start c :
  enabled (scheduling c) = true →
  startDate (scheduling c) = Some start →
  interval (scheduling c) = custom →
  postingTimes (scheduling c) = [] →
  not_after_end c (anchor now start c
                   + default 0 (customIntervalHours (scheduling c)) * msPerHour) →
  calculateNextPostTime tz now c
  = Some (anchor now start c
          + default 0 (customIntervalHours (scheduling c)) * msPerHour)
  ∧ (start < now → lastPostedAt (stats c) = None →
     default 0 (customIntervalHours (scheduling c)) ≤ 0 →
     ∃ due, calculateNextPostTime tz now c = Some due ∧ due ≤ now).
Proof.
  intros Hen Hstart Hint Hpt Hend.
  assert (Hcalc : calculateNextPostTime tz now c
                  = Some (anchor now start c
                          + default 0 (customIntervalHours (scheduling c))
                            * msPerHour)).
  { unfold calculateNextPostTime, not_after_end, anchor, addHours in *.
    rewrite Hen, Hstart, Hint, Hpt.
    destruct (start <? now), (lastPostedAt (stats c)) as [last |],
      (customIntervalHours (scheduling c)) as [n |];
      cbn [default from_option id] in *;
      try (destruct (Z.eqb_spec n 0) as [-> | Hn]);
      rewrite ?Z.mul_0_l, ?Z.add_0_r in *;
      (destruct (endDate (scheduling c)) as [e |]; [| done]);
      apply Z.ltb_ge in Hend; by rewrite Hend. }
  split; [done |]. intros Hpast Hlast Hhours.
  eexists. split; [exact Hcalc |].
  unfold anchor. apply Z.ltb_lt in Hpast. rewrite Hpast, Hlast.
  cbn [default from_option id]. unfold msPerHour. lia.
Qed.

Lemma next_post_time_custom_interval_witness :
  calculateNextPostTime 0 eightOnDay10 customQueue
  = Some (anchor eightOnDay10 0 customQueue
          + default 0 (customIntervalHours (scheduling customQueue)) * msPerHour)
  ∧ (0 < eightOnDay10 → lastPostedAt (stats customQueue) = None →
     default 0 (customIntervalHours (scheduling customQueue)) ≤ 0 →
     ∃ due, calculateNextPostTime 0 eightOnDay10 customQueue = Some due
            ∧ due ≤ eightOnDay10).
Proof.
  apply (next_post_time_custom_interval 0 eightOnDay10 0 customQueue);
    reflexivity.
Defined.

(** ** Posting and the schedule *)

Lemma markAsPosted_schedule cid pd now c :
  scheduling (markAsPosted cid pd now c) = scheduling c
  ∧ lastPostedAt (stats (markAsPosted cid pd now c))
    = match list_find (λ item, contentId item = cid) (items c) with
      | Some _ => Some now
      | None => lastPostedAt (stats c)
      end.
Proof.
  unfold markAsPosted.
  by destruct (list_find _ (items c)) as [[i item] |].
Qed.

Lemma calculateNextPostTime_reads c c' tz now :
  scheduling c' = scheduling c →
  lastPostedAt (stats c') = lastPostedAt (stats c) →
  calculateNextPostTime tz now c' = calculateNextPostTime tz now c.
Proof. unfold calculateNextPostTime. by intros -> ->. Qed.

(** X26.  Marking an entry as posted moves the anchor of the schedule to the
    posting time: once the start date has passed, the next due time of a
    day-based interval is counted from the day of the post, whatever was
    posted before.  Marking a content id the queue does not hold leaves
    the due time as it was. *)
Theorem posting_moves_the_anchor tz posted_at now start k pt rest cid pd c :
  enabled (scheduling c) = true →
  startDate (scheduling c) = Some start →
  start < now →
  intervalDays (interval (scheduling c)) = Some k →
  postingTimes (scheduling c) = pt :: rest →
  not_after_end c (startOfDay tz posted_at + k * msPerDay
                   + hour pt * msPerHour + minute pt * msPerMinute) →
  (cid ∈ contentId <$> items c →
     calculateNextPostTime tz now (markAsPosted cid pd posted_at c)
     = Some (startOfDay tz posted_at + k * msPerDay
             + hour pt * msPerHour + minute pt * msPerMinute))
  ∧ (cid ∉ contentId <$> items c →
     calculateNextPostTime tz now (markAsPosted cid pd posted_at c)
     = calculateNextPostTime tz now c).
Proof.
  intros Hen Hstart Hpast Hk Hpt Hend.
  destruct (markAsPosted_schedule cid pd posted_at c) as [Hsch Hlast].
  split.
  - intros Hin.
    destruct (list_find _ (items c)) as [found |] eqn:Hfind.
    2:{ apply list_elem_of_fmap in Hin as (item & -> & Hitem).
        apply list_find_None in Hfind. exfalso.
        by apply (proj1 (Forall_forall _ _) Hfind item Hitem). }
    unfold calculateNextPostTime, not_after_end in *.
    rewrite Hsch, Hlast, Hen, Hstart, Hpt.
    apply Z.ltb_lt in Hpast. rewrite Hpast.
    destruct (interval (scheduling c)); cbn in Hk; try discriminate;
      injection Hk as <-; unfold setHours; rewrite startOfDay_add_days;
      (destruct (endDate (scheduling c)) as [e |]; [| done]);
      apply Z.ltb_ge in Hend; by rewrite Hend.
  - intros Hnot. apply calculateNextPostTime_reads; [done |].
    rewrite Hlast.
    destruct (list_find _ (items c)) as [[i item] |] eqn:Hfind; [| done].
    apply list_find_Some in Hfind as (Hi & <- & _).
    exfalso. apply Hnot, list_elem_of_fmap. exists item.
    split; [done | by eapply list_elem_of_lookup_2].
Qed.

Lemma posting_moves_the_anchor_witness :
  ("a" ∈ contentId <$> items weeklyQueueOfOne →
     calculateNextPostTime 0 (eightOnDay10 + msPerDay)
       (markAsPosted "a" (mkPostData None None) eightOnDay10 weeklyQueueOfOne)
     = Some (startOfDay 0 eightOnDay10 + 7 * msPerDay
             + hour (mkPostingTime 18 15 "UTC") * msPerHour
             + minute (mkPostingTime 18 15 "UTC") * msPerMinute))
  ∧ ("a" ∉ contentId <$> items weeklyQueueOfOne →
     calculateNextPostTime 0 (eightOnDay10 + msPerDay)
       (markAsPosted "a" (mkPostData None None) eightOnDay10 weeklyQueueOfOne)
     = calculateNextPostTime 0 (eightOnDay10 + msPerDay) weeklyQueueOfOne).
Proof.
  apply (posting_moves_the_anchor 0 eightOnDay10 (eightOnDay10 + msPerDay) 0 7
           (mkPostingTime 18 15 "UTC") [] "a" (mkPostData None None)
           weeklyQueueOfOne); reflexivity.
Defined.

End QueueFacts.

(* ===================================================================== *)
(** * Part III-c: properties of the collection controller *)
(* ===================================================================== *)

Section ControllerFacts.

Import Collection Controller.

Implicit Types (db : list Document) (d : Document) (user id cid : string)
  (req : Request) (validates : Document → bool)
  (contentOwner : string → option string).

(** ** Ids *)

Lemma lowerHex_idem ch : lowerHex (lowerHex ch) = lowerHex ch.
Proof. by destruct ch as [[] [] [] [] [] [] [] []]. Qed.

Lemma objectId_canonical id : canonical (objectId id).
Proof.
  unfold canonical. induction id as [| ch id IH]; [done |].
  cbn. by rewrite lowerHex_idem, IH.
Qed.

(** ** Looking up, replacing, deleting *)

Lemma findOne_Some id user db i d :
  findOne id user db = Some (i, d) →
  db !! i = Some d ∧ _id d = objectId id ∧ userId d = user.
Proof.
  unfold findOne. intros (Hi & [Hid Hu] & _)%list_find_Some. done.
Qed.

Lemma findOne_None id user db :
  (∀ d, d ∈ db → _id d = objectId id → userId d ≠ user) →
  findOne id user db = None.
Proof.
  intros Hno. unfold findOne. apply list_find_None, Forall_forall.
  intros d Hin [Hid Hu]. by apply (Hno d).
Qed.

Lemma filter_insert_out {A} (P : A → Prop) `{∀ x, Decision (P x)}
    (l : list A) i x y :
  l !! i = Some x → ¬ P x → ¬ P y → filter P (<[i := y]> l) = filter P l.
Proof.
  intros Hi Hx Hy.
  rewrite insert_take_drop by (by eapply lookup_lt_Some).
  rewrite <- (take_drop_middle l i x Hi) at 3.
  by rewrite !filter_app, !filter_cons_False.
Qed.

Lemma filter_delete_out {A} (P : A → Prop) `{∀ x, Decision (P x)}
    (l : list A) i x :
  l !! i = Some x → ¬ P x → filter P (delete i l) = filter P l.
Proof.
  intros Hi Hx. rewrite delete_take_drop.
  rewrite <- (take_drop_middle l i x Hi) at 3.
  by rewrite !filter_app, filter_cons_False.
Qed.

Lemma filter_snoc_out {A} (P : A → Prop) `{∀ x, Decision (P x)}
    (l : list A) y :
  ¬ P y → filter P (l ++ [y]) = filter P l.
Proof.
  intros Hy. by rewrite filter_app, filter_cons_False, filter_nil, app_nil_r.
Qed.

(** Case analysis on the path a handler takes for the collection it
    names. *)
Ltac handler :=
  repeat match goal with
         | |- context [if ?b then _ else _] => destruct b eqn:?
         | |- context [match findOne ?id ?user ?db with _ => _ end] =>
             let i := fresh "i" in
             let d := fresh "found" in
             let H := fresh "Hfind" in
             destruct (findOne id user db) as [[i d] |] eqn:H;
             [apply findOne_Some in H as (? & ? & ?) |]
         end; cbn [fst snd code].

Ltac handlers :=
  cbn [handle];
  unfold createCollection, updateCollection, deleteCollection,
    Controller.addContent, Controller.removeContent,
    Controller.reorderContent, duplicateCollection, previewCollection.

Lemma applyUpdates_owner updates d :
  userId (applyUpdates updates d) = userId d
  ∧ _id (applyUpdates updates d) = _id d
  ∧ items (doc (applyUpdates updates d)) = items (doc d)
  ∧ stats (doc (applyUpdates updates d)) = stats (doc d).
Proof.
  unfold applyUpdates.
  by destruct (new_gridConfig updates), (new_scheduling updates),
    (new_status updates), (new_settings updates).
Qed.

(** ** Ownership *)

(** X7.  No request of a user changes, moves or removes a document of another
    user. *)
Theorem handlers_keep_other_users_documents
    validates tz contentOwner user now req db :
  othersOf user (handle validates tz contentOwner user now req db).2
  = othersOf user db.
Proof.
  unfold othersOf.
  destruct req; handlers; handler; try done;
    first [ eapply filter_insert_out; [eassumption | cbn; auto ..]
          | eapply filter_delete_out; [eassumption | cbn; auto]
          | apply filter_snoc_out; cbn; auto
          | idtac ];
    try destruct (status (applyUpdates _ _));
    cbn; rewrite (proj1 (applyUpdates_owner _ _)); auto.
Qed.

(** X8.  A request that names a collection the user does not own (or that
    does not exist) is answered 400 or 404 and changes nothing. *)
Theorem foreign_collection_is_out_of_reach
    validates tz contentOwner user now req id db :
  target req = Some id →
  (∀ d, d ∈ db → _id d = objectId id → userId d ≠ user) →
  (handle validates tz contentOwner user now req db).2 = db
  ∧ (code (handle validates tz contentOwner user now req db).1 = 400%nat
     ∨ code (handle validates tz contentOwner user now req db).1 = 404%nat).
Proof.
  intros Htarget Hforeign. apply findOne_None in Hforeign.
  destruct req; cbn in Htarget; try discriminate; injection Htarget as ->;
    handlers; rewrite Hforeign;
    repeat match goal with
           | |- context [if ?b then _ else _] => destruct b
           end; cbn; auto.
Qed.

Lemma foreign_collection_is_out_of_reach_witness :
  (handle accepting 0 contentStore alice 4 (ReqDelete reel) sampleStore).2
  = sampleStore
  ∧ (code (handle accepting 0 contentStore alice 4 (ReqDelete reel)
                  sampleStore).1 = 400%nat
     ∨ code (handle accepting 0 contentStore alice 4 (ReqDelete reel)
                    sampleStore).1 = 404%nat).
Proof.
  apply (foreign_collection_is_out_of_reach accepting 0 contentStore alice 4
           (ReqDelete reel) reel sampleStore); [reflexivity |].
  intros d Hin Hid.
  apply elem_of_cons in Hin as [-> | Hin]; [discriminate Hid |].
  apply list_elem_of_singleton in Hin as ->. discriminate.
Defined.

(** ** What every stored document keeps *)

Lemma applyUpdate_contentIds c update :
  contentId <$> items (applyUpdate c update) = contentId <$> items c.
Proof.
  unfold applyUpdate.
  destruct (list_find _ (items c)) as [[i item] |] eqn:Hfind; [| done].
  apply list_find_Some in Hfind as (Hi & _ & _). cbn.
  rewrite list_fmap_insert.
  apply list_insert_id. rewrite list_lookup_fmap, Hi. cbn.
  by destruct (u_position update), (u_order update).
Qed.

Lemma applyUpdates_contentIds c updates :
  contentId <$> items (foldl applyUpdate c updates) = contentId <$> items c.
Proof.
  revert c. induction updates as [| u updates IH]; intros c; [done |].
  cbn. by rewrite IH, applyUpdate_contentIds.
Qed.

Lemma renumbered_contentIds (l : list Item) :
  contentId <$> imap (λ index item, set_order (Z.of_nat index) item) l
  = contentId <$> l.
Proof.
  rewrite fmap_imap.
  by rewrite (imap_ext _ (λ _, contentId) l), (imap_const contentId).
Qed.

Lemma removeContent_contentIds cid now c :
  contentId <$> items (Collection.removeContent cid now c)
  = filter (λ x, x ≠ cid) (contentId <$> items c).
Proof.
  unfold Collection.removeContent. cbn. rewrite renumbered_contentIds.
  induction (items c) as [| item l IH]; [done |].
  rewrite fmap_cons, !filter_cons.
  case_decide; rewrite ?fmap_cons; by rewrite IH.
Qed.

Lemma existsb_contentId cid (l : list Item) :
  existsb (λ item, String.eqb (contentId item) cid) l = false ↔
  cid ∉ contentId <$> l.
Proof.
  induction l as [| item l IH]; cbn.
  - split; [intros _ Hin; by apply elem_of_nil in Hin | done].
  - rewrite orb_false_iff, IH, not_elem_of_cons.
    destruct (String.eqb_spec (contentId item) cid); cbn; intuition congruence.
Qed.

Lemma canonical_ids d :
  Forall (λ item, canonical (contentId item)) (items (doc d))
  ↔ Forall canonical (idsOf d).
Proof. unfold idsOf. by rewrite Forall_fmap. Qed.

Lemma handle_ids validates tz contentOwner user now req db :
  let db' := (handle validates tz contentOwner user now req db).2 in
  db' = db
  ∨ (∃ i d d', db !! i = Some d ∧ db' = <[i := d']> db
               ∧ stats_consistent (doc d')
               ∧ idsStep req (idsOf d) (idsOf d'))
  ∨ (∃ i, db' = delete i db)
  ∨ (∃ d', db' = db ++ [d'] ∧ stats_consistent (doc d')
           ∧ (idsOf d' = [] ∨ ∃ d, d ∈ db ∧ idsOf d' = idsOf d)).
Proof.
  destruct req; handlers; handler; auto.
  - (* create *)
    right; right; right. eexists. split_and!; [done | | by left].
    apply stats_consistent_save.
  - (* update, scheduling enabled *)
    right; left. eexists _, _, _. split_and!; [eassumption | done | |].
    + apply stats_consistent_save.
    + apply ids_kept. unfold idsOf.
      cbn -[applyUpdates save calculateNextPostTime].
      destruct (status (applyUpdates _ _)); cbn -[applyUpdates];
        by rewrite (proj1 (proj2 (proj2 (applyUpdates_owner _ _)))).
  - (* update, scheduling not enabled *)
    right; left. eexists _, _, _. split_and!; [eassumption | done | |].
    + apply stats_consistent_save.
    + apply ids_kept. unfold idsOf. cbn -[applyUpdates].
      by rewrite (proj1 (proj2 (proj2 (applyUpdates_owner _ _)))).
  - (* delete *)
    right; right; left. by eexists.
  - (* addContent *)
    right; left. eexists _, _, _. split_and!; [eassumption | done | |].
    + apply stats_consistent_save.
    + eapply ids_added; [done | by apply existsb_contentId |].
      unfold idsOf. cbn. by rewrite fmap_app.
  - (* removeContent *)
    right; left. eexists _, _, _. split_and!; [eassumption | done | |].
    + apply stats_consistent_save.
    + eapply ids_removed. unfold idsOf.
      cbn [doc set_doc]. apply removeContent_contentIds.
  - (* reorderContent *)
    right; left. eexists _, _, _. split_and!; [eassumption | done | |].
    + apply stats_consistent_save.
    + apply ids_kept. unfold idsOf. cbn [doc set_doc].
      change (items (save ?n ?c)) with (items c).
      apply applyUpdates_contentIds.
  - (* duplicate *)
    right; right; right. eexists. split_and!; [done | |].
    + apply stats_consistent_save.
    + right. eexists. split; [by eapply list_elem_of_lookup_2 |].
      unfold idsOf. cbn. by rewrite <- list_fmap_compose.
Qed.

Lemma handle_ids_invariant (P : list string → Prop)
    validates tz contentOwner user now req db :
  P [] →
  (∀ old new, P old → idsStep req old new → P new) →
  Forall (λ d, P (idsOf d)) db →
  Forall (λ d, P (idsOf d))
         (handle validates tz contentOwner user now req db).2.
Proof.
  intros Hnil Hstep Hdb.
  destruct (handle_ids validates tz contentOwner user now req db)
    as [-> | [(i & d & d' & Hi & -> & _ & Hids)
           | [[i ->] | (d' & -> & _ & Hids)]]].
  - done.
  - apply Forall_insert; [done |].
    eapply Hstep; [| done]. by eapply (Forall_lookup_1 _ _ _ _ Hdb).
  - by apply Forall_delete.
  - apply Forall_app. split; [done |]. apply Forall_singleton.
    destruct Hids as [-> | (d & Hin & ->)]; [done |].
    rewrite Forall_forall in Hdb. by apply Hdb.
Qed.

Lemma handle_stats validates tz contentOwner user now req db :
  Forall (λ d, stats_consistent (doc d)) db →
  Forall (λ d, stats_consistent (doc d))
         (handle validates tz contentOwner user now req db).2.
Proof.
  intros Hdb.
  destruct (handle_ids validates tz contentOwner user now req db)
    as [-> | [(i & d & d' & Hi & -> & Hs & _)
           | [[i ->] | (d' & -> & Hs & _)]]].
  - done.
  - by apply Forall_insert.
  - by apply Forall_delete.
  - apply Forall_app. split; [done |]. by apply Forall_singleton.
Qed.

(** X9.  Every handler keeps the stored documents well formed: exact counters
    and content ids in the form the store prints them. *)
Theorem handlers_keep_documents_well_formed
    validates tz contentOwner user now req db :
  Forall wellFormed db →
  Forall wellFormed (handle validates tz contentOwner user now req db).2.
Proof.
  unfold wellFormed. rewrite !Forall_and. intros [Hstats Hids]. split.
  - by apply handle_stats.
  - eapply Forall_impl;
      [apply (handle_ids_invariant (Forall canonical)) | intros d; apply canonical_ids].
    + constructor.
    + intros old new Hold [-> | cid -> | cid _ _ ->]; [done | |].
      * apply Forall_forall. intros x [_ Hx]%list_elem_of_filter.
        by apply (proj1 (Forall_forall _ _) Hold).
      * apply Forall_app. split; [done |].
        apply Forall_singleton, objectId_canonical.
    + eapply Forall_impl; [exact Hids | intros d; apply canonical_ids].
Qed.

Lemma handlers_keep_documents_well_formed_witness :
  Forall wellFormed
    (handle accepting 0 contentStore alice 4
            (ReqAddContent feed photoUpper (mkPosition 0 1)) sampleStore).2.
Proof.
  apply (handlers_keep_documents_well_formed accepting 0 contentStore alice 4
           (ReqAddContent feed photoUpper (mkPosition 0 1)) sampleStore).
  repeat constructor.
Defined.

(** X10.  A collection never comes to hold a content id twice, as long as the
    ids to add are sent in the form the store prints them. *)
Theorem canonical_requests_keep_content_unique
    validates tz contentOwner user now req db :
  (∀ cid, added req = Some cid → canonical cid) →
  Forall (λ d, uniqueContent (doc d)) db →
  Forall (λ d, uniqueContent (doc d))
         (handle validates tz contentOwner user now req db).2.
Proof.
  intros Hcanon.
  apply (handle_ids_invariant (λ ids, NoDup ids)).
  - constructor.
  - intros old new Hold [-> | cid -> | cid Hadded Hnew ->]; [done | |].
    + by apply NoDup_filter.
    + rewrite (Hcanon cid Hadded).
      apply NoDup_app. split_and!; [done | | apply NoDup_singleton].
      by intros x Hx ->%list_elem_of_singleton.
Qed.

Lemma canonical_requests_keep_content_unique_witness :
  Forall (λ d, uniqueContent (doc d))
    (handle accepting 0 contentStore alice 4
            (ReqAddContent feed clip (mkPosition 0 1)) sampleStore).2.
Proof.
  apply (canonical_requests_keep_content_unique accepting 0 contentStore
           alice 4 (ReqAddContent feed clip (mkPosition 0 1)) sampleStore).
  - intros cid [= <-]. reflexivity.
  - repeat constructor. intros Hin. inversion Hin.
Defined.

(** ** The letter case of a content id *)

Lemma isHexDigit_lowerHex ch : isHexDigit (lowerHex ch) = isHexDigit ch.
Proof. by destruct ch as [[] [] [] [] [] [] [] []]. Qed.

Lemma validateObjectId_objectId id :
  validateObjectId (objectId id) = validateObjectId id.
Proof.
  unfold validateObjectId. f_equal.
  - f_equal. induction id as [| ch id IH]; [done |]. cbn. by rewrite IH.
  - induction id as [| ch id IH]; [done |].
    cbn. by rewrite isHexDigit_lowerHex, IH.
Qed.

(** The cast is applied once: an id in the store's spelling is stored
    as it is. *)
Lemma addContent_objectId cid pos now c :
  Collection.addContent (objectId cid) pos now c
  = Collection.addContent cid pos now c.
Proof. unfold Collection.addContent. by rewrite (objectId_canonical cid). Qed.

(** X11.  The check for "Content already in collection" compares the stored
    id with the id as it was sent.  Sent in the stored spelling, content
    that is in the collection is refused; sent in another letter case,
    the same content is added a second time. *)
Theorem letter_case_adds_content_twice
    validates contentOwner user id cid pos now db i d :
  validateObjectId id = true → validateObjectId cid = true →
  findOne id user db = Some (i, d) →
  Forall (λ item, canonical (contentId item)) (items (doc d)) →
  contentOwner (objectId cid) = Some user →
  objectId cid ∈ idsOf d →
  objectId cid ≠ cid →
  validates (set_doc (Collection.addContent (objectId cid) pos now (doc d)) d)
  = true →
  Controller.addContent validates contentOwner user id (objectId cid) pos now db
  = (mkReply 400 (Failure "Content already in collection"), db)
  ∧ ∃ d', Controller.addContent validates contentOwner user id cid pos now db
          = (mkReply 200 (WithCollection "Content added to collection" d'),
             <[i := d']> db)
          ∧ idsOf d' = idsOf d ++ [objectId cid]
          ∧ ¬ uniqueContent (doc d').
Proof.
  intros Hid Hcid Hfind Hcanon Howner Hin Hcase Hvalid.
  unfold Controller.addContent. split.
  - rewrite validateObjectId_objectId, Hid, Hcid, Hfind.
    rewrite (objectId_canonical cid), Howner.
    rewrite bool_decide_eq_true_2 by done. cbn [negb orb].
    destruct (existsb _ _) eqn:Hex; [done |].
    by apply existsb_contentId in Hex.
  - rewrite Hid, Hcid, Hfind, Howner.
    rewrite bool_decide_eq_true_2 by done. cbn [negb orb].
    assert (Hfresh : cid ∉ idsOf d).
    { intros Hraw. apply Hcase.
      apply canonical_ids in Hcanon.
      by apply (proj1 (Forall_forall _ _) Hcanon). }
    apply existsb_contentId in Hfresh.
    rewrite addContent_objectId in Hvalid. rewrite Hfresh, Hvalid.
    eexists. split_and!; [reflexivity | |].
    + unfold idsOf. cbn. by rewrite fmap_app.
    + unfold uniqueContent. cbn. rewrite fmap_app.
      intros Hnd. apply NoDup_app in Hnd as (_ & Hdisjoint & _).
      apply (Hdisjoint _ Hin). by left.
Qed.

Lemma letter_case_adds_content_twice_witness :
  Controller.addContent accepting contentStore alice feed (objectId photoUpper)
                        (mkPosition 0 1) 4 sampleStore
  = (mkReply 400 (Failure "Content already in collection"), sampleStore)
  ∧ ∃ d', Controller.addContent accepting contentStore alice feed photoUpper
                                (mkPosition 0 1) 4 sampleStore
          = (mkReply 200 (WithCollection "Content added to collection" d'),
             <[0%nat := d']> sampleStore)
          ∧ idsOf d' = idsOf aliceFeed ++ [objectId photoUpper]
          ∧ ¬ uniqueContent (doc d').
Proof.
  apply (letter_case_adds_content_twice accepting contentStore alice feed
           photoUpper (mkPosition 0 1) 4 sampleStore 0 aliceFeed);
    try reflexivity.
  - repeat constructor.
  - vm_compute. left.
  - vm_compute. discriminate.
Defined.

(** X12.  Removing compares the stored id with the id as it was sent, too: a
    removal that spells the id in another letter case (valid ids, a
    collection of the user, a document that passes validation) is
    answered 200 and removes nothing. *)
Theorem letter_case_leaves_content_in_place validates user id cid now db i d :
  validateObjectId id = true → validateObjectId cid = true →
  findOne id user db = Some (i, d) →
  Forall (λ item, canonical (contentId item)) (items (doc d)) →
  objectId cid ≠ cid →
  validates (set_doc (Collection.removeContent cid now (doc d)) d) = true →
  ∃ d', Controller.removeContent validates user id cid now db
        = (mkReply 200 (WithCollection "Content removed from collection" d'),
           <[i := d']> db)
        ∧ idsOf d' = idsOf d.
Proof.
  intros Hid Hcid Hfind Hcanon Hcase Hvalid. unfold Controller.removeContent.
  rewrite Hid, Hcid, Hfind. cbn [negb orb]. rewrite Hvalid.
  eexists. split; [reflexivity |].
  unfold idsOf. cbn [doc set_doc]. rewrite removeContent_contentIds.
  apply filter_all. intros x Hx ->. apply Hcase.
  apply canonical_ids in Hcanon.
  by apply (proj1 (Forall_forall _ _) Hcanon).
Qed.

Lemma letter_case_leaves_content_in_place_witness :
  ∃ d', Controller.removeContent accepting alice feed photoUpper 4 sampleStore
        = (mkReply 200 (WithCollection "Content removed from collection" d'),
           <[0%nat := d']> sampleStore)
        ∧ idsOf d' = idsOf aliceFeed.
Proof.
  apply (letter_case_leaves_content_in_place accepting alice feed photoUpper 4
           sampleStore 0 aliceFeed); try reflexivity.
  - repeat constructor.
  - discriminate.
Defined.

(** ** Reordering *)

Lemma applyUpdate_schedule c update :
  scheduling (applyUpdate c update) = scheduling c
  ∧ stats (applyUpdate c update) = stats c
  ∧ settings (applyUpdate c update) = settings c.
Proof.
  unfold applyUpdate. by destruct (list_find _ _) as [[i item] |].
Qed.

Lemma applyUpdates_schedule c updates :
  scheduling (foldl applyUpdate c updates) = scheduling c
  ∧ stats (foldl applyUpdate c updates) = stats c
  ∧ settings (foldl applyUpdate c updates) = settings c.
Proof.
  revert c. induction updates as [| u updates IH]; intros c; [done |].
  cbn. destruct (IH (applyUpdate c u)) as (-> & -> & ->).
  apply applyUpdate_schedule.
Qed.

Lemma moved_refl (l : list Item) : Forall2 moved l l.
Proof. apply Forall2_same_length_lookup. split; [done |]. intros k x y Hx Hy.
  rewrite Hx in Hy. injection Hy as <-. by repeat split. Qed.

Lemma applyUpdate_moved c update :
  Forall2 moved (items c) (items (applyUpdate c update))
  ∧ (∀ k item, items c !! k = Some item → contentId item ≠ u_contentId update →
               items (applyUpdate c update) !! k = Some item).
Proof.
  unfold applyUpdate.
  destruct (list_find _ (items c)) as [[i item] |] eqn:Hfind;
    [| split; [apply moved_refl | done]].
  apply list_find_Some in Hfind as (Hi & Hcid & _). cbn [items set_items].
  split.
  - rewrite <- (list_insert_id (items c) i item Hi) at 1.
    apply Forall2_insert; [apply moved_refl |].
    by destruct (u_position update), (u_order update).
  - intros k other Hk Hne.
    rewrite list_lookup_insert_ne; [done |]. intros <-.
    rewrite Hi in Hk. injection Hk as <-. done.
Qed.

Lemma moved_trans (l1 l2 l3 : list Item) :
  Forall2 moved l1 l2 → Forall2 moved l2 l3 → Forall2 moved l1 l3.
Proof.
  intros H12. revert l3. induction H12 as [| x y l1 l2 Hxy _ IH];
    intros l3 H23; inversion H23 as [| y' z l2' l3' Hyz Hrest]; subst;
    constructor; [| by apply IH].
  destruct Hxy as (? & ? & ? & ? & ?), Hyz as (? & ? & ? & ? & ?).
  repeat split; congruence.
Qed.

Lemma applyUpdates_moved updates c :
  Forall2 moved (items c) (items (foldl applyUpdate c updates))
  ∧ (∀ k item, items c !! k = Some item →
               contentId item ∉ u_contentId <$> updates →
               items (foldl applyUpdate c updates) !! k = Some item).
Proof.
  revert c. induction updates as [| u updates IH]; intros c.
  - split; [apply moved_refl | done].
  - cbn [foldl]. destruct (applyUpdate_moved c u) as [Hm1 Hk1].
    destruct (IH (applyUpdate c u)) as [Hm2 Hk2]. split.
    + by eapply moved_trans.
    + intros k item Hk Hnot. rewrite fmap_cons, not_elem_of_cons in Hnot.
      destruct Hnot as [Hne Hrest]. apply Hk2; [| done]. by apply Hk1.
Qed.

(** X13.  A reorder keeps every entry in its place in the list, with its
    content and its posting record: it can change positions and [order]
    values and nothing else, and an entry the request does not name is
    left exactly as it was. *)
Theorem reorder_moves_entries_and_nothing_else
    validates user id updates now db i d :
  findOne id user db = Some (i, d) →
  code (Controller.reorderContent validates user id updates now db).1 = 200%nat →
  ∃ d', Controller.reorderContent validates user id updates now db
        = (mkReply 200 (WithCollection "Collection reordered successfully" d'),
           <[i := d']> db)
        ∧ Forall2 moved (items (doc d)) (items (doc d'))
        ∧ (∀ k item, items (doc d) !! k = Some item →
                     contentId item ∉ u_contentId <$> updates →
                     items (doc d') !! k = Some item)
        ∧ status d' = status d
        ∧ scheduling (doc d') = scheduling (doc d).
Proof.
  intros Hfind. unfold Controller.reorderContent.
  destruct (negb (validateObjectId id)); [discriminate |].
  rewrite Hfind.
  destruct (negb (allowReordering _)); [discriminate |].
  destruct (validates _); [| discriminate]. intros _.
  eexists. split; [reflexivity |].
  destruct (applyUpdates_moved updates (doc d)) as [Hmoved Hkept].
  split_and!; [done | done | done |].
  cbn [doc set_doc]. change (scheduling (save ?n ?c)) with (scheduling c).
  by destruct (applyUpdates_schedule (doc d) updates) as (-> & _).
Qed.

Lemma reorder_moves_entries_and_nothing_else_witness :
  ∃ d', Controller.reorderContent accepting alice feed
          [mkUpdate photo (Some (mkPosition 2 2)) (Some 5)] 4 sampleStore
        = (mkReply 200 (WithCollection "Collection reordered successfully" d'),
           <[0%nat := d']> sampleStore)
        ∧ Forall2 moved (items (doc aliceFeed)) (items (doc d'))
        ∧ (∀ k item, items (doc aliceFeed) !! k = Some item →
                     contentId item
                     ∉ u_contentId <$> [mkUpdate photo (Some (mkPosition 2 2))
                                                 (Some 5)] →
                     items (doc d') !! k = Some item)
        ∧ status d' = status aliceFeed
        ∧ scheduling (doc d') = scheduling (doc aliceFeed).
Proof.
  apply (reorder_moves_entries_and_nothing_else accepting alice feed
           [mkUpdate photo (Some (mkPosition 2 2)) (Some 5)] 4 sampleStore 0
           aliceFeed); reflexivity.
Defined.

(** ** Scheduling through [updateCollection] *)

Lemma updateCollection_enabled validates tz user id updates now db i d :
  findOne id user db = Some (i, d) →
  enabled (scheduling (doc (applyUpdates updates d))) = true →
  code (updateCollection validates tz user id updates now db).1 = 200%nat →
  ∃ d', updateCollection validates tz user id updates now db
        = (mkReply 200 (WithCollection "Collection updated successfully" d'),
           <[i := d']> db)
        ∧ items (doc d') = items (doc d)
        ∧ scheduling (doc d') = scheduling (doc (applyUpdates updates d))
        ∧ settings (doc d') = settings (doc (applyUpdates updates d))
        ∧ nextPostAt (stats (doc d'))
          = calculateNextPostTime tz now (doc (applyUpdates updates d))
        ∧ status d' = match status (applyUpdates updates d) with
                      | draft => scheduled
                      | other => other
                      end.
Proof.
  intros Hfind Hen. unfold updateCollection.
  destruct (validateObjectId id); [| discriminate].
  rewrite Hfind. cbn -[applyUpdates save calculateNextPostTime].
  rewrite Hen.
  destruct (validates _); [| discriminate]. intros _.
  eexists. split; [reflexivity |].
  destruct (status (applyUpdates updates d)) eqn:Hst;
    cbn -[applyUpdates calculateNextPostTime]; rewrite ?Hst;
    by rewrite (proj1 (proj2 (proj2 (applyUpdates_owner _ _)))).
Qed.

(** X14.  An update that leaves scheduling enabled stores the next due time
    that [calculateNextPostTime] gives and takes the collection out of
    [draft]; [findReadyToPost] then returns it from that time on, when
    it posts on its own, is active and was not paused, completed or
    failed. *)
Theorem update_makes_the_collection_due
    validates tz user id updates now db i d t :
  findOne id user db = Some (i, d) →
  enabled (scheduling (doc (applyUpdates updates d))) = true →
  code (updateCollection validates tz user id updates now db).1 = 200%nat →
  ∃ d', updateCollection validates tz user id updates now db
        = (mkReply 200 (WithCollection "Collection updated successfully" d'),
           <[i := d']> db)
        ∧ items (doc d') = items (doc d)
        ∧ nextPostAt (stats (doc d'))
          = calculateNextPostTime tz now (doc (applyUpdates updates d))
        ∧ status d' ≠ draft
        ∧ (readyToPost t d' = true ↔
             autoPost (scheduling (doc (applyUpdates updates d))) = true
             ∧ isActive (settings (doc (applyUpdates updates d))) = true
             ∧ (status (applyUpdates updates d) = draft
                ∨ status (applyUpdates updates d) = scheduled
                ∨ status (applyUpdates updates d) = posting)
             ∧ ∃ due, calculateNextPostTime tz now (doc (applyUpdates updates d))
                      = Some due ∧ due ≤ t).
Proof.
  intros Hfind Hen Hcode.
  destruct (updateCollection_enabled _ _ _ _ _ _ _ _ _ Hfind Hen Hcode)
    as (d' & Hreply & Hitems & Hsch & Hset & Hnext & Hstatus).
  exists d'. split_and!; [done .. | |].
  - rewrite Hstatus. by destruct (status (applyUpdates updates d)).
  - unfold readyToPost. rewrite Hsch, Hset, Hnext, Hstatus, Hen.
    destruct (autoPost _), (isActive _),
      (status (applyUpdates updates d)),
      (calculateNextPostTime _ _ _) as [due |]; cbn;
      rewrite ?Z.leb_le;
      (split; [intros Hready | intros (Hauto & Hactive & Hst & due' & Hdue & Hle)]);
      try discriminate; try lia;
      try (destruct Hst as [Hst | [Hst | Hst]]; discriminate);
      try (injection Hdue as <-; lia);
      try (split_and!; eauto; exists due; split; [done | lia]).
Qed.

Lemma update_makes_the_collection_due_witness :
  ∃ d', updateCollection accepting 0 alice feed switchOn eightOnDay10 sampleStore
        = (mkReply 200 (WithCollection "Collection updated successfully" d'),
           <[0%nat := d']> sampleStore)
        ∧ items (doc d') = items (doc aliceFeed)
        ∧ nextPostAt (stats (doc d'))
          = calculateNextPostTime 0 eightOnDay10
              (doc (applyUpdates switchOn aliceFeed))
        ∧ status d' ≠ draft
        ∧ (readyToPost (eightOnDay10 + msPerDay) d' = true ↔
             autoPost (scheduling (doc (applyUpdates switchOn aliceFeed))) = true
             ∧ isActive (settings (doc (applyUpdates switchOn aliceFeed))) = true
             ∧ (status (applyUpdates switchOn aliceFeed) = draft
                ∨ status (applyUpdates switchOn aliceFeed) = scheduled
                ∨ status (applyUpdates switchOn aliceFeed) = posting)
             ∧ ∃ due, calculateNextPostTime 0 eightOnDay10
                        (doc (applyUpdates switchOn aliceFeed))
                      = Some due ∧ due ≤ eightOnDay10 + msPerDay).
Proof.
  apply (update_makes_the_collection_due accepting 0 alice feed switchOn
           eightOnDay10 sampleStore 0 aliceFeed (eightOnDay10 + msPerDay));
    reflexivity.
Defined.

(** ** What [findReadyToPost] returns *)

Lemma fmap_filter_insert {A B} (f : A → B) (P : A → Prop)
    `{∀ x, Decision (P x)} (l : list A) i x y :
  l !! i = Some x → f y = f x → (P y ↔ P x) →
  f <$> filter P (<[i := y]> l) = f <$> filter P l.
Proof.
  intros Hi Hf HP.
  rewrite insert_take_drop by (by eapply lookup_lt_Some).
  rewrite <- (take_drop_middle l i x Hi) at 3.
  rewrite !filter_app, !filter_cons, !fmap_app.
  repeat case_decide; rewrite ?fmap_cons, ?Hf; tauto.
Qed.

Lemma newDocument_not_ready newId user grid sched entries now t :
  readyToPost t (newDocument newId user grid sched entries now) = false.
Proof.
  unfold readyToPost. cbn. by destruct (enabled sched), (autoPost sched).
Qed.

(** X15.  Creating, duplicating, previewing a collection and adding, removing
    or reordering its content never change which collections
    [findReadyToPost] returns: only an update can make a collection due. *)
Theorem only_updates_change_what_is_due
    validates tz contentOwner user now req db t :
  rescheduling req = false →
  _id <$> findReadyToPost t (handle validates tz contentOwner user now req db).2
  = _id <$> findReadyToPost t db.
Proof.
  intros Hreq. unfold findReadyToPost.
  destruct req; try discriminate; handlers; handler; try done;
    first [ rewrite filter_snoc_out;
            [done | by rewrite newDocument_not_ready]
          | eapply fmap_filter_insert; [eassumption | done |] ].
  - done.
  - done.
  - unfold readyToPost. cbn [doc set_doc status].
    change (scheduling (save ?n ?c)) with (scheduling c).
    change (settings (save ?n ?c)) with (settings c).
    change (nextPostAt (stats (save ?n ?c))) with (nextPostAt (stats c)).
    by destruct (applyUpdates_schedule (doc found) updates) as (-> & -> & ->).
Qed.

Lemma only_updates_change_what_is_due_witness :
  _id <$> findReadyToPost 10
            (handle accepting 0 contentStore alice 4
                    (ReqAddContent feed clip (mkPosition 0 1)) sampleStore).2
  = _id <$> findReadyToPost 10 sampleStore.
Proof.
  apply (only_updates_change_what_is_due accepting 0 contentStore alice 4
           (ReqAddContent feed clip (mkPosition 0 1)) sampleStore 10).
  reflexivity.
Defined.

(** ** Duplicates *)

(** X16.  A duplicate holds the entries of the original with their positions
    and posting order, all of them to be posted again; it is a draft of
    the same user and does not take over the original's schedule. *)
Theorem duplicate_is_an_unposted_copy validates user id newId now db i d :
  findOne id user db = Some (i, d) →
  code (duplicateCollection validates user id newId now db).1 = 201%nat →
  ∃ d', duplicateCollection validates user id newId now db
        = (mkReply 201 (WithCollection "Collection duplicated successfully" d'),
           db ++ [d'])
        ∧ (_id d' = newId ∧ userId d' = user ∧ status d' = draft
           ∧ gridConfig d' = gridConfig d
           ∧ enabled (scheduling (doc d')) = false)
        ∧ (contentId <$> items (doc d') = contentId <$> items (doc d)
           ∧ position <$> items (doc d') = position <$> items (doc d)
           ∧ order <$> items (doc d') = order <$> items (doc d))
        ∧ Forall (λ item, posted item = false ∧ postedAt item = None
                          ∧ postId item = None ∧ postUrl item = None)
                 (items (doc d'))
        ∧ remainingItems (doc d') = Z.of_nat (length (items (doc d)))
        ∧ getNextItemToPost (doc d') = copyItem <$> head (items (doc d)).
Proof.
  intros Hfind. unfold duplicateCollection.
  destruct (validateObjectId id); [| discriminate].
  rewrite Hfind. cbn -[newDocument].
  destruct (validates _); [| discriminate]. intros _.
  eexists. split; [reflexivity |].
  assert (Hnone : filter (λ item, posted item = true)
                         (copyItem <$> items (doc d)) = []).
  { induction (items (doc d)) as [| item l IH]; [done |].
    rewrite fmap_cons, filter_cons_False by done. exact IH. }
  split_and!; try done.
  - cbn. by rewrite <- list_fmap_compose.
  - cbn. by rewrite <- list_fmap_compose.
  - cbn. by rewrite <- list_fmap_compose.
  - cbn. apply Forall_fmap, Forall_true. done.
  - unfold remainingItems. cbn. rewrite Hnone, length_fmap. cbn. lia.
  - unfold getNextItemToPost. cbn. by destruct (items (doc d)).
Qed.

Lemma duplicate_is_an_unposted_copy_witness :
  ∃ d', duplicateCollection accepting alice feed clip 5 sampleStore
        = (mkReply 201 (WithCollection "Collection duplicated successfully" d'),
           sampleStore ++ [d'])
        ∧ (_id d' = clip ∧ userId d' = alice ∧ status d' = draft
           ∧ gridConfig d' = gridConfig aliceFeed
           ∧ enabled (scheduling (doc d')) = false)
        ∧ (contentId <$> items (doc d') = contentId <$> items (doc aliceFeed)
           ∧ position <$> items (doc d') = position <$> items (doc aliceFeed)
           ∧ order <$> items (doc d') = order <$> items (doc aliceFeed))
        ∧ Forall (λ item, posted item = false ∧ postedAt item = None
                          ∧ postId item = None ∧ postUrl item = None)
                 (items (doc d'))
        ∧ remainingItems (doc d') = Z.of_nat (length (items (doc aliceFeed)))
        ∧ getNextItemToPost (doc d') = copyItem <$> head (items (doc aliceFeed)).
Proof.
  apply (duplicate_is_an_unposted_copy accepting alice feed clip 5
           sampleStore 0 aliceFeed); reflexivity.
Defined.

(** ** The preview grid *)

Lemma cellOf_buildGrid contentOwner grid entries r c cell :
  cellOf (buildGrid contentOwner grid entries) r c = Some cell ↔
  (r < rows grid)%nat ∧ (c < columns grid)%nat
  ∧ cell = cellAt contentOwner entries r c.
Proof.
  unfold cellOf, buildGrid. rewrite list_lookup_fmap.
  destruct (decide (r < rows grid)%nat) as [Hr | Hr].
  - rewrite lookup_seq_lt by done. cbn. rewrite list_lookup_fmap.
    destruct (decide (c < columns grid)%nat) as [Hc | Hc].
    + rewrite lookup_seq_lt by done. cbn.
      split; [by intros [= <-] | by intros (_ & _ & ->)].
    + rewrite lookup_seq_ge by lia. cbn.
      split; [done | by intros (_ & ? & _)].
  - rewrite lookup_seq_ge by lia. cbn.
    split; [done | by intros (? & _)].
Qed.

(** X17.  The preview has [rows] rows of [columns] cells.  A cell that shows
    content shows an entry placed on that cell, with its posted flag;
    and an entry placed inside the grid is shown on its cell when no
    earlier entry is placed there. *)
Theorem preview_shows_the_first_entry_of_a_cell contentOwner grid entries :
  length (buildGrid contentOwner grid entries) = rows grid
  ∧ Forall (λ gridRow, length gridRow = columns grid)
           (buildGrid contentOwner grid entries)
  ∧ (∀ r c cell cid,
       cellOf (buildGrid contentOwner grid entries) r c = Some cell →
       cellContent cell = Some cid →
       ∃ item, item ∈ entries ∧ contentId item = cid
               ∧ is_Some (contentOwner cid)
               ∧ position item = cellPosition cell
               ∧ cellPosition cell = mkPosition (Z.of_nat r) (Z.of_nat c)
               ∧ cellPosted cell = posted item)
  ∧ (∀ k item r c,
       entries !! k = Some item →
       position item = mkPosition (Z.of_nat r) (Z.of_nat c) →
       (r < rows grid)%nat → (c < columns grid)%nat →
       (∀ j other, (j < k)%nat → entries !! j = Some other →
                   position other ≠ position item) →
       cellOf (buildGrid contentOwner grid entries) r c
       = Some (mkCell (position item) (populate contentOwner item)
                      (posted item))).
Proof.
  split_and!.
  - unfold buildGrid. by rewrite length_fmap, length_seq.
  - unfold buildGrid. apply Forall_fmap, Forall_forall. intros r _. cbn.
    by rewrite length_fmap, length_seq.
  - intros r c cell cid (_ & _ & ->)%cellOf_buildGrid. unfold cellAt.
    destruct (list_find _ entries) as [[k item] |] eqn:Hfind; [| done].
    apply list_find_Some in Hfind as (Hk & [Hrow Hcol] & _).
    cbn. unfold populate.
    destruct (contentOwner (contentId item)) eqn:Howner; [| done].
    intros [= <-]. exists item. split_and!; try done.
    + by eapply list_elem_of_lookup_2.
    + by destruct (position item); cbn in *; subst.
  - intros k item r c Hk Hpos Hr Hc Hfirst.
    apply cellOf_buildGrid. split_and!; [done .. |]. unfold cellAt.
    assert (Hfind : list_find (λ item, row (position item) = Z.of_nat r
                                       ∧ col (position item) = Z.of_nat c)
                              entries = Some (k, item)).
    { apply list_find_Some. split_and!; [done | by rewrite Hpos .. |].
      intros j other Hj Hlt [Hrow Hcol].
      apply (Hfirst j other Hlt Hj). rewrite Hpos.
      by destruct (position other); cbn in *; subst. }
    by rewrite Hfind, Hpos.
Qed.

End ControllerFacts.

(* ===================================================================== *)
(** * Part IV: properties of the publishing service *)
(* ===================================================================== *)

Section ServiceFacts.

Import Service.
Local Open Scope string_scope.

Implicit Types (env : Env) (w : World) (user : User) (content : Content)
  (options : Options) (p : Protocol).

(** ** Public media URLs *)

Lemma prefix_app (p s t : string) :
  String.prefix p s = true → String.prefix p (s ++ t) = true.
Proof.
  revert p. induction s as [| b s IH]; intros [| a p] H; simpl in *;
    try done; [by destruct t |].
  destruct (Ascii.ascii_dec a b); [by apply IH | done].
Qed.

Lemma isFullUrl_app (s t : string) :
  isFullUrl s = true → isFullUrl (s ++ t) = true.
Proof.
  unfold isFullUrl, startsWith. intros [H | H]%orb_true_iff;
    apply orb_true_iff; [left | right]; by apply prefix_app.
Qed.

Lemma getPublicMediaUrl_full frontend (mediaPath : string) :
  isFullUrl mediaPath = true → getPublicMediaUrl frontend mediaPath = mediaPath.
Proof. unfold getPublicMediaUrl, isFullUrl. by intros ->. Qed.

(** C10, as the code has it.  Where the configured [FRONTEND_URL] is
    unset or empty (so that the default applies) or itself begins with
    'http://' or 'https://', the result of [getPublicMediaUrl] begins
    with 'http://' or 'https://' for every media path, such a path is
    returned unchanged, and so the function is idempotent. *)
Theorem getPublicMediaUrl_idempotent frontend (mediaPath : string) :
  isFullUrl (baseUrl frontend) = true →
  isFullUrl (getPublicMediaUrl frontend mediaPath) = true
  ∧ getPublicMediaUrl frontend (getPublicMediaUrl frontend mediaPath)
    = getPublicMediaUrl frontend mediaPath.
Proof.
  intros Hbase.
  assert (Hfull : isFullUrl (getPublicMediaUrl frontend mediaPath) = true).
  { unfold getPublicMediaUrl. fold (isFullUrl mediaPath).
    destruct (isFullUrl mediaPath) eqn:Hp; [done |].
    by apply isFullUrl_app. }
  split; [done | by apply getPublicMediaUrl_full].
Qed.

Lemma getPublicMediaUrl_idempotent_witness :
  isFullUrl (getPublicMediaUrl None "uploads/cat.jpg") = true
  ∧ getPublicMediaUrl None (getPublicMediaUrl None "uploads/cat.jpg")
    = getPublicMediaUrl None "uploads/cat.jpg".
Proof. apply (getPublicMediaUrl_idempotent None "uploads/cat.jpg"). reflexivity. Defined.

(** C10 as claimed fails where [FRONTEND_URL] carries no scheme: the
    result for the empty path does not begin with 'http://' or
    'https://', and a second application changes it. *)
Lemma getPublicMediaUrl_not_idempotent :
  getPublicMediaUrl (Some "example.com") "" = "example.com/uploads/"
  ∧ isFullUrl (getPublicMediaUrl (Some "example.com") "") = false
  ∧ getPublicMediaUrl (Some "example.com")
      (getPublicMediaUrl (Some "example.com") "")
    = "example.com/uploads/uploads".
Proof. split_and!; reflexivity. Qed.

(** ** Running the monad *)

Lemma run_bind {A B} (m : M A) (f : A → M B) env w :
  (m ≫= f) env w
  = match m env w with
    | (Return a, w') => f a env w'
    | (Throw e, w') => (Throw e, w')
    end.
Proof. reflexivity. Qed.

Lemma run_try_catch {A} (m : M A) (handler : Error → M A) env w :
  try_catch m handler env w
  = match m env w with
    | (Return a, w') => (Return a, w')
    | (Throw e, w') => handler e env w'
    end.
Proof. reflexivity. Qed.

Lemma run_fmap {A B} (f : A → B) (m : M A) env w :
  (f <$> m) env w
  = match m env w with
    | (Return a, w') => (Return (f a), w')
    | (Throw e, w') => (Throw e, w')
    end.
Proof. reflexivity. Qed.

(** A handler that only rethrows lets no failure through as a result. *)
Lemma try_rethrow_Return {A} (m : M A) (wrap : Error → Error) env w a w' :
  try_catch m (λ error, throw (wrap error)) env w = (Return a, w') →
  m env w = (Return a, w').
Proof.
  rewrite run_try_catch. destruct (m env w) as [[a0 | e] w0]; [done |].
  discriminate.
Qed.

Lemma try_rethrow_Throw {A} (m : M A) (wrap : Error → Error) env w e w' :
  m env w = (Throw e, w') →
  try_catch m (λ error, throw (wrap error)) env w = (Throw (wrap e), w').
Proof. rewrite run_try_catch. by intros ->. Qed.

Lemma try_rethrow_pass {A} (m : M A) (wrap : Error → Error) env w a w' :
  m env w = (Return a, w') →
  try_catch m (λ error, throw (wrap error)) env w = (Return a, w').
Proof. rewrite run_try_catch. by intros ->. Qed.

Lemma bind_Return {A B} (m : M A) (f : A → M B) env w b w2 :
  (m ≫= f) env w = (Return b, w2) →
  ∃ a w1, m env w = (Return a, w1) ∧ f a env w1 = (Return b, w2).
Proof.
  rewrite run_bind. destruct (m env w) as [[a | e] w1]; [eauto | discriminate].
Qed.

Lemma axios_Return req env w data w' :
  axios req env w = (Return data, w') →
  remote env (log w) req = RespOk data ∧ w' = exchanged env w req.
Proof.
  unfold axios. destruct (remote env (log w) req) eqn:Hresp; [| discriminate].
  by intros [= <- <-].
Qed.

Lemma prop_Return v k env w x w' :
  prop v k env w = (Return x, w') →
  nullish v = false ∧ x = field_of v k ∧ w' = w.
Proof.
  unfold prop. destruct (nullish v); [discriminate |]. by intros [= <- <-].
Qed.

(** ** Events of a run *)

Lemma eventsOf_app w w' (evs : list Event) :
  log w' = (log w ++ evs)%list → eventsOf w w' = evs.
Proof. unfold eventsOf. intros ->. by rewrite drop_app_length. Qed.

Lemma eventsOf_same w : eventsOf w w = [].
Proof. apply eventsOf_app. by rewrite app_nil_r. Qed.

Lemma callsDuring_unchanged {A} (m : M A) env w (out : Outcome A) :
  m env w = (out, w) → callsDuring m env w = 0%nat.
Proof. unfold callsDuring. intros ->. cbn. by rewrite eventsOf_same. Qed.

(** ** Credentials are checked before anything is sent *)

Lemma postToInstagram_not_connected env w user content options ig :
  instagram user = Some ig → connected ig = false →
  postToInstagram user content options env w
  = (Throw (newError "Instagram account not connected"), w).
Proof.
  intros Hig Hc. unfold postToInstagram.
  rewrite run_try_catch, run_bind, Hig. cbn. by rewrite Hc.
Qed.

Lemma postToInstagram_expired env w user content options ig :
  instagram user = Some ig → expired (expiresAt ig) (clock w) = true →
  ∃ e, postToInstagram user content options env w = (Throw e, w)
       ∧ message e ∈ credentialErrors.
Proof.
  intros Hig Hexp. unfold postToInstagram.
  rewrite run_try_catch, run_bind, Hig. cbn -[expired missing].
  destruct (connected ig); cbn -[expired missing];
    [| eexists; split; [done | repeat constructor]].
  destruct (missing (accessToken ig)); cbn -[expired];
    [eexists; split; [done | repeat constructor] |].
  rewrite run_bind. cbn -[expired]. rewrite Hexp.
  eexists; split; [done | repeat constructor].
Qed.

Lemma postToTikTok_not_connected env w user content options tt :
  tiktok user = Some tt → connected tt = false →
  postToTikTok user content options env w
  = (Throw (newError "TikTok posting failed: TikTok account not connected"), w).
Proof.
  intros Htt Hc. unfold postToTikTok.
  rewrite run_try_catch, run_bind, Htt. cbn. by rewrite Hc.
Qed.

(** ** Counting over a log *)

Lemma checks_app (f : Request → bool) (l1 l2 : list Event) :
  checks f (l1 ++ l2) = (checks f l1 + checks f l2)%nat.
Proof. unfold checks. by rewrite filter_app, length_app. Qed.

Lemma httpCalls_app (l1 l2 : list Event) :
  httpCalls (l1 ++ l2) = (httpCalls l1 + httpCalls l2)%nat.
Proof. unfold httpCalls. by rewrite filter_app, length_app. Qed.

Lemma slept_app (l1 l2 : list Event) :
  slept (l1 ++ l2) = (slept l1 + slept l2)%Z.
Proof.
  unfold slept. induction l1 as [| ev l1 IH]; cbn; [done |].
  rewrite IH. destruct ev; lia.
Qed.

Lemma checks_http (f : Request → bool) req resp :
  checks f [EvHttp req resp] = if f req then 1%nat else 0%nat.
Proof.
  unfold checks. rewrite filter_cons, filter_nil. cbn.
  destruct (f req); by case_decide.
Qed.

Lemma checks_sleep (f : Request → bool) ms : checks f [EvSleep ms] = 0%nat.
Proof. unfold checks. rewrite filter_cons, filter_nil. cbn. by case_decide. Qed.

(** ** Clean runs *)

Lemma ranClean_refl p w : ranClean p w w.
Proof. exists []. by rewrite app_nil_r. Qed.

Lemma ranClean_trans p w1 w2 w3 :
  ranClean p w1 w2 → ranClean p w2 w3 → ranClean p w1 w3.
Proof.
  intros (evs1 & H1 & Hc1) (evs2 & H2 & Hc2). exists (evs1 ++ evs2)%list.
  split; [by rewrite H2, H1, app_assoc | by apply Forall_app].
Qed.

Lemma ranClean_event p w ev k :
  clean p ev = true → ranClean p w (mkWorld k (log w ++ [ev])).
Proof. intros H. exists [ev]. split; [done | by constructor]. Qed.

Lemma ranClean_eventsOf p w w' :
  ranClean p w w' → Forall (λ ev, clean p ev = true) (eventsOf w w').
Proof. intros (evs & Hlog & Hc). by rewrite (eventsOf_app w w' evs). Qed.

(** An accepted request that is no status check is clean. *)
Lemma ranClean_step p env w req data :
  isCheck p req = false → remote env (log w) req = RespOk data →
  ranClean p w (exchanged env w req).
Proof.
  intros Hreq Hresp. apply ranClean_event. rewrite Hresp. cbn. by rewrite Hreq.
Qed.

(** ** The polling loops *)

Lemma igFetch_fetches creationId accessToken :
  fetches igProtocol (igStatusRequest creationId accessToken)
          (igFetch creationId accessToken).
Proof.
  split; [done |]. intros env w. unfold igFetch, axios, prop.
  rewrite run_bind. cbn.
  destruct (remote env (log w) _) as [data | e]; cbn; [| eauto].
  destruct (nullish data); cbn; eauto.
Qed.

Lemma ttFetch_fetches publishId accessToken :
  fetches ttProtocol (ttStatusRequest publishId accessToken)
          (ttFetch publishId accessToken).
Proof.
  split; [done |]. intros env w. unfold ttFetch, axios, prop.
  rewrite run_bind. cbn.
  destruct (remote env (log w) _) as [data | e]; cbn; [| eauto].
  destruct (nullish data); cbn; [eauto |].
  rewrite run_bind. cbn.
  destruct (nullish (field_of data "data")); cbn; eauto.
Qed.

Lemma igPoll_shape n creationId accessToken env w :
  igPoll n creationId accessToken env w
  = pollUntil igProtocol (igFetch creationId accessToken)
      (newError "Video processing failed") n env w.
Proof.
  revert w. induction n as [| n IH]; intros w; [done |].
  cbn [igPoll pollUntil]. unfold igFetch, axios_get.
  rewrite !run_bind. cbn. rewrite !run_bind.
  destruct (axios _ env _) as [[data | e] w1]; [| done].
  rewrite run_bind.
  destruct (prop data "status_code" env w1) as [[status | e] w2]; [| done].
  cbn. destruct (is_str "FINISHED" status); [done |].
  destruct (is_str "ERROR" status); [done |]. apply IH.
Qed.

Lemma ttPoll_shape n publishId accessToken env w :
  ttPoll n publishId accessToken env w
  = pollUntil ttProtocol (ttFetch publishId accessToken)
      (newError "TikTok publish failed") n env w.
Proof.
  revert w. induction n as [| n IH]; intros w; [done |].
  cbn [ttPoll pollUntil]. unfold ttFetch, axios_post.
  rewrite !run_bind. cbn. rewrite !run_bind.
  destruct (axios _ env _) as [[resp | e] w1]; [| done].
  rewrite !run_bind.
  destruct (prop resp "data" env w1) as [[data | e] w2]; [| done].
  rewrite !run_bind.
  destruct (prop data "status" env w2) as [[status | e] w3]; [| done].
  cbn. destruct (is_str "PUBLISH_COMPLETE" status); [done |].
  destruct (is_str "FAILED" status); [done |]. apply IH.
Qed.

Section Polling.

Context (p : Protocol) (req : Request) (fetch : M json) (failure : Error).
Hypothesis Hfetch : fetches p req fetch.

Lemma pollUntil_step n env w :
  pollUntil p fetch failure (S n) env w
  = match fetch env (mkWorld (clock w + pollDelay p)
                             (log w ++ [EvSleep (pollDelay p)])) with
    | (Return status, w') =>
        if is_str (doneStatus p) status then (Return true, w')
        else if is_str (failStatus p) status then (Throw failure, w')
        else pollUntil p fetch failure n env w'
    | (Throw e, w') => (Throw e, w')
    end.
Proof.
  cbn [pollUntil]. rewrite run_bind. cbn. rewrite run_bind.
  destruct (fetch env _) as [[status | e] w']; [| done].
  destruct (is_str (doneStatus p) status); [done |].
  by destruct (is_str (failStatus p) status).
Qed.


(** Processing on every status check: the loop gives up with [false]
    after exactly [n] waits and [n] status checks. *)
Lemma pollUntil_timeout env :
  processingForever p (remote env) →
  ∀ n w, ∃ w' evs,
    pollUntil p fetch failure n env w = (Return false, w')
    ∧ log w' = (log w ++ evs)%list
    ∧ checks (isCheck p) evs = n
    ∧ httpCalls evs = n
    ∧ slept evs = (Z.of_nat n * pollDelay p)%Z.
Proof.
  intros Hrem. destruct Hfetch as [Hreq Hrun].
  induction n as [| n IH]; intros w.
  - exists w, []. by rewrite app_nil_r.
  - rewrite pollUntil_step.
    set (w1 := mkWorld _ _). specialize (Hrun env w1).
    destruct (Hrem (log w1) req Hreq) as (status & Hst & Hproc).
    rewrite Hst in Hrun. rewrite Hrun.
    apply andb_true_iff in Hproc as [Hnd Hnf].
    apply negb_true_iff in Hnd, Hnf. rewrite Hnd, Hnf.
    destruct (IH (exchanged env w1 req)) as (w' & evs & Hpoll & Hlog & Hc & Hh & Hs).
    exists w', ([EvSleep (pollDelay p); EvHttp req (remote env (log w1) req)] ++ evs)%list.
    split_and!; [done | | | |].
    + rewrite Hlog. subst w1. cbn. by rewrite <- !app_assoc.
    + rewrite checks_app, Hc.
      change [EvSleep (pollDelay p); EvHttp req (remote env (log w1) req)]
        with ([EvSleep (pollDelay p)] ++ [EvHttp req (remote env (log w1) req)])%list.
      rewrite checks_app, checks_sleep, checks_http, Hreq. lia.
    + rewrite httpCalls_app, Hh. done.
    + rewrite slept_app, Hs. cbn. lia.
Qed.

(** A loop that returns ran clean; if it returns [false] it used the
    whole budget. *)
Lemma pollUntil_clean env n w b w' :
  pollUntil p fetch failure n env w = (Return b, w') →
  ranClean p w w'
  ∧ (b = false → checks (isCheck p) (eventsOf w w') = n).
Proof.
  destruct Hfetch as [Hreq Hrun].
  revert w. induction n as [| n IH]; intros w.
  - intros [= <- <-]. split; [apply ranClean_refl |].
    intros _. by rewrite eventsOf_same.
  - rewrite pollUntil_step.
    set (w1 := mkWorld _ _). specialize (Hrun env w1).
    destruct (statusOf p (remote env (log w1) req)) as [status |] eqn:Hst.
    2:{ destruct Hrun as [e ->]. discriminate. }
    rewrite Hrun.
    destruct (remote env (log w1) req) as [data | e] eqn:Hresp; [| discriminate].
    assert (Hlog : log (exchanged env w1 req)
                   = (log w ++ [EvSleep (pollDelay p); EvHttp req (RespOk data)])%list).
    { unfold exchanged. cbn [log]. rewrite Hresp. subst w1. cbn [log].
      by rewrite <- app_assoc. }
    destruct (is_str (doneStatus p) status) eqn:Hdone.
    + intros [= <- <-]. split; [| done].
      eexists. split; [exact Hlog |].
      repeat constructor. cbn [clean]. by rewrite Hreq, Hst, Hdone.
    + destruct (is_str (failStatus p) status) eqn:Hfail; [discriminate |].
      intros Hrest. apply IH in Hrest as [(evs & Hevs & Hclean) Hbudget].
      assert (Hall : log w' = (log w ++ [EvSleep (pollDelay p);
                                EvHttp req (RespOk data)] ++ evs)%list).
      { by rewrite Hevs, Hlog, <- app_assoc. }
      split.
      * eexists. split; [exact Hall |].
        apply Forall_app. split; [| done].
        repeat constructor. cbn [clean]. by rewrite Hreq, Hst, Hdone, Hfail.
      * intros Hb. rewrite (eventsOf_app _ _ _ Hall).
        rewrite <- (Hbudget Hb), (eventsOf_app _ _ _ Hevs).
        change [EvSleep (pollDelay p); EvHttp req (RespOk data)]
          with ([EvSleep (pollDelay p)] ++ [EvHttp req (RespOk data)])%list.
        rewrite !checks_app, checks_sleep, checks_http, Hreq. lia.
Qed.

End Polling.

(** ** Steps that the remote accepts *)

Lemma run_ret {A} (a : A) env w : (mret a : M A) env w = (Return a, w).
Proof. reflexivity. Qed.

Lemma axios_accepted req env w data :
  remote env (log w) req = RespOk data →
  axios req env w = (Return data, exchanged env w req).
Proof. unfold axios. by intros ->. Qed.

Lemma axios_rejected req env w e :
  remote env (log w) req = RespErr e →
  axios req env w = (Throw e, exchanged env w req).
Proof. unfold axios. by intros ->. Qed.



Lemma log_exchanged env w req :
  log (exchanged env w req) = (log w ++ [EvHttp req (remote env (log w) req)])%list.
Proof. reflexivity. Qed.

Lemma run_readFile path env w :
  readFile path env w
  = match readFileSync env path with
    | Some buffer => (Return buffer, w)
    | None => (Throw (newError ("ENOENT: no such file or directory, open '"
                                ++ path ++ "'")), w)
    end.
Proof. unfold readFile. rewrite run_bind. cbn. by destruct (readFileSync env path). Qed.

Lemma run_prop v k env w :
  prop v k env w
  = if nullish v
    then (Throw (newError ("Cannot read properties of " ++ template v
                           ++ " (reading '" ++ k ++ "')")), w)
    else (Return (field_of v k), w).
Proof. unfold prop. by destruct (nullish v). Qed.

Lemma run_throw {A} (e : Error) env w : throw (A := A) e env w = (Throw e, w).
Proof. reflexivity. Qed.

Lemma run_ask env w : ask env w = (Return env, w).
Proof. reflexivity. Qed.

Lemma run_newDate env w : newDate env w = (Return (clock w), w).
Proof. reflexivity. Qed.

Lemma run_sleep ms env w :
  sleep ms env w = (Return (), mkWorld (clock w + ms) (log w ++ [EvSleep ms])).
Proof. reflexivity. Qed.

(** Unfold the monad one layer at a time, at the head of the run. *)
Ltac run :=
  repeat first
    [ rewrite run_bind | rewrite run_ret | rewrite run_try_catch
    | rewrite run_fmap | rewrite run_readFile | rewrite run_prop
    | rewrite run_throw | rewrite run_ask | rewrite run_newDate
    | rewrite run_sleep
    | progress cbn [nullish field_of account fst snd negb]
    | progress cbn beta iota ].

(** Decide which of the requests in the goal are status checks. *)
Ltac settle_checks :=
  repeat match goal with
         | |- context [if ?f ?req then _ else _] =>
             first [ change (f req) with false | change (f req) with true ]
         end.

(** Let the remote accept the request at the head of the run. *)
Ltac accept Hsteps :=
  match goal with
  | |- context [axios ?req ?env ?w] =>
      let fields := fresh "fields" in
      let inner := fresh "inner" in
      let Hresp := fresh "Hresp" in
      let Hdata := fresh "Hdata" in
      destruct (Hsteps (log w) req eq_refl) as (fields & inner & Hresp & Hdata);
      rewrite (axios_accepted req env w _ Hresp);
      run;
      repeat (rewrite Hdata; run)
  end.



(** Instagram video: processing on every status check. *)
Lemma postInstagramVideo_timeout env w userId accessToken content options :
  stepsSucceed igProtocol (remote env) →
  processingForever igProtocol (remote env) →
  ∃ w', postInstagramVideo userId accessToken content options env w
        = (Throw (newError
             "Instagram video posting failed: Video processing timeout"), w')
        ∧ checks igStatusCheck (eventsOf w w') = igMaxAttempts
        ∧ slept (eventsOf w w') = (Z.of_nat igMaxAttempts * igPollDelay)%Z.
Proof.
  intros Hsteps Hrem. unfold postInstagramVideo, axios_post.
  run. accept Hsteps. run. rewrite igPoll_shape.
  match goal with |- context [pollUntil _ _ _ _ env ?w1] =>
    destruct (pollUntil_timeout igProtocol _ _ (newError "Video processing failed")
                (igFetch_fetches (lookup_field "id" fields) accessToken)
                env Hrem igMaxAttempts w1)
      as (w2 & evs & Hpoll & Hlog & Hchecks & _ & Hslept);
    rewrite Hpoll
  end.
  run. eexists. split; [done |].
  rewrite log_exchanged, Hresp, <- app_assoc in Hlog.
  cbn [isCheck pollDelay igProtocol] in Hchecks, Hslept.
  rewrite (eventsOf_app _ _ _ Hlog), checks_app, slept_app, Hchecks, Hslept.
  split; [by rewrite checks_http | cbn; lia].
Qed.

Ltac tiktok_ready Hready :=
  destruct Hready as (Htt & Hconn & Htok & Hmedia & Hfile);
  unfold postToTikTok, axios_post, axios_put;
  run; rewrite Htt; run; rewrite Hconn; run; rewrite Htok; run;
  rewrite Hmedia; change ("video" =? "video")%string with true; run.


(** TikTok: processing on every status check. *)
Lemma postToTikTok_timeout env w user content options tt buffer :
  tiktokReady env user content tt buffer →
  stepsSucceed ttProtocol (remote env) →
  processingForever ttProtocol (remote env) →
  ∃ w', postToTikTok user content options env w
        = (Throw (newError "TikTok posting failed: TikTok publish timeout"), w')
        ∧ checks ttStatusCheck (eventsOf w w') = ttMaxAttempts
        ∧ slept (eventsOf w w') = (Z.of_nat ttMaxAttempts * ttPollDelay)%Z.
Proof.
  intros Hready Hsteps Hrem. tiktok_ready Hready.
  accept Hsteps. run. rewrite Hfile. run. accept Hsteps. run.
  rewrite ttPoll_shape.
  match goal with |- context [pollUntil _ _ _ _ env ?w1] =>
    destruct (pollUntil_timeout ttProtocol _ _ (newError "TikTok publish failed")
                (ttFetch_fetches (lookup_field "publish_id" inner)
                                 (of_opt (accessToken tt)))
                env Hrem ttMaxAttempts w1)
      as (w2 & evs & Hpoll & Hlog & Hchecks & _ & Hslept);
    rewrite Hpoll
  end.
  run. eexists. split; [done |].
  rewrite !log_exchanged, <- !app_assoc in Hlog.
  cbn [isCheck pollDelay ttProtocol] in Hchecks, Hslept.
  rewrite (eventsOf_app _ _ _ Hlog), !checks_app, !slept_app, Hchecks, Hslept.
  split; [| cbn; lia].
  change [EvHttp ?a ?b; EvHttp ?c ?d] with ([EvHttp a b] ++ [EvHttp c d])%list.
  rewrite !checks_http. settle_checks. cbn. lia.
Qed.

(** ** A publish that returns ran clean and reports success *)

(** Case analysis on the answer to the request at the head of the run;
    a rejection ends the run with a throw. *)
Ltac answer :=
  match goal with
  | |- context [axios ?req ?env ?w] =>
      let data := fresh "data" in
      let e := fresh "e" in
      let Hresp := fresh "Hresp" in
      destruct (remote env (log w) req) as [data | e] eqn:Hresp;
      [ rewrite (axios_accepted req env w data Hresp)
      | rewrite (axios_rejected req env w e Hresp); run; discriminate ];
      run
  end.

(** Case analysis on a property read. *)
Ltac read :=
  match goal with
  | H : nullish ?v = _ |- context [if nullish ?v then _ else _] =>
      rewrite H; run
  | |- context [if nullish ?v then _ else _] =>
      let H := fresh "Hnull" in
      destruct (nullish v) eqn:H; run; [discriminate |]
  end.

Ltac clean_steps :=
  repeat first
    [ apply ranClean_refl
    | eapply ranClean_trans;
      [| eapply ranClean_step; [reflexivity | eassumption]] ].

Lemma publishAndLink_Return env w userId accessToken creationId r w' :
  publishAndLink userId accessToken creationId env w = (Return r, w') →
  success r = true ∧ ranClean igProtocol w w'.
Proof.
  unfold publishAndLink, axios_post, axios_get. run.
  answer. read. answer. read.
  intros [= <- <-]. split; [done | clean_steps].
Qed.

Lemma postInstagramImage_Return env w userId accessToken content options r w' :
  postInstagramImage userId accessToken content options env w = (Return r, w') →
  success r = true ∧ ranClean igProtocol w w'.
Proof.
  unfold postInstagramImage, axios_post. run. answer. read.
  destruct (publishAndLink _ _ _ env _) as [[r0 | e] w0] eqn:Hpub;
    run; [| discriminate].
  intros [= <- <-]. apply publishAndLink_Return in Hpub as [Hok Hclean].
  split; [done |]. eapply ranClean_trans; [| exact Hclean]. clean_steps.
Qed.

Lemma postInstagramVideo_Return env w userId accessToken content options r w' :
  postInstagramVideo userId accessToken content options env w = (Return r, w') →
  success r = true ∧ ranClean igProtocol w w'.
Proof.
  unfold postInstagramVideo, axios_post. run. answer. read.
  rewrite igPoll_shape.
  destruct (pollUntil _ _ _ _ env _) as [[isReady | e] w1] eqn:Hpoll;
    run; [| discriminate].
  apply (pollUntil_clean igProtocol _ _ _ (igFetch_fetches _ _)) in Hpoll
    as [Hpolled _].
  destruct isReady; run; [| discriminate].
  destruct (publishAndLink _ _ _ env _) as [[r0 | e] w0] eqn:Hpub;
    run; [| discriminate].
  intros [= <- <-]. apply publishAndLink_Return in Hpub as [Hok Hclean].
  split; [done |].
  eapply ranClean_trans; [| exact Hclean].
  eapply ranClean_trans; [| exact Hpolled]. clean_steps.
Qed.

Lemma postToInstagram_Return env w user content options r w' :
  postToInstagram user content options env w = (Return r, w') →
  success r = true ∧ ranClean igProtocol w w'.
Proof.
  unfold postToInstagram, postInstagramCarousel. run.
  destruct (instagram user) as [ig |]; run; [| discriminate].
  destruct (connected ig); run; [| discriminate].
  destruct (missing (accessToken ig)); run; [discriminate |].
  destruct (expired (expiresAt ig) (clock w)); run; [discriminate |].
  destruct (mediaType content =? "image")%string.
  { destruct (postInstagramImage _ _ _ _ env w) as [[r0 | e] w0] eqn:Himg;
      run; [| discriminate].
    intros [= <- <-]. by eapply postInstagramImage_Return. }
  destruct (mediaType content =? "video")%string.
  { destruct (postInstagramVideo _ _ _ _ env w) as [[r0 | e] w0] eqn:Hvid;
      run; [| discriminate].
    intros [= <- <-]. by eapply postInstagramVideo_Return. }
  destruct (mediaType content =? "carousel")%string; run; discriminate.
Qed.

Lemma postToTikTok_Return env w user content options r w' :
  postToTikTok user content options env w = (Return r, w') →
  success r = true ∧ ranClean ttProtocol w w'.
Proof.
  unfold postToTikTok, axios_post, axios_put. run.
  destruct (tiktok user) as [tt |]; run; [| discriminate].
  destruct (connected tt); run; [| discriminate].
  destruct (missing (accessToken tt)); run; [discriminate |].
  destruct (mediaType content =? "video")%string; run; [| discriminate].
  answer. repeat read.
  destruct (readFileSync env (mediaUrl content)) as [buffer |]; run;
    [| discriminate].
  answer. rewrite ttPoll_shape.
  destruct (pollUntil _ _ _ _ env _) as [[complete | e0] w1] eqn:Hpoll;
    run; [| discriminate].
  apply (pollUntil_clean ttProtocol _ _ _ (ttFetch_fetches _ _)) in Hpoll
    as [Hpolled _].
  destruct complete; run; [| discriminate].
  intros [= <- <-]. split; [done |].
  eapply ranClean_trans; [| exact Hpolled]. clean_steps.
Qed.

(** A run in which some event was not clean did not return. *)
Lemma unclean_run_throws {A} p (out : Outcome A) w w' :
  (∀ a, out = Return a → ranClean p w w') →
  Exists (λ ev, clean p ev = false) (eventsOf w w') →
  ∃ e, out = Throw e.
Proof.
  intros Hret Hbad. destruct out as [a | e]; [| eauto].
  specialize (Hret a eq_refl). apply ranClean_eventsOf in Hret.
  apply Exists_exists in Hbad as (ev & Hin & Hev).
  rewrite Forall_forall in Hret. specialize (Hret ev Hin). congruence.
Qed.

(** ** Unsupported media kinds *)

Lemma postToInstagram_unsupported env w user content options ig :
  instagramReady w user ig →
  mediaType content ≠ "image" → mediaType content ≠ "video" →
  ∃ e, postToInstagram user content options env w = (Throw e, w)
       ∧ (message e = "Carousel posting not yet implemented"
          ∨ message e = "Unsupported media type: " ++ mediaType content).
Proof.
  intros (Hig & Hconn & Htok & Hexp) Himg Hvid.
  unfold postToInstagram, postInstagramCarousel. run.
  rewrite Hig. run. rewrite Hconn. run. rewrite Htok. run. rewrite Hexp.
  apply String.eqb_neq in Himg, Hvid. rewrite Himg, Hvid.
  destruct (mediaType content =? "carousel")%string; run; eauto.
Qed.

Lemma postToTikTok_unsupported env w user content options tt :
  tiktokConnected user tt → mediaType content ≠ "video" →
  postToTikTok user content options env w
  = (Throw (newError "TikTok posting failed: TikTok only supports video content"), w).
Proof.
  intros (Htt & Hconn & Htok) Hvid. unfold postToTikTok. run.
  rewrite Htt. run. rewrite Hconn. run. rewrite Htok. run.
  apply String.eqb_neq in Hvid. by rewrite Hvid.
Qed.

(** ** Dispatch on the media kind *)

Lemma postToInstagram_video env w user content options ig :
  instagramReady w user ig → mediaType content = "video" →
  postToInstagram user content options env w
  = postInstagramVideo (of_opt (userId ig)) (of_opt (accessToken ig))
      content options env w.
Proof.
  intros (Hig & Hconn & Htok & Hexp) Hvid. unfold postToInstagram. run.
  rewrite Hig. run. rewrite Hconn. run. rewrite Htok. run. rewrite Hexp, Hvid.
  change ("video" =? "image")%string with false.
  change ("video" =? "video")%string with true. cbn beta iota.
  by destruct (postInstagramVideo _ _ _ _ env w) as [[r | e] w'].
Qed.

(** ** Both platforms *)

(** The aggregate is made of the two attempts, each run to its end, the
    second from the world the first one left. *)
Lemma bothOf_run (first second : M PublishResult) env w :
  bothOf first second env w
  = (Return (Both (attempted (first env w).1)
                  (attempted (second env (first env w).2).1)
                  (reported "instagram" (first env w).1
                   ++ reported "tiktok" (second env (first env w).2).1)),
     (second env (first env w).2).2).
Proof.
  unfold bothOf. run.
  destruct (first env w) as [[r1 | e1] w1]; run;
    destruct (second env w1) as [[r2 | e2] w2]; run; reflexivity.
Qed.

Lemma bothOf_aggregates (first second : M PublishResult) :
  aggregates (bothOf first second) first second.
Proof.
  intros env w. cbv zeta. rewrite bothOf_run.
  split; intros x y Ha Hb; by rewrite Ha, Hb.
Qed.

(** A call for one named platform never reaches the 'both' branch. *)
Lemma postWithProfileVia_single toBoth toBoth' profileId content options
    (platformName : string) env w :
  platformName = "instagram" ∨ platformName = "tiktok" →
  postWithProfileVia toBoth profileId content
    (withPlatform platformName options) env w
  = postWithProfileVia toBoth' profileId content
      (withPlatform platformName options) env w.
Proof.
  intros Hname. unfold postWithProfileVia. run.
  destruct (findProfile env profileId) as [profile |]; [| done].
  assert (Hp : platformOf (withPlatform platformName options) content
               = platformName) by (by destruct Hname as [-> | ->]).
  rewrite Hp. run.
  destruct (getCredentialsForProfile _ _ env w) as [[[credentials |] | e] w1];
    [| done | done].
  destruct (negb (connected credentials)); [done |].
  by destruct Hname as [-> | ->].
Qed.

Lemma postToBothWithProfile_closed profileId content options env w :
  postToBothWithProfile profileId content options env w
  = bothOf (postWithProfile profileId content (withPlatform "instagram" options))
           (postWithProfile profileId content (withPlatform "tiktok" options))
           env w.
Proof.
  unfold postToBothWithProfile, postToBothWithProfileVia, postWithProfile.
  rewrite !bothOf_run.
  rewrite (postWithProfileVia_single _ postToBothWithProfile _ _ _ "instagram")
    by auto.
  set (w1 := (postWithProfileVia _ _ _ _ env w).2).
  rewrite (postWithProfileVia_single _ postToBothWithProfile _ _ _ "tiktok" env w1)
    by auto.
  reflexivity.
Qed.

(** ** The test doubles behave as their names say *)

Lemma mockRemote_steps p n : stepsSucceed p (mockRemote p n).
Proof.
  intros h req Hreq. unfold mockRemote. rewrite Hreq.
  eexists _, _. split; reflexivity.
Qed.



Lemma mockRemote_tt n : processingThenDone ttProtocol n (mockRemote ttProtocol n).
Proof.
  intros h req Hreq. unfold mockRemote. rewrite Hreq. split; intros Hc.
  - apply Nat.ltb_lt in Hc. rewrite Hc. by exists (JStr "IN_PROGRESS").
  - rewrite Hc, Nat.ltb_irrefl. by exists (JStr "PUBLISH_COMPLETE").
Qed.

Lemma stuckRemote_ig : processingForever igProtocol (stuckRemote igProtocol).
Proof. intros h req Hreq. by exists (JStr "IN_PROGRESS"). Qed.


(** ** The properties of the specification *)

(** The part of C1 that the code keeps.  A publish whose Instagram
    connection is not connected, or has an [expiresAt] in the past, and
    a publish whose TikTok connection is not connected, fail with a
    credential error before any request is sent: the world is as it
    was, with zero transport invocations. *)
Theorem credentials_checked_before_any_call env w user content options :
  (∀ ig, instagram user = Some ig →
     connected ig = false ∨ expired (expiresAt ig) (clock w) = true →
     ∃ e, postToInstagram user content options env w = (Throw e, w)
          ∧ message e ∈ credentialErrors
          ∧ callsDuring (postToInstagram user content options) env w = 0%nat)
  ∧ (∀ tt, tiktok user = Some tt → connected tt = false →
     ∃ e, postToTikTok user content options env w = (Throw e, w)
          ∧ message e ∈ credentialErrors
          ∧ callsDuring (postToTikTok user content options) env w = 0%nat).
Proof.
  split.
  - intros ig Hig [Hc | Hexp].
    + eexists. split_and!.
      * by apply (postToInstagram_not_connected _ _ _ _ _ ig).
      * repeat constructor.
      * eapply callsDuring_unchanged.
        by apply (postToInstagram_not_connected _ _ _ _ _ ig).
    + destruct (postToInstagram_expired env w user content options ig Hig Hexp)
        as (e & Hrun & Hmsg).
      exists e. split_and!; [done | done |].
      by eapply callsDuring_unchanged.
  - intros tt Htt Hc. eexists. split_and!.
    + by apply (postToTikTok_not_connected _ _ _ _ _ tt).
    + repeat constructor.
    + eapply callsDuring_unchanged.
      by apply (postToTikTok_not_connected _ _ _ _ _ tt).
Qed.

Lemma credentials_checked_before_any_call_witness :
  ∃ e, postToInstagram (someUser true (Some 5)) (someContent "image") noOptions
         (mockEnv (mockRemote igProtocol 0)) (freshWorld 100)
       = (Throw e, freshWorld 100)
       ∧ message e ∈ credentialErrors
       ∧ callsDuring (postToInstagram (someUser true (Some 5))
                        (someContent "image") noOptions)
           (mockEnv (mockRemote igProtocol 0)) (freshWorld 100) = 0%nat.
Proof.
  refine (proj1 (credentials_checked_before_any_call
                   (mockEnv (mockRemote igProtocol 0)) (freshWorld 100)
                   (someUser true (Some 5)) (someContent "image") noOptions)
            (someAccount true (Some 5)) eq_refl _).
  right. reflexivity.
Defined.

(** C1 fails on the TikTok path.  [postToInstagram] checks the expiry
    of the token and throws before any request; [postToTikTok] makes no
    such check: with the same connection, whose [expiresAt] is in the
    past, the publish goes to the remote (three requests against a
    remote that accepts them) and succeeds. *)
Lemma tiktok_publishes_with_expired_token :
  expired (expiresAt (someAccount true (Some 5))) (clock (freshWorld 100)) = true
  ∧ postToInstagram (someUser true (Some 5)) (someContent "video") noOptions
      (mockEnv (mockRemote ttProtocol 0)) (freshWorld 100)
    = (Throw (newError
         "Instagram access token expired. Please reconnect your account."),
       freshWorld 100)
  ∧ (postToTikTok (someUser true (Some 5)) (someContent "video") noOptions
       (mockEnv (mockRemote ttProtocol 0)) (freshWorld 100)).1
    = Return (mkPostResult true "tiktok" (JStr "v_pub_1")
                (JStr "https://www.tiktok.com/@alice/video/v_pub_1") 5100)
  ∧ callsDuring (postToTikTok (someUser true (Some 5)) (someContent "video")
                   noOptions)
      (mockEnv (mockRemote ttProtocol 0)) (freshWorld 100) = 3%nat.
Proof. split_and!; vm_compute; reflexivity. Qed.



(** C3.  When one platform's publish returns and the other's throws,
    the aggregate holds the result that was returned, in full, and one
    [errors] entry with the failing platform's name and message; and the
    TikTok attempt is the one the method would make by itself from the
    world the Instagram attempt left, whether that attempt returned or
    threw.  This holds for [postToBoth] and for [postToBothWithProfile]. *)
Theorem one_failure_keeps_the_other_result user profileId content options :
  aggregates (postToBoth user content options)
             (Single <$> postToInstagram user content options)
             (Single <$> postToTikTok user content options)
  ∧ aggregates (postToBothWithProfile profileId content options)
               (postWithProfile profileId content (withPlatform "instagram" options))
               (postWithProfile profileId content (withPlatform "tiktok" options)).
Proof.
  split.
  - apply bothOf_aggregates.
  - intros env w. cbv zeta. rewrite postToBothWithProfile_closed.
    apply bothOf_aggregates.
Qed.

Lemma one_failure_keeps_the_other_result_witness :
  (postToBoth (someUser true None) (someContent "image") noOptions
     (mockEnv (mockRemote igProtocol 0)) (freshWorld 100)).1
  = Return (Both (Some (Single (mkPostResult true "instagram" (JStr "17900")
                          (JStr "https://www.instagram.com/p/17900/") 100)))
                 None
                 [("tiktok",
                   "TikTok posting failed: TikTok only supports video content")]).
Proof.
  refine (f_equal fst
            (proj1 (proj1 (one_failure_keeps_the_other_result
                             (someUser true None) "" (someContent "image")
                             noOptions)
                      (mockEnv (mockRemote igProtocol 0)) (freshWorld 100))
               (Single (mkPostResult true "instagram" (JStr "17900")
                          (JStr "https://www.instagram.com/p/17900/") 100))
               (newError "TikTok posting failed: TikTok only supports video content")
               _ _)); vm_compute; reflexivity.
Defined.

(** C4, as the code has it.  A single-platform publish signals every
    expected failure by throwing an [Error] to its caller, and never by
    a returned value: what it returns reports success, after a run in
    which no request was rejected and no status check reported failure.
    It throws when the credentials are not connected or (Instagram)
    expired, when the media kind is not supported, when the remote
    rejects a request or reports that processing failed, and when the
    poll budget runs out. *)
Theorem expected_failures_are_thrown env w user content options :
  (∀ r w', postToInstagram user content options env w = (Return r, w') →
     success r = true ∧ Forall (λ ev, clean igProtocol ev = true) (eventsOf w w'))
  ∧ (∀ r w', postToTikTok user content options env w = (Return r, w') →
     success r = true ∧ Forall (λ ev, clean ttProtocol ev = true) (eventsOf w w'))
  ∧ (Exists (λ ev, clean igProtocol ev = false)
       (eventsOf w (postToInstagram user content options env w).2) →
     ∃ e, (postToInstagram user content options env w).1 = Throw e)
  ∧ (Exists (λ ev, clean ttProtocol ev = false)
       (eventsOf w (postToTikTok user content options env w).2) →
     ∃ e, (postToTikTok user content options env w).1 = Throw e)
  ∧ (∀ ig, instagram user = Some ig →
     connected ig = false ∨ expired (expiresAt ig) (clock w) = true →
     ∃ e, postToInstagram user content options env w = (Throw e, w)
          ∧ message e ∈ credentialErrors)
  ∧ (∀ tt, tiktok user = Some tt → connected tt = false →
     postToTikTok user content options env w
     = (Throw (newError "TikTok posting failed: TikTok account not connected"), w))
  ∧ (∀ ig, instagramReady w user ig →
     mediaType content ≠ "image" → mediaType content ≠ "video" →
     ∃ e, postToInstagram user content options env w = (Throw e, w)
          ∧ (message e = "Carousel posting not yet implemented"
             ∨ message e = "Unsupported media type: " ++ mediaType content))
  ∧ (∀ tt, tiktokConnected user tt → mediaType content ≠ "video" →
     postToTikTok user content options env w
     = (Throw (newError
          "TikTok posting failed: TikTok only supports video content"), w))
  ∧ (∀ ig, instagramReady w user ig → mediaType content = "video" →
     stepsSucceed igProtocol (remote env) →
     processingForever igProtocol (remote env) →
     ∃ w', postToInstagram user content options env w
           = (Throw (newError
                "Instagram video posting failed: Video processing timeout"), w'))
  ∧ (∀ tt buffer, tiktokReady env user content tt buffer →
     stepsSucceed ttProtocol (remote env) →
     processingForever ttProtocol (remote env) →
     ∃ w', postToTikTok user content options env w
           = (Throw (newError "TikTok posting failed: TikTok publish timeout"), w')).
Proof.
  split_and!.
  - intros r w' Hrun. apply postToInstagram_Return in Hrun as [Hok Hclean].
    split; [done | by apply ranClean_eventsOf].
  - intros r w' Hrun. apply postToTikTok_Return in Hrun as [Hok Hclean].
    split; [done | by apply ranClean_eventsOf].
  - apply unclean_run_throws. intros r Hr.
    destruct (postToInstagram user content options env w) as [out w'] eqn:Hrun.
    cbn in Hr. subst out. by apply postToInstagram_Return in Hrun as [_ ?].
  - apply unclean_run_throws. intros r Hr.
    destruct (postToTikTok user content options env w) as [out w'] eqn:Hrun.
    cbn in Hr. subst out. by apply postToTikTok_Return in Hrun as [_ ?].
  - intros ig Hig [Hc | Hexp].
    + eexists. split; [by apply (postToInstagram_not_connected _ _ _ _ _ ig) |].
      repeat constructor.
    + by apply (postToInstagram_expired _ _ _ _ _ ig).
  - intros tt Htt Hc. by apply (postToTikTok_not_connected _ _ _ _ _ tt).
  - intros ig Hready Himg Hvid.
    by apply (postToInstagram_unsupported _ _ _ _ _ ig).
  - intros tt Hconn Hvid. by apply (postToTikTok_unsupported _ _ _ _ _ tt).
  - intros ig Hready Hvid Hsteps Hrem.
    rewrite (postToInstagram_video env w user content options ig Hready Hvid).
    destruct (postInstagramVideo_timeout env w (of_opt (userId ig))
                (of_opt (accessToken ig)) content options Hsteps Hrem)
      as (w' & Hrun & _).
    eauto.
  - intros tt buffer Hready Hsteps Hrem.
    destruct (postToTikTok_timeout env w user content options tt buffer
                Hready Hsteps Hrem) as (w' & Hrun & _).
    eauto.
Qed.

Lemma expected_failures_are_thrown_witness :
  ∃ e, (postToInstagram (someUser true None) (someContent "image") noOptions
          (mockEnv rejectingRemote) (freshWorld 100)).1 = Throw e.
Proof.
  refine (proj1 (proj2 (proj2 (expected_failures_are_thrown
                     (mockEnv rejectingRemote) (freshWorld 100)
                     (someUser true None) (someContent "image") noOptions))) _).
  vm_compute. constructor. reflexivity.
Defined.

(** C4 as claimed fails: a publish with a connection that is not
    connected does not return a failure result, it throws; so does a
    publish that the remote rejects. *)
Lemma publish_failure_is_not_a_result :
  (postToInstagram (someUser false None) (someContent "image") noOptions
     (mockEnv rejectingRemote) (freshWorld 100)).1
  = Throw (newError "Instagram account not connected")
  ∧ (postToTikTok (someUser false None) (someContent "video") noOptions
       (mockEnv rejectingRemote) (freshWorld 100)).1
    = Throw (newError "TikTok posting failed: TikTok account not connected")
  ∧ (postToInstagram (someUser true None) (someContent "image") noOptions
       (mockEnv rejectingRemote) (freshWorld 100)).1
    = Throw (newError "Instagram posting failed: Invalid OAuth access token").
Proof. split_and!; vm_compute; reflexivity. Qed.

(* --------------------------------------------------------------------- *)
(** ** Further properties of the service *)

(** ** Bounds that compose *)

Lemma within_weaken {A} (m : M A) (n n' : nat) (t t' : Z) :
  within n t m → (n ≤ n')%nat → (t ≤ t')%Z → within n' t' m.
Proof.
  intros Hm Hn Ht env w. destruct (Hm env w) as (evs & Hlog & Hc & Hs).
  exists evs. split_and!; [done | lia | lia | lia].
Qed.

Lemma within_pure {A} (m : M A) (n : nat) (t : Z) :
  (∀ env w, (m env w).2 = w) → (0 ≤ t)%Z → within n t m.
Proof.
  intros Hm Ht env w. exists []. rewrite Hm, app_nil_r. cbn.
  split_and!; [done | lia | lia | lia].
Qed.

Lemma within_ret {A} (a : A) n t : (0 ≤ t)%Z → within n t (mret a : M A).
Proof. by apply within_pure. Qed.

Lemma within_throw {A} (e : Error) n t :
  (0 ≤ t)%Z → within n t (throw (A := A) e).
Proof. by apply within_pure. Qed.

Lemma within_bind {A B} (m : M A) (f : A → M B) n1 t1 n2 t2 :
  within n1 t1 m → (∀ a, within n2 t2 (f a)) → (0 ≤ t2)%Z →
  within (n1 + n2) (t1 + t2) (m ≫= f).
Proof.
  intros Hm Hf Ht2 env w. rewrite run_bind.
  destruct (Hm env w) as (evs1 & Hlog1 & Hc1 & Hs1).
  destruct (m env w) as [[a | e] w1]; cbn [snd] in *.
  - destruct (Hf a env w1) as (evs2 & Hlog2 & Hc2 & Hs2).
    exists (evs1 ++ evs2)%list.
    rewrite Hlog2, Hlog1, httpCalls_app, slept_app, app_assoc.
    split_and!; [done | lia | lia | lia].
  - exists evs1. split_and!; [done | lia | lia | lia].
Qed.

Lemma within_try {A} (m : M A) (handler : Error → M A) n1 t1 n2 t2 :
  within n1 t1 m → (∀ e, within n2 t2 (handler e)) → (0 ≤ t2)%Z →
  within (n1 + n2) (t1 + t2) (try_catch m handler).
Proof.
  intros Hm Hh Ht2 env w. rewrite run_try_catch.
  destruct (Hm env w) as (evs1 & Hlog1 & Hc1 & Hs1).
  destruct (m env w) as [[a | e] w1]; cbn [snd] in *.
  - exists evs1. split_and!; [done | lia | lia | lia].
  - destruct (Hh e env w1) as (evs2 & Hlog2 & Hc2 & Hs2).
    exists (evs1 ++ evs2)%list.
    rewrite Hlog2, Hlog1, httpCalls_app, slept_app, app_assoc.
    split_and!; [done | lia | lia | lia].
Qed.

Lemma within_fmap {A B} (f : A → B) (m : M A) n t :
  within n t m → within n t (f <$> m).
Proof.
  intros Hm env w. rewrite run_fmap.
  destruct (Hm env w) as (evs & Hlog & Hrest).
  exists evs. by destruct (m env w) as [[a | e] w1].
Qed.

Lemma httpCalls_http req resp : httpCalls [EvHttp req resp] = 1%nat.
Proof. reflexivity. Qed.

Lemma httpCalls_sleep ms : httpCalls [EvSleep ms] = 0%nat.
Proof. reflexivity. Qed.

Lemma within_axios req : within 1 0 (axios req).
Proof.
  intros env w. exists [EvHttp req (remote env (log w) req)].
  rewrite httpCalls_http.
  unfold axios, exchanged. destruct (remote env (log w) req); cbn;
    split_and!; (done || lia).
Qed.

Lemma within_sleep ms : (0 ≤ ms)%Z → within 0 ms (sleep ms).
Proof.
  intros Hms env w. exists [EvSleep ms]. rewrite httpCalls_sleep. cbn.
  split_and!; (done || lia).
Qed.

(** A step that leaves the world alone costs nothing. *)
Lemma within_bind_pure {A B} (m : M A) (f : A → M B) n t :
  (∀ env w, (m env w).2 = w) → (∀ a, within n t (f a)) → (0 ≤ t)%Z →
  within n t (m ≫= f).
Proof.
  intros Hm Hf Ht.
  apply (within_weaken _ (0 + n) n (0 + t) t); [| lia | lia].
  apply within_bind; [by apply within_pure | done | done].
Qed.

Lemma within_bind_axios {B} req (f : json → M B) n t :
  (∀ data, within n t (f data)) → (0 ≤ t)%Z →
  within (S n) t (axios req ≫= f).
Proof.
  intros Hf Ht.
  apply (within_weaken _ (1 + n) (S n) (0 + t) t); [| lia | lia].
  apply within_bind; [apply within_axios | done | done].
Qed.

Lemma within_bind_sleep {B} ms (f : () → M B) n t :
  (0 ≤ ms)%Z → (∀ u, within n t (f u)) → (0 ≤ t)%Z →
  within n (ms + t) (sleep ms ≫= f).
Proof.
  intros Hms Hf Ht.
  apply (within_weaken _ (0 + n) n (ms + t) (ms + t)); [| lia | lia].
  apply within_bind; [by apply within_sleep | done | done].
Qed.

Lemma within_try_rethrow {A} (m : M A) (wrap : Error → Error) n t :
  within n t m → within n t (try_catch m (λ error, throw (wrap error))).
Proof.
  intros Hm.
  apply (within_weaken _ (n + 0) n (t + 0) t); [| lia | lia].
  apply within_try; [done | | done]. intros e. by apply within_throw.
Qed.

Lemma prop_pure v k env w : (prop v k env w).2 = w.
Proof. rewrite run_prop. by destruct (nullish v). Qed.

Lemma readFile_pure path env w : (readFile path env w).2 = w.
Proof. rewrite run_readFile. by destruct (readFileSync env path). Qed.

Lemma account_pure a key env w : (account a key env w).2 = w.
Proof. by destruct a. Qed.

Lemma getCredentialsForProfile_pure profileId platformName env w :
  (getCredentialsForProfile profileId platformName env w).2 = w.
Proof.
  unfold getCredentialsForProfile. rewrite run_bind, run_ask.
  by destruct (findProfile env profileId).
Qed.

(** Bound a run step by step: free steps cost nothing, a request costs
    one. *)
Ltac free_step :=
  intros;
  first [ reflexivity | apply prop_pure | apply readFile_pure
        | apply account_pure | apply getCredentialsForProfile_pure ].

Ltac bound :=
  repeat first
    [ apply within_ret; lia
    | apply within_throw; lia
    | apply within_bind_axios; [intros | lia]
    | apply within_bind_pure; [free_step | intros | lia]
    | match goal with
      | |- within _ _ (if ?b then _ else _) => destruct b
      | |- within _ _ (match ?x with _ => _ end) => destruct x
      end ].

(** ** The cost of each method *)

Lemma publishAndLink_within userId accessToken creationId :
  within 2 0 (publishAndLink userId accessToken creationId).
Proof. unfold publishAndLink. bound. Qed.

Lemma postInstagramImage_within userId accessToken content options :
  within 3 0 (postInstagramImage userId accessToken content options).
Proof.
  unfold postInstagramImage. apply within_try_rethrow. bound.
Qed.

Lemma igPoll_within n creationId accessToken :
  within n (Z.of_nat n * igPollDelay) (igPoll n creationId accessToken).
Proof.
  induction n as [| n IH]; [by apply within_ret |].
  cbn [igPoll].
  replace (Z.of_nat (S n) * igPollDelay)%Z
    with (igPollDelay + Z.of_nat n * igPollDelay)%Z by lia.
  apply within_bind_sleep; [done | intros _ | unfold igPollDelay; lia].
  assert (0 ≤ Z.of_nat n * igPollDelay)%Z by (unfold igPollDelay; lia).
  bound. eapply within_weaken; [exact IH | lia | lia].
Qed.

Lemma postInstagramVideo_within userId accessToken content options :
  within 23 120000 (postInstagramVideo userId accessToken content options).
Proof.
  unfold postInstagramVideo. apply within_try_rethrow. bound.
  apply (within_bind _ _ 20 120000 2 0); [apply igPoll_within | | done].
  intros isReady. bound.
Qed.

Lemma postToInstagram_within user content options :
  within 23 120000 (postToInstagram user content options).
Proof.
  unfold postToInstagram. apply within_try_rethrow. bound.
  - eapply within_weaken; [apply postInstagramImage_within | lia | lia].
  - apply postInstagramVideo_within.
Qed.

Lemma postToInstagram_image_within user content options :
  mediaType content = "image" →
  within 3 0 (postToInstagram user content options).
Proof.
  intros Himage. unfold postToInstagram. rewrite Himage.
  change ("image" =? "image")%string with true. cbv iota.
  apply within_try_rethrow. bound. apply postInstagramImage_within.
Qed.

Lemma ttPoll_within n publishId accessToken :
  within n (Z.of_nat n * ttPollDelay) (ttPoll n publishId accessToken).
Proof.
  induction n as [| n IH]; [by apply within_ret |].
  cbn [ttPoll].
  replace (Z.of_nat (S n) * ttPollDelay)%Z
    with (ttPollDelay + Z.of_nat n * ttPollDelay)%Z by lia.
  apply within_bind_sleep; [done | intros _ | unfold ttPollDelay; lia].
  assert (0 ≤ Z.of_nat n * ttPollDelay)%Z by (unfold ttPollDelay; lia).
  bound. eapply within_weaken; [exact IH | lia | lia].
Qed.

Lemma postToTikTok_within user content options :
  within 32 150000 (postToTikTok user content options).
Proof.
  unfold postToTikTok. apply within_try_rethrow. bound.
  apply (within_bind _ _ 30 150000 0 0); [apply ttPoll_within | | done].
  intros publishComplete. bound.
Qed.

Lemma bothOf_within (first second : M PublishResult) n1 t1 n2 t2 :
  within n1 t1 first → within n2 t2 second →
  within (n1 + n2) (t1 + t2) (bothOf first second).
Proof.
  intros H1 H2 env w. rewrite bothOf_run. cbn [snd].
  destruct (H1 env w) as (evs1 & Hlog1 & Hc1 & Hs1).
  destruct (H2 env (first env w).2) as (evs2 & Hlog2 & Hc2 & Hs2).
  exists (evs1 ++ evs2)%list.
  rewrite Hlog2, Hlog1, httpCalls_app, slept_app, app_assoc.
  split_and!; [done | lia | lia | lia].
Qed.

Lemma postToBoth_within user content options :
  within 55 270000 (postToBoth user content options).
Proof.
  apply (bothOf_within _ _ 23 120000 32 150000); apply within_fmap.
  - apply postToInstagram_within.
  - apply postToTikTok_within.
Qed.

Lemma postWithProfileVia_within toBoth profileId content options n t :
  (32 ≤ n)%nat → (150000 ≤ t)%Z →
  (∀ profileId content options, within n t (toBoth profileId content options)) →
  within n t (postWithProfileVia toBoth profileId content options).
Proof.
  intros Hn Ht Hboth. unfold postWithProfileVia. bound.
  - eapply within_weaken;
      [apply within_fmap, postToInstagram_within | lia | lia].
  - eapply within_weaken;
      [apply within_fmap, postToTikTok_within | lia | lia].
  - apply Hboth.
Qed.

Lemma postToBothWithProfile_within profileId content options :
  within 55 270000 (postToBothWithProfile profileId content options).
Proof.
  unfold postToBothWithProfile, postToBothWithProfileVia.
  apply (bothOf_within _ _ 23 120000 32 150000).
  - unfold postWithProfileVia.
    change (platformOf (withPlatform "instagram" options) content)
      with "instagram".
    change ("instagram" =? "instagram")%string with true. cbv iota.
    bound. apply within_fmap, postToInstagram_within.
  - unfold postWithProfileVia.
    change (platformOf (withPlatform "tiktok" options) content)
      with "tiktok".
    change ("tiktok" =? "instagram")%string with false.
    change ("tiktok" =? "tiktok")%string with true. cbv iota.
    bound. apply within_fmap, postToTikTok_within.
Qed.

(** X18.  Whatever the remote answers, a publish sends at most 23 requests and
    waits at most 120 seconds on Instagram (3 requests and no wait for
    an image), at most 32 requests and 150 seconds on TikTok, and at
    most 55 requests and 270 seconds for both platforms, with a user's
    or with a profile's credentials; and it only adds to the log. *)
Theorem publish_stays_within_its_budget user profileId content options :
  within 23 120000 (postToInstagram user content options)
  ∧ (mediaType content = "image" →
     within 3 0 (postToInstagram user content options))
  ∧ within 32 150000 (postToTikTok user content options)
  ∧ within 55 270000 (postToBoth user content options)
  ∧ within 55 270000 (postToBothWithProfile profileId content options)
  ∧ within 55 270000 (postWithProfile profileId content options).
Proof.
  split_and!.
  - apply postToInstagram_within.
  - apply postToInstagram_image_within.
  - apply postToTikTok_within.
  - apply postToBoth_within.
  - apply postToBothWithProfile_within.
  - apply postWithProfileVia_within; [lia | lia |].
    apply postToBothWithProfile_within.
Qed.


(** ** What a returned result has been through *)

Section PollingToDone.

Context (p : Protocol) (req : Request) (fetch : M json) (failure : Error).
Hypothesis Hfetch : fetches p req fetch.

Lemma pollUntil_true env n w w' :
  pollUntil p fetch failure n env w = (Return true, w') →
  ∃ evs, log w' = (log w ++ evs)%list ∧ polled p req n evs.
Proof.
  destruct Hfetch as [Hreq Hrun].
  revert w. induction n as [| n IH]; intros w; [discriminate |].
  rewrite pollUntil_step.
  set (w1 := mkWorld _ _). specialize (Hrun env w1).
  destruct (statusOf p (remote env (log w1) req)) as [status |] eqn:Hst.
  2:{ destruct Hrun as [e ->]. discriminate. }
  rewrite Hrun.
  assert (Hlog : log (exchanged env w1 req)
                 = (log w ++ [EvSleep (pollDelay p);
                              EvHttp req (remote env (log w1) req)])%list).
  { unfold exchanged. subst w1. cbn [log]. by rewrite <- app_assoc. }
  destruct (is_str (doneStatus p) status) eqn:Hdone.
  - intros [= <-]. eexists. split; [exact Hlog |].
    exists [], (remote env (log w1) req). split_and!; [done | done | | cbn; lia].
    cbn [answeredDone]. by rewrite Hreq, Hst, Hdone.
  - destruct (is_str (failStatus p) status); [discriminate |].
    intros (evs & Hevs & (resps & resp & -> & Hnot & Hlast & Hlen))%IH.
    eexists. split; [by rewrite Hevs, Hlog, <- app_assoc |].
    exists (remote env (log w1) req :: resps), resp.
    split_and!; [done | | done | cbn; lia].
    constructor; [| done].
    cbn [answeredDone]. by rewrite Hreq, Hst, Hdone.
Qed.

End PollingToDone.

(** X19.  An Instagram video publish that returns has created a container,
    polled its status until the remote reported FINISHED (within 20
    rounds of a 6 s wait and a check), and only then sent the publish
    request, for that same container; the result carries the post id
    and the permalink the remote answered. *)
Theorem video_is_published_after_it_finished
    env w userId accessToken content options r w' :
  postInstagramVideo userId accessToken content options env w = (Return r, w') →
  ∃ container created polls publish published link linked,
    eventsOf w w'
    = (EvHttp container (RespOk created) :: polls
       ++ [EvHttp publish (RespOk published); EvHttp link (RespOk linked)])%list
    ∧ polled igProtocol (igStatusRequest (field_of created "id") accessToken)
             20 polls
    ∧ url publish = graph ++ template userId ++ "/media_publish"
    ∧ field_of (body publish) "creation_id" = field_of created "id"
    ∧ r_postId r = field_of published "id"
    ∧ r_postUrl r = field_of linked "permalink".
Proof.
  unfold postInstagramVideo, axios_post. run. answer. read.
  rewrite igPoll_shape.
  destruct (pollUntil _ _ _ _ env _) as [[isReady | e] w1] eqn:Hpoll;
    run; [| discriminate].
  destruct isReady; run; [| discriminate].
  apply (pollUntil_true igProtocol _ _ _ (igFetch_fetches _ _)) in Hpoll
    as (polls & Hlog1 & Hpolled).
  unfold publishAndLink, axios_post, axios_get. run.
  answer. read. answer. read.
  intros [= <- <-].
  eexists _, data, polls, _, data0, _, data1.
  split_and!; [| exact Hpolled | | | |].
  - apply eventsOf_app.
    rewrite log_exchanged, Hresp1, log_exchanged, Hresp0, Hlog1,
      log_exchanged, Hresp.
    rewrite <- !app_assoc. reflexivity.
  - done.
  - done.
  - done.
  - done.
Qed.

Lemma video_is_published_after_it_finished_witness :
  ∃ container created polls publish published link linked,
    eventsOf (freshWorld 0)
      (postInstagramVideo (JStr "u1") (JStr "token") (someContent "video")
         noOptions (mockEnv (mockRemote igProtocol 2)) (freshWorld 0)).2
    = (EvHttp container (RespOk created) :: polls
       ++ [EvHttp publish (RespOk published); EvHttp link (RespOk linked)])%list
    ∧ polled igProtocol
             (igStatusRequest (field_of created "id") (JStr "token")) 20 polls
    ∧ url publish = graph ++ template (JStr "u1") ++ "/media_publish"
    ∧ field_of (body publish) "creation_id" = field_of created "id"
    ∧ r_postId (mkPostResult true "instagram" (JStr "17900")
                  (JStr "https://www.instagram.com/p/17900/") 18000)
      = field_of published "id"
    ∧ r_postUrl (mkPostResult true "instagram" (JStr "17900")
                   (JStr "https://www.instagram.com/p/17900/") 18000)
      = field_of linked "permalink".
Proof.
  apply (video_is_published_after_it_finished
           (mockEnv (mockRemote igProtocol 2)) (freshWorld 0)
           (JStr "u1") (JStr "token") (someContent "video") noOptions).
  vm_compute. reflexivity.
Defined.

(** X20.  A TikTok publish that returns has initialised the upload, sent the
    file to the upload URL it was given, and polled the status of that
    upload until the remote reported PUBLISH_COMPLETE, within 30 rounds
    of a 5 s wait and a check; the result carries the publish id of the
    initialisation. *)
Theorem tiktok_result_follows_publish_complete
    env w user content options r w' :
  postToTikTok user content options env w = (Return r, w') →
  ∃ tt buffer init initialised upload uploaded polls,
    tiktokReady env user content tt buffer
    ∧ eventsOf w w'
      = (EvHttp init (RespOk initialised) :: EvHttp upload (RespOk uploaded)
         :: polls)%list
    ∧ polled ttProtocol
             (ttStatusRequest (r_postId r) (of_opt (accessToken tt))) 30 polls
    ∧ r_postId r = field_of (field_of initialised "data") "publish_id"
    ∧ url upload = template (field_of (field_of initialised "data") "upload_url")
    ∧ body upload = JStr buffer.
Proof.
  unfold postToTikTok, axios_post, axios_put. run.
  destruct (tiktok user) as [tt |] eqn:Htt; run; [| discriminate].
  destruct (connected tt) eqn:Hconn; run; [| discriminate].
  destruct (missing (accessToken tt)) eqn:Htok; run; [discriminate |].
  destruct (mediaType content =? "video")%string eqn:Hmedia; run;
    [| discriminate].
  answer. repeat read.
  destruct (readFileSync env (mediaUrl content)) as [buffer |] eqn:Hfile; run;
    [| discriminate].
  answer. rewrite ttPoll_shape.
  destruct (pollUntil _ _ _ _ env _) as [[complete | e0] w1] eqn:Hpoll;
    run; [| discriminate].
  destruct complete; run; [| discriminate].
  apply (pollUntil_true ttProtocol _ _ _ (ttFetch_fetches _ _)) in Hpoll
    as (polls & Hlog1 & Hpolled).
  intros [= <- <-].
  eexists tt, buffer, _, data, _, data0, polls.
  split_and!; [| | exact Hpolled | | |].
  - split_and!; try done. by apply String.eqb_eq.
  - apply eventsOf_app.
    rewrite Hlog1, log_exchanged, Hresp0, log_exchanged, Hresp.
    rewrite <- !app_assoc. reflexivity.
  - done.
  - done.
  - done.
Qed.

Lemma tiktok_result_follows_publish_complete_witness :
  ∃ tt buffer init initialised upload uploaded polls,
    tiktokReady (mockEnv (mockRemote ttProtocol 1)) (someUser true None)
                (someContent "video") tt buffer
    ∧ eventsOf (freshWorld 0)
        (postToTikTok (someUser true None) (someContent "video") noOptions
           (mockEnv (mockRemote ttProtocol 1)) (freshWorld 0)).2
      = (EvHttp init (RespOk initialised) :: EvHttp upload (RespOk uploaded)
         :: polls)%list
    ∧ polled ttProtocol
        (ttStatusRequest
           (r_postId (mkPostResult true "tiktok" (JStr "v_pub_1")
                        (JStr "https://www.tiktok.com/@alice/video/v_pub_1")
                        10000))
           (of_opt (accessToken tt))) 30 polls
    ∧ r_postId (mkPostResult true "tiktok" (JStr "v_pub_1")
                  (JStr "https://www.tiktok.com/@alice/video/v_pub_1") 10000)
      = field_of (field_of initialised "data") "publish_id"
    ∧ url upload = template (field_of (field_of initialised "data") "upload_url")
    ∧ body upload = JStr buffer.
Proof.
  apply (tiktok_result_follows_publish_complete
           (mockEnv (mockRemote ttProtocol 1)) (freshWorld 0)
           (someUser true None) (someContent "video") noOptions).
  vm_compute. reflexivity.
Defined.

(** ** Both platforms, in every case *)

(** X21.  Publishing to both platforms never throws: it returns the aggregate
    of the two attempts, whatever their outcomes.  The [instagram] field
    is what the Instagram attempt returned, or [null]; the [tiktok]
    field is what the TikTok attempt returned, run from the world the
    Instagram attempt left, or [null]; [errors] holds the entry of a
    failed Instagram attempt and then the entry of a failed TikTok
    attempt, so that results and entries together number two. *)
Theorem both_platforms_never_throw user profileId content options env w :
  (∃ ig tt errors w',
     postToBoth user content options env w = (Return (Both ig tt errors), w')
     ∧ ig = attempted ((Single <$> postToInstagram user content options) env w).1
     ∧ tt = attempted
              ((Single <$> postToTikTok user content options) env
                 ((Single <$> postToInstagram user content options) env w).2).1
     ∧ errors
       = (reported "instagram"
            ((Single <$> postToInstagram user content options) env w).1
          ++ reported "tiktok"
               ((Single <$> postToTikTok user content options) env
                  ((Single <$> postToInstagram user content options) env w).2).1)%list
     ∧ w' = ((Single <$> postToTikTok user content options) env
               ((Single <$> postToInstagram user content options) env w).2).2
     ∧ (length (option_list ig) + length (option_list tt) + length errors = 2)%nat
     ∧ (ig = None → fst <$> head errors = Some "instagram")
     ∧ (tt = None → fst <$> last errors = Some "tiktok"))
  ∧ (∃ ig tt errors w',
     postToBothWithProfile profileId content options env w
     = (Return (Both ig tt errors), w')
     ∧ ig = attempted
              (postWithProfile profileId content
                 (withPlatform "instagram" options) env w).1
     ∧ tt = attempted
              (postWithProfile profileId content
                 (withPlatform "tiktok" options) env
                 (postWithProfile profileId content
                    (withPlatform "instagram" options) env w).2).1
     ∧ errors
       = (reported "instagram"
            (postWithProfile profileId content
               (withPlatform "instagram" options) env w).1
          ++ reported "tiktok"
               (postWithProfile profileId content
                  (withPlatform "tiktok" options) env
                  (postWithProfile profileId content
                     (withPlatform "instagram" options) env w).2).1)%list
     ∧ w' = (postWithProfile profileId content
               (withPlatform "tiktok" options) env
               (postWithProfile profileId content
                  (withPlatform "instagram" options) env w).2).2
     ∧ (length (option_list ig) + length (option_list tt) + length errors = 2)%nat
     ∧ (ig = None → fst <$> head errors = Some "instagram")
     ∧ (tt = None → fst <$> last errors = Some "tiktok")).
Proof.
  assert (Hshape : ∀ (first second : M PublishResult),
    ∃ ig tt errors w',
      bothOf first second env w = (Return (Both ig tt errors), w')
      ∧ ig = attempted (first env w).1
      ∧ tt = attempted (second env (first env w).2).1
      ∧ errors = (reported "instagram" (first env w).1
                  ++ reported "tiktok" (second env (first env w).2).1)%list
      ∧ w' = (second env (first env w).2).2
      ∧ (length (option_list ig) + length (option_list tt) + length errors = 2)%nat
      ∧ (ig = None → fst <$> head errors = Some "instagram")
      ∧ (tt = None → fst <$> last errors = Some "tiktok")).
  { intros first second. rewrite bothOf_run.
    eexists _, _, _, _. split; [reflexivity |].
    destruct (first env w) as [[r1 | e1] w1]; cbn [fst snd];
      destruct (second env w1) as [[r2 | e2] w2]; cbn; by split_and!. }
  split.
  - apply Hshape.
  - rewrite postToBothWithProfile_closed. apply Hshape.
Qed.

(** ** Publishing with a profile *)

Lemma platformOf_default options content :
  missing (o_platform options) = true → missing (c_platform content) = true →
  platformOf options content = "instagram".
Proof.
  unfold platformOf, missing, js_or.
  destruct (o_platform options) as [a |], (c_platform content) as [b |];
    cbn; intros Ha Hb; rewrite ?Ha, ?Hb; done.
Qed.

Lemma postWithProfile_run profileId content options env w :
  postWithProfile profileId content options env w
  = match findProfile env profileId with
    | None => (Throw (newError "Profile not found"), w)
    | Some profile =>
        let platformName := platformOf options content in
        match getEffectiveConnection profile platformName with
        | None =>
            (Throw (newError (platformName ++ " is not connected for this profile")), w)
        | Some credentials =>
            if negb (connected credentials)
            then (Throw (newError (platformName
                                   ++ " is not connected for this profile")), w)
            else if String.eqb platformName "instagram"
            then (Single <$> postToInstagram (mkUser (Some credentials) None)
                               content options) env w
            else if String.eqb platformName "tiktok"
            then (Single <$> postToTikTok (mkUser None (Some credentials))
                               content options) env w
            else if String.eqb platformName "both"
            then postToBothWithProfile profileId content options env w
            else (Throw (newError ("Unsupported platform: " ++ platformName)), w)
        end
    end.
Proof.
  unfold postWithProfile, postWithProfileVia, getCredentialsForProfile. run.
  destruct (findProfile env profileId) as [profile |] eqn:Hprofile; [| done].
  run. rewrite Hprofile. run. cbv zeta.
  destruct (getEffectiveConnection profile _) as [credentials |]; [| done].
  destruct (negb (connected credentials)); [done |].
  destruct (platformOf options content =? "instagram")%string eqn:Hig; [done |].
  destruct (platformOf options content =? "tiktok")%string eqn:Htt; [done |].
  by destruct (platformOf options content =? "both")%string.
Qed.

(** X22.  A publish with a profile fails before any request is sent when the
    profile does not exist, when it has no connected account for the
    platform, or when the platform is none of 'instagram', 'tiktok' and
    'both'; the platform is 'instagram' when neither the options nor the
    content name one; and with a connected Instagram or TikTok account
    it is the publish of a user who holds exactly that account. *)
Theorem profile_publish_is_the_user_publish
    profileId content options env w :
  (findProfile env profileId = None →
     postWithProfile profileId content options env w
     = (Throw (newError "Profile not found"), w))
  ∧ (missing (o_platform options) = true →
     missing (c_platform content) = true →
     platformOf options content = "instagram")
  ∧ (∀ profile, findProfile env profileId = Some profile →
     match getEffectiveConnection profile (platformOf options content) with
     | None =>
         postWithProfile profileId content options env w
         = (Throw (newError (platformOf options content
                             ++ " is not connected for this profile")), w)
     | Some credentials =>
         (connected credentials = false →
            postWithProfile profileId content options env w
            = (Throw (newError (platformOf options content
                                ++ " is not connected for this profile")), w))
         ∧ (connected credentials = true →
            (platformOf options content = "instagram" →
               postWithProfile profileId content options env w
               = (Single <$> postToInstagram (mkUser (Some credentials) None)
                               content options) env w)
            ∧ (platformOf options content = "tiktok" →
               postWithProfile profileId content options env w
               = (Single <$> postToTikTok (mkUser None (Some credentials))
                               content options) env w)
            ∧ (platformOf options content ≠ "instagram" →
               platformOf options content ≠ "tiktok" →
               platformOf options content ≠ "both" →
               postWithProfile profileId content options env w
               = (Throw (newError ("Unsupported platform: "
                                   ++ platformOf options content)), w)))
     end).
Proof.
  split_and!.
  - intros Hnone. by rewrite postWithProfile_run, Hnone.
  - apply platformOf_default.
  - intros profile Hprofile. rewrite postWithProfile_run, Hprofile. cbv zeta.
    destruct (getEffectiveConnection profile _) as [credentials |]; [| done].
    split; [by intros -> |]. intros ->. cbn [negb]. split_and!.
    + by intros ->.
    + by intros ->.
    + intros Hig%String.eqb_neq Htt%String.eqb_neq Hboth%String.eqb_neq.
      by rewrite Hig, Htt, Hboth.
Qed.

(** ** [validateCredentials] against the publish *)

Lemma validateCredentials_run user platformName env w :
  validateCredentials user platformName env w
  = let forInstagram :=
      String.eqb platformName "instagram" || String.eqb platformName "both" in
    let forTikTok :=
      String.eqb platformName "tiktok" || String.eqb platformName "both" in
    let tiktokPart :=
      if forTikTok
      then match tiktok user with
           | None => (Throw (newError
                        "Cannot read properties of undefined (reading 'connected')"), w)
           | Some account =>
               if connected account
               then (Return (mkValidation true None false), w)
               else (Return (mkValidation false (Some "TikTok not connected")
                                          false), w)
           end
      else (Return (mkValidation true None false), w) in
    if forInstagram
    then match instagram user with
         | None => (Throw (newError
                      "Cannot read properties of undefined (reading 'connected')"), w)
         | Some ig =>
             if connected ig
             then if expired (expiresAt ig) (clock w)
                  then (Return (mkValidation false (Some "Instagram token expired")
                                             true), w)
                  else tiktokPart
             else (Return (mkValidation false (Some "Instagram not connected")
                                        false), w)
         end
    else tiktokPart.
Proof.
  unfold validateCredentials. cbv zeta.
  destruct ((platformName =? "instagram") || (platformName =? "both"))%string;
    destruct ((platformName =? "tiktok") || (platformName =? "both"))%string;
    run;
    try (destruct (instagram user) as [ig |]; run; [| done];
         destruct (connected ig); run; [| done];
         destruct (expired (expiresAt ig) (clock w)); run; [done |]);
    try (destruct (tiktok user) as [account |]; run; [| done];
         destruct (connected account); run);
    done.
Qed.

(** X23.  [validateCredentials] sends nothing and leaves the world as it is.
    Credentials it rejects make the publish fail before any request:
    for 'instagram' and for 'tiktok' the publish throws a credential
    error from the same world, for 'both' the aggregate reports an
    error.  Credentials it accepts for 'instagram' are connected and
    not expired. *)
Theorem rejected_credentials_fail_the_publish
    user platformName content options env w v w' :
  validateCredentials user platformName env w = (Return v, w') →
  w' = w
  ∧ (valid v = false →
       (platformName = "instagram" →
          ∃ e, postToInstagram user content options env w = (Throw e, w)
               ∧ message e ∈ credentialErrors)
       ∧ (platformName = "tiktok" →
          postToTikTok user content options env w
          = (Throw (newError
               "TikTok posting failed: TikTok account not connected"), w))
       ∧ (platformName = "both" →
          ∃ r w'', postToBoth user content options env w = (Return r, w'')
                   ∧ res_errors r ≠ []))
  ∧ (valid v = true → platformName = "instagram" →
       ∃ ig, instagram user = Some ig ∧ connected ig = true
             ∧ expired (expiresAt ig) (clock w) = false).
Proof.
  rewrite validateCredentials_run. cbv zeta. intros Hrun.
  assert (Hw : w' = w).
  { repeat match type of Hrun with
           | context [if ?b then _ else _] => destruct b
           | context [match ?x with _ => _ end] => destruct x
           end; congruence. }
  split; [done |]. subst w'. split.
  - intros Hv. split_and!.
    + intros ->. cbn [String.eqb orb] in Hrun.
      change ("instagram" =? "instagram")%string with true in Hrun.
      change ("instagram" =? "tiktok")%string with false in Hrun.
      change ("instagram" =? "both")%string with false in Hrun.
      cbn [orb] in Hrun.
      destruct (instagram user) as [ig |] eqn:Hig; [| discriminate].
      destruct (connected ig) eqn:Hconn.
      * destruct (expired (expiresAt ig) (clock w)) eqn:Hexp.
        -- by apply (postToInstagram_expired _ _ _ _ _ ig).
        -- injection Hrun as <-. discriminate.
      * eexists. split; [by apply (postToInstagram_not_connected _ _ _ _ _ ig) |].
        repeat constructor.
    + intros ->.
      change ("tiktok" =? "instagram")%string with false in Hrun.
      change ("tiktok" =? "both")%string with false in Hrun.
      change ("tiktok" =? "tiktok")%string with true in Hrun.
      cbn [orb] in Hrun.
      destruct (tiktok user) as [tt |] eqn:Htt; [| discriminate].
      destruct (connected tt) eqn:Hconn.
      * injection Hrun as <-. discriminate.
      * by apply (postToTikTok_not_connected _ _ _ _ _ tt).
    + intros ->.
      change ("both" =? "instagram")%string with false in Hrun.
      change ("both" =? "tiktok")%string with false in Hrun.
      change ("both" =? "both")%string with true in Hrun.
      cbn [orb] in Hrun.
      unfold postToBoth. rewrite bothOf_run. eexists _, _.
      split; [reflexivity |]. cbn [res_errors].
      destruct (instagram user) as [ig |] eqn:Hig; [| discriminate].
      destruct (connected ig) eqn:Hconn.
      * destruct (expired (expiresAt ig) (clock w)) eqn:Hexp.
        -- rewrite run_fmap.
           destruct (postToInstagram_expired env w user content options ig Hig Hexp)
             as (e & -> & _). done.
        -- destruct (tiktok user) as [tt |] eqn:Htt; [| discriminate].
           destruct (connected tt) eqn:Hconn'.
           ++ injection Hrun as <-. discriminate.
           ++ rewrite (run_fmap _ (postToTikTok _ _ _)).
              rewrite (postToTikTok_not_connected _ _ _ _ _ tt Htt Hconn').
              cbn. intros Hnil%app_eq_nil. by destruct Hnil.
      * rewrite run_fmap.
        rewrite (postToInstagram_not_connected _ _ _ _ _ ig Hig Hconn). done.
  - intros Hv ->.
    change ("instagram" =? "instagram")%string with true in Hrun.
    change ("instagram" =? "tiktok")%string with false in Hrun.
    change ("instagram" =? "both")%string with false in Hrun.
    cbn [orb] in Hrun.
    destruct (instagram user) as [ig |] eqn:Hig; [| discriminate].
    exists ig.
    destruct (connected ig) eqn:Hconn;
      [| injection Hrun as <-; discriminate].
    destruct (expired (expiresAt ig) (clock w)) eqn:Hexp;
      [injection Hrun as <-; discriminate | done].
Qed.

Lemma rejected_credentials_fail_the_publish_witness :
  freshWorld 100 = freshWorld 100
  ∧ (valid (mkValidation false (Some "Instagram token expired") true) = false →
       ("instagram" = "instagram" →
          ∃ e, postToInstagram (someUser true (Some 5)) (someContent "image")
                 noOptions (mockEnv rejectingRemote) (freshWorld 100)
               = (Throw e, freshWorld 100)
               ∧ message e ∈ credentialErrors)
       ∧ ("instagram" = "tiktok" →
          postToTikTok (someUser true (Some 5)) (someContent "image") noOptions
            (mockEnv rejectingRemote) (freshWorld 100)
          = (Throw (newError
               "TikTok posting failed: TikTok account not connected"),
             freshWorld 100))
       ∧ ("instagram" = "both" →
          ∃ r w'', postToBoth (someUser true (Some 5)) (someContent "image")
                     noOptions (mockEnv rejectingRemote) (freshWorld 100)
                   = (Return r, w'')
                   ∧ res_errors r ≠ []))
  ∧ (valid (mkValidation false (Some "Instagram token expired") true) = true →
     "instagram" = "instagram" →
       ∃ ig, instagram (someUser true (Some 5)) = Some ig ∧ connected ig = true
             ∧ expired (expiresAt ig) (clock (freshWorld 100)) = false).
Proof.
  apply (rejected_credentials_fail_the_publish (someUser true (Some 5))
           "instagram" (someContent "image") noOptions
           (mockEnv rejectingRemote) (freshWorld 100)).
  reflexivity.
Defined.

(** ** A media file that is not there *)

(** X24.  The TikTok publish reads the media file after it has initialised
    the upload: with the file missing it fails with the file system's
    error, having sent the initialisation and nothing else. *)
Theorem tiktok_missing_file_fails_after_init env w user content options tt :
  tiktokConnected user tt → mediaType content = "video" →
  readFileSync env (mediaUrl content) = None →
  stepsSucceed ttProtocol (remote env) →
  ∃ init,
    postToTikTok user content options env w
    = (Throw (newError ("TikTok posting failed: "
                        ++ "ENOENT: no such file or directory, open '"
                        ++ mediaUrl content ++ "'")),
       exchanged env w init)
    ∧ url init = tiktokApi ++ "video/init/"
    ∧ callsDuring (postToTikTok user content options) env w = 1%nat.
Proof.
  intros (Htt & Hconn & Htok) Hmedia Hfile Hsteps.
  assert (Hrun : ∃ init,
    postToTikTok user content options env w
    = (Throw (newError ("TikTok posting failed: "
                        ++ "ENOENT: no such file or directory, open '"
                        ++ mediaUrl content ++ "'")),
       exchanged env w init)
    ∧ url init = tiktokApi ++ "video/init/").
  { unfold postToTikTok, axios_post, axios_put.
    run; rewrite Htt; run; rewrite Hconn; run; rewrite Htok; run.
    rewrite Hmedia; change ("video" =? "video")%string with true; run.
    accept Hsteps. rewrite Hfile. run. eexists. split; reflexivity. }
  destruct Hrun as (init & Hrun & Hurl). exists init.
  split_and!; [done | done |].
  unfold callsDuring. rewrite Hrun. cbn [snd].
  by rewrite (eventsOf_app _ _ _ (log_exchanged env w init)).
Qed.

Lemma tiktok_missing_file_fails_after_init_witness :
  ∃ init,
    postToTikTok (someUser true None) (someContent "video") noOptions
      (noFileEnv (mockRemote ttProtocol 0)) (freshWorld 0)
    = (Throw (newError ("TikTok posting failed: "
                        ++ "ENOENT: no such file or directory, open '"
                        ++ mediaUrl (someContent "video") ++ "'")),
       exchanged (noFileEnv (mockRemote ttProtocol 0)) (freshWorld 0) init)
    ∧ url init = tiktokApi ++ "video/init/"
    ∧ callsDuring (postToTikTok (someUser true None) (someContent "video")
                     noOptions)
        (noFileEnv (mockRemote ttProtocol 0)) (freshWorld 0) = 1%nat.
Proof.
  apply (tiktok_missing_file_fails_after_init
           (noFileEnv (mockRemote ttProtocol 0)) (freshWorld 0)
           (someUser true None) (someContent "video") noOptions
           (someAccount true None)).
  - repeat split.
  - reflexivity.
  - reflexivity.
  - apply mockRemote_steps.
Defined.

(** ** Local media paths *)

Lemma list_ascii_of_string_app (s t : string) :
  String.list_ascii_of_string (s ++ t)
  = (String.list_ascii_of_string s ++ String.list_ascii_of_string t)%list.
Proof.
  induction s as [| ch s IH]; [done |].
  change (String ch s ++ t) with (String ch (s ++ t)).
  cbn [String.list_ascii_of_string app]. by rewrite IH.
Qed.

Lemma takeSegment_app (l rest : list ascii) :
  forallb (λ ch, negb (Ascii.eqb ch "/")) l = true →
  takeSegment (l ++ "/"%char :: rest) = l.
Proof.
  induction l as [| ch l IH]; [done |].
  cbn [forallb]. intros [Hch Hl]%andb_true_iff. cbn [app takeSegment].
  rewrite (IH Hl).
  destruct (Ascii.eqb_spec ch "/") as [-> | Hne]; [done |].
  destruct ch as [[] [] [] [] [] [] [] []]; try done.
Qed.

Lemma dropSlashes_segment (l rest : list ascii) :
  l ≠ [] → forallb (λ ch, negb (Ascii.eqb ch "/")) l = true →
  dropSlashes (l ++ rest) = (l ++ rest)%list.
Proof.
  destruct l as [| ch l]; [done |]. intros _.
  cbn [forallb]. intros [Hch _]%andb_true_iff.
  destruct (Ascii.eqb_spec ch "/") as [-> | Hne]; [done |].
  destruct ch as [[] [] [] [] [] [] [] []]; try done.
Qed.

Lemma forallb_rev {A} (f : A → bool) (l : list A) :
  forallb f (rev l) = forallb f l.
Proof.
  induction l as [| x l IH]; [done |].
  cbn. rewrite forallb_app, IH. cbn. by destruct (f x), (forallb f l).
Qed.

Lemma basename_of_path (dir name : string) :
  isFileName name = true → basename (dir ++ "/" ++ name) = name.
Proof.
  unfold isFileName. intros [Hne Hchars]%andb_true_iff.
  unfold basename.
  rewrite list_ascii_of_string_app.
  change ("/" ++ name) with (String "/" name).
  cbn [String.list_ascii_of_string].
  rewrite rev_app_distr. cbn [rev]. rewrite <- app_assoc. cbn [app].
  assert (Hrev : forallb (λ ch, negb (Ascii.eqb ch "/"))
                         (rev (String.list_ascii_of_string name)) = true)
    by (by rewrite forallb_rev).
  rewrite dropSlashes_segment; [| | done].
  - rewrite takeSegment_app by done.
    by rewrite rev_involutive, String.string_of_list_ascii_of_string.
  - destruct name as [| ch name]; [done |]. cbn.
    by destruct (rev (String.list_ascii_of_string name)).
Qed.

(** X25.  For a local path, the public URL is made of the file name alone: the
    directories are dropped, so that files of one name in different
    directories get the same URL. *)
Theorem local_media_url_drops_the_directory frontend (dir name : string) :
  isFileName name = true →
  isFullUrl (dir ++ "/" ++ name) = false →
  getPublicMediaUrl frontend (dir ++ "/" ++ name)
  = baseUrl frontend ++ "/uploads/" ++ name
  ∧ ∀ other, isFullUrl (other ++ "/" ++ name) = false →
             getPublicMediaUrl frontend (other ++ "/" ++ name)
             = getPublicMediaUrl frontend (dir ++ "/" ++ name).
Proof.
  intros Hname Hlocal.
  assert (Hurl : ∀ d, isFullUrl (d ++ "/" ++ name) = false →
            getPublicMediaUrl frontend (d ++ "/" ++ name)
            = baseUrl frontend ++ "/uploads/" ++ name).
  { intros d Hd. unfold getPublicMediaUrl. unfold isFullUrl in Hd.
    by rewrite Hd, basename_of_path. }
  split; [by apply Hurl |]. intros other Hother.
  by rewrite !Hurl.
Qed.

Lemma local_media_url_drops_the_directory_witness :
  getPublicMediaUrl None ("uploads/2024" ++ "/" ++ "cat.jpg")
  = baseUrl None ++ "/uploads/" ++ "cat.jpg"
  ∧ ∀ other, isFullUrl (other ++ "/" ++ "cat.jpg") = false →
             getPublicMediaUrl None (other ++ "/" ++ "cat.jpg")
             = getPublicMediaUrl None ("uploads/2024" ++ "/" ++ "cat.jpg").
Proof.
  apply (local_media_url_drops_the_directory None "uploads/2024" "cat.jpg");
    reflexivity.
Defined.

(** ** An image, from container to permalink *)

(** X27.  Against any remote, an Instagram image publish that returns has
    sent three requests and waited for nothing: the container request
    with the public URL of the media and the caption (the options'
    caption, else the content's, else the empty string), the publish
    request for the container the remote answered, and the permalink
    request for the post the remote answered. *)
Theorem image_is_published_from_its_container
    env w userId accessToken content options r w' :
  postInstagramImage userId accessToken content options env w = (Return r, w') →
  ∃ container created publish published link linked,
    eventsOf w w'
    = [EvHttp container (RespOk created); EvHttp publish (RespOk published);
       EvHttp link (RespOk linked)]
    ∧ field_of (body container) "image_url"
      = JStr (getPublicMediaUrl (FRONTEND_URL env) (mediaUrl content))
    ∧ field_of (body container) "caption" = caption_of options content
    ∧ url publish = graph ++ template userId ++ "/media_publish"
    ∧ field_of (body publish) "creation_id" = field_of created "id"
    ∧ url link = graph ++ template (field_of published "id")
    ∧ success r = true ∧ platform r = "instagram"
    ∧ r_postId r = field_of published "id"
    ∧ r_postUrl r = field_of linked "permalink".
Proof.
  unfold postInstagramImage, publishAndLink, axios_post, axios_get. run.
  answer. read. answer. read. answer. read.
  intros [= <- <-].
  eexists _, data, _, data0, _, data1.
  split_and!.
  - apply eventsOf_app.
    rewrite log_exchanged, Hresp1, log_exchanged, Hresp0, log_exchanged, Hresp.
    rewrite <- !app_assoc. reflexivity.
  - done.
  - done.
  - done.
  - done.
  - done.
  - done.
  - done.
  - done.
  - done.
Qed.

Lemma image_is_published_from_its_container_witness :
  ∃ container created publish published link linked,
    eventsOf (freshWorld 100)
      (postInstagramImage (JStr "u1") (JStr "token") (someContent "image")
         noOptions (mockEnv (mockRemote igProtocol 0)) (freshWorld 100)).2
    = [EvHttp container (RespOk created); EvHttp publish (RespOk published);
       EvHttp link (RespOk linked)]
    ∧ field_of (body container) "image_url"
      = JStr (getPublicMediaUrl
                (FRONTEND_URL (mockEnv (mockRemote igProtocol 0)))
                (mediaUrl (someContent "image")))
    ∧ field_of (body container) "caption"
      = caption_of noOptions (someContent "image")
    ∧ url publish = graph ++ template (JStr "u1") ++ "/media_publish"
    ∧ field_of (body publish) "creation_id" = field_of created "id"
    ∧ url link = graph ++ template (field_of published "id")
    ∧ success (mkPostResult true "instagram" (JStr "17900")
                 (JStr "https://www.instagram.com/p/17900/") 100) = true
    ∧ platform (mkPostResult true "instagram" (JStr "17900")
                  (JStr "https://www.instagram.com/p/17900/") 100) = "instagram"
    ∧ r_postId (mkPostResult true "instagram" (JStr "17900")
                  (JStr "https://www.instagram.com/p/17900/") 100)
      = field_of published "id"
    ∧ r_postUrl (mkPostResult true "instagram" (JStr "17900")
                   (JStr "https://www.instagram.com/p/17900/") 100)
      = field_of linked "permalink".
Proof.
  apply (image_is_published_from_its_container
           (mockEnv (mockRemote igProtocol 0)) (freshWorld 100)
           (JStr "u1") (JStr "token") (someContent "image") noOptions).
  vm_compute. reflexivity.
Defined.

(** ** What a thrown error says *)

Lemma try_rethrow_thrown {A} (m : M A) (wrap : Error → Error) env w e w' :
  try_catch m (λ error, throw (wrap error)) env w = (Throw e, w') →
  ∃ cause, m env w = (Throw cause, w') ∧ e = wrap cause.
Proof.
  rewrite run_try_catch. destruct (m env w) as [[a | cause] w0];
    [discriminate |].
  rewrite run_throw. intros [= <- <-]. eauto.
Qed.

(** X28.  The message of an error a publish throws tells where it failed.
    From [postToInstagram] it is one of the messages of the local checks
    (and then nothing was sent), or it begins with 'Instagram posting
    failed: ' (an image) or 'Instagram video posting failed: ' (a
    video).  From [postToTikTok] it always begins with 'TikTok posting
    failed: ', the local checks included. *)
Theorem thrown_errors_name_their_origin env w user content options e w' :
  (postToInstagram user content options env w = (Throw e, w') →
     (message e ∈ instagramLocalErrors content ∧ w' = w)
     ∨ (mediaType content = "image"
        ∧ ∃ cause, message e = "Instagram posting failed: " ++ cause)
     ∨ (mediaType content = "video"
        ∧ ∃ cause, message e = "Instagram video posting failed: " ++ cause))
  ∧ (postToTikTok user content options env w = (Throw e, w') →
     ∃ cause, message e = "TikTok posting failed: " ++ cause).
Proof.
  split.
  - unfold postToInstagram. rewrite run_try_catch.
    match goal with
    | |- context [match ?m env w with _ => _ end] =>
        destruct (m env w) as [[r0 | e0] w0] eqn:Hrun; [discriminate |]
    end.
    rewrite run_throw. intros [= <- <-]. revert Hrun. run.
    destruct (instagram user) as [ig |]; run;
      [| intros [= <- <-]; left; split; [| done]; repeat constructor].
    destruct (connected ig); run;
      [| intros [= <- <-]; left; split; [| done]; repeat constructor].
    destruct (missing (accessToken ig)); run;
      [intros [= <- <-]; left; split; [| done]; repeat constructor |].
    destruct (expired (expiresAt ig) (clock w)); run;
      [intros [= <- <-]; left; split; [| done]; repeat constructor |].
    destruct (mediaType content =? "image")%string eqn:Himage.
    { intros (cause & _ & ->)%try_rethrow_thrown.
      right; left. split; [by apply String.eqb_eq | eauto]. }
    destruct (mediaType content =? "video")%string eqn:Hvideo.
    { intros (cause & _ & ->)%try_rethrow_thrown.
      right; right. split; [by apply String.eqb_eq | eauto]. }
    destruct (mediaType content =? "carousel")%string;
      unfold postInstagramCarousel; run;
      intros [= <- <-]; left; (split; [| done]); repeat constructor.
  - intros (cause & _ & ->)%try_rethrow_thrown. eauto.
Qed.

Lemma thrown_errors_name_their_origin_witness :
  ∃ cause,
    message (newError "TikTok posting failed: TikTok account not connected")
    = "TikTok posting failed: " ++ cause.
Proof.
  refine (proj2 (thrown_errors_name_their_origin
                   (mockEnv rejectingRemote) (freshWorld 100)
                   (someUser false None) (someContent "video") noOptions
                   (newError "TikTok posting failed: TikTok account not connected")
                   (freshWorld 100)) _).
  reflexivity.
Defined.

End ServiceFacts.
